(** * CORDIC demonstration program: fixed-point conversions, range validation
      and the menu dispatch loop.

    Shallow embedding of [cordic_functions.c].  Floating-point values are
    IEEE-754 numbers as specified by the standard library's [SpecFloat]
    ([float32_t] is binary32, [float64_t] is binary64), integers are [Z] with
    the C type's range written out, the console is a character stream and the
    program's effects (console output, console reads, accelerator calls) are
    recorded in a trace carried by a small state monad. *)

From Stdlib Require Import ZArith Bool List String Ascii Lia QArith Qabs Lqa.
From Stdlib Require Import Qpower Qround.
From Stdlib Require Import Floats.SpecFloat.
Import ListNotations.

Local Open Scope Z_scope.

(** ** IEEE-754 formats *)

Definition float32_t := spec_float.
Definition float64_t := spec_float.

(** binary32 arithmetic ([float]) *)
Module B32.
Definition prec := 24.
Definition emax := 128.
Definition of_Z (z : Z) : float32_t := binary_normalize prec emax z 0 false.
Definition mul : float32_t -> float32_t -> float32_t := SFmul prec emax.
Definition div : float32_t -> float32_t -> float32_t := SFdiv prec emax.
Definition ltb : float32_t -> float32_t -> bool := SFltb.
Definition leb : float32_t -> float32_t -> bool := SFleb.
Definition eqb : float32_t -> float32_t -> bool := SFeqb.
Definition valid (x : float32_t) : bool := valid_binary prec emax x.
End B32.

(** binary64 arithmetic ([double]) *)
Module B64.
Definition prec := 53.
Definition emax := 1024.
Definition of_Z (z : Z) : float64_t := binary_normalize prec emax z 0 false.
Definition mul : float64_t -> float64_t -> float64_t := SFmul prec emax.
Definition div : float64_t -> float64_t -> float64_t := SFdiv prec emax.
Definition valid (x : float64_t) : bool := valid_binary prec emax x.
(** A decimal literal [n / 10^k] of the source text, rounded to nearest. *)
Definition dec (n : Z) (k : Z) : float64_t := div (of_Z n) (of_Z (10 ^ k)).
End B64.

(** 2^31 as a binary32 number, the value of [(float)Q31_MULTIPLIER]. *)
Definition two31 : float32_t := S754_finite false 8388608 8.

(** The state of the rounding shifter when no bit has been lost. *)
Definition exact_record (m : Z) : shr_record :=
  {| shr_m := m; shr_r := false; shr_s := false |}.

Definition is_nan (x : spec_float) : bool :=
  match x with S754_nan => true | _ => false end.

Definition is_finite (x : spec_float) : bool :=
  match x with S754_zero _ | S754_finite _ _ _ => true | _ => false end.

(** The rational number a finite float denotes (0 for infinities and NaN). *)
Definition F2Q (x : spec_float) : Q :=
  match x with
  | S754_finite s m e =>
      if 0 <=? e then inject_Z (cond_Zopp s (Zpos m * 2 ^ e))
      else Qmake (cond_Zopp s (Zpos m)) (Z.to_pos (2 ^ (- e)))
  | _ => 0%Q
  end.

(** A number of the format of precision [prec] and exponent bound [emax]: a
    zero or a finite number of sign [s], whose absolute value is the
    rational [a] and whose mantissa and exponent are those of the format. *)
Definition has_magnitude (prec emax : Z) (R : spec_float) (s : bool) (a : Q)
  : Prop :=
  (R = S754_zero s /\ a == 0)%Q
  \/ exists m e,
       R = S754_finite s m e /\ Zpos m < 2 ^ prec
       /\ emin prec emax <= e <= emax - prec
       /\ (a == inject_Z (Zpos m) * 2 ^ e)%Q.

(** A rational truncated toward zero, as a C cast to an integer type does
    with a value in the range of the type. *)
Definition Qtrunc (x : Q) : Z :=
  if Qle_bool 0 x then Qfloor x else Qceiling x.

(** The value of a finite binary32 number in units of 2^-149, the least
    positive one. *)
Definition Fscaled (x : float32_t) : Z :=
  match x with
  | S754_finite s m e => cond_Zopp s (Zpos m * 2 ^ (e + 149))
  | _ => 0
  end.

(** [(float)d]: a double rounded to binary32. *)
Definition f64_to_f32 (x : float64_t) : float32_t :=
  match x with
  | S754_finite s m e => binary_round B32.prec B32.emax s m e
  | _ => x
  end.

(** [(double)f]: a float widened to binary64 (exact). *)
Definition f32_to_f64 (x : float32_t) : float64_t :=
  match x with
  | S754_finite s m e => binary_round B64.prec B64.emax s m e
  | _ => x
  end.

Definition INT32_MIN : Z := - 2147483648.
Definition INT32_MAX : Z := 2147483647.

Definition clamp_s32 (z : Z) : Z :=
  if z <? INT32_MIN then INT32_MIN
  else if INT32_MAX <? z then INT32_MAX else z.

(** The integer part of [M * 2^E], for [M >= 0]. *)
Definition Zfloor_scaled (M E : Z) : Z :=
  if 0 <=? E then M * 2 ^ E else M / 2 ^ (- E).

(** The integer part of a float, rounding toward zero. *)
Definition Ztrunc (x : spec_float) : Z :=
  match x with
  | S754_finite s m e => cond_Zopp s (Zfloor_scaled (Zpos m) e)
  | _ => 0
  end.

(** [(int32_t)f].  C truncates toward zero, and leaves the conversion
    undefined for NaN, for the infinities and for a value whose integer part
    is outside the range of [int32_t].  The model leaves those conversions
    to the platform: [undefined x] is what its conversion gives for such an
    [x]. *)
Definition f32_to_s32 (undefined : float32_t -> Z) (x : float32_t) : Z :=
  match x with
  | S754_nan | S754_infinity _ => undefined x
  | _ =>
      if ((INT32_MIN <=? Ztrunc x) && (Ztrunc x <=? INT32_MAX))%bool
      then Ztrunc x
      else undefined x
  end.

(** Two platforms.  The conversion instruction of the Arm cores saturates
    and gives 0 for NaN; that of x86 gives [INT32_MIN] for every operand
    it cannot convert. *)
Definition saturating_cast (x : float32_t) : Z :=
  match x with
  | S754_nan => 0
  | S754_infinity s => if s then INT32_MIN else INT32_MAX
  | _ => clamp_s32 (Ztrunc x)
  end.

Definition indefinite_cast (x : float32_t) : Z := INT32_MIN.

(** [(uint32_t)i] for an [int32_t] value. *)
Definition s32_to_u32 (z : Z) : Z := z mod 4294967296.

(** ** Macros of [cordic_functions.c] *)

(** The selector enumeration [Ifx_CORDIC_functions]. *)
Definition Ifx_CORDIC_PARK_TRANS   : Z := 0.
Definition Ifx_CORDIC_SINE         : Z := 1.
Definition Ifx_CORDIC_COSINE       : Z := 2.
Definition Ifx_CORDIC_TAN          : Z := 3.
Definition Ifx_CORDIC_ARC_TAN      : Z := 4.
Definition Ifx_CORDIC_HYP_SINE     : Z := 5.
Definition Ifx_CORDIC_HYP_COSINE   : Z := 6.
Definition Ifx_CORDIC_HYP_TAN      : Z := 7.
Definition Ifx_CORDIC_HYP_ARC_TAN  : Z := 8.
Definition Ifx_CORDIC_SQRT         : Z := 9.

(** Multipliers for the Q format conversions, as the source writes them. *)
Definition Q31_MULTIPLIER : Z := 2147483648.
Definition Q30_MULTIPLIER : Z := 1073741824.
Definition Q23_MULTIPLIER : Z := 8388607.
Definition Q22_MULTIPLIER : Z := 4194304.
Definition Q15_MULTIPLIER : Z := 32768.
Definition Q11_MULTIPLIER : Z := 2048.
Definition Q8_MULTIPLIER  : Z := 256.

(** The literal [3.141592654]. *)
Definition PI_LITERAL : float64_t := Eval vm_compute in B64.dec 3141592654 9.

Definition DEG_RAD_MULTIPLIER : float64_t :=
  Eval vm_compute in B64.div PI_LITERAL (B64.of_Z 180).
Definition RAD_DEG_MULTIPLIER : float64_t :=
  Eval vm_compute in B64.div (B64.of_Z 180) PI_LITERAL.

(** [FLOAT_DEG_TO_RAD(x)], with [x] a [float32_t]: computed in double. *)
Definition FLOAT_DEG_TO_RAD (x : float32_t) : float64_t :=
  B64.mul (f32_to_f64 x) DEG_RAD_MULTIPLIER.

(** [FLOAT_RAD_TO_DEG(x)], with [x] a [float64_t]. *)
Definition FLOAT_RAD_TO_DEG (x : float64_t) : float64_t :=
  B64.mul x RAD_DEG_MULTIPLIER.

(** [FLOAT_DEG_TO_RAD_Q31(x)]: the quotient [Q31_MULTIPLIER/180] is an integer
    division. *)
Definition FLOAT_DEG_TO_RAD_Q31 (undefined : float32_t -> Z) (x : float32_t)
  : Z :=
  f32_to_s32 undefined (B32.mul x (B32.of_Z (Q31_MULTIPLIER / 180))).

Definition FLOAT_TO_Q31 (undefined : float32_t -> Z) (x : float32_t) : Z :=
  f32_to_s32 undefined (B32.mul x (B32.of_Z Q31_MULTIPLIER)).

Definition FLOAT_TO_Q8_23 (undefined : float32_t -> Z) (x : float32_t) : Z :=
  f32_to_s32 undefined (B32.mul x (B32.of_Z Q8_MULTIPLIER)).

Definition Q31_TO_FLOAT (x : Z) : float32_t :=
  B32.div (B32.of_Z x) (B32.of_Z Q31_MULTIPLIER).

Definition Q1_30_TO_FLOAT (x : Z) : float32_t :=
  B32.div (B32.of_Z x) (B32.of_Z Q30_MULTIPLIER).

Definition Q23_TO_FLOAT (x : Z) : float32_t :=
  B32.div (B32.of_Z x) (B32.of_Z Q23_MULTIPLIER).

Definition Q20_11_TO_FLOAT (x : Z) : float32_t :=
  B32.div (B32.of_Z x) (B32.of_Z Q11_MULTIPLIER).

(** [Q31_TO_DEG_FLOAT(x)]: the float is multiplied by a double constant. *)
Definition Q31_TO_DEG_FLOAT (x : Z) : float64_t :=
  B64.mul (f32_to_f64 (B32.of_Z x))
          (B64.div PI_LITERAL (B64.of_Z Q31_MULTIPLIER)).

Definition CORDIC_CIRCULAR_GAIN : float64_t :=
  Eval vm_compute in B64.dec 1646760258121 12.

(** Input minimum/maximum values, converted to the [float32_t] parameters of
    [check_range]. *)
Definition IN_PARK_ANGLE_MAX : float32_t := B32.of_Z 90.
Definition IN_PARK_ANGLE_MIN : float32_t := B32.of_Z (-90).
Definition IN_SIN_COS_MAX : float32_t := B32.of_Z 90.
Definition IN_SIN_COS_MIN : float32_t := B32.of_Z (-90).
Definition IN_TAN_MAX : float32_t := B32.of_Z 89.
Definition IN_TAN_MIN : float32_t := B32.of_Z (-89).
Definition IN_ATAN_MAX : float32_t := B32.of_Z 57.
Definition IN_ATAN_MIN : float32_t := B32.of_Z (-57).
Definition IN_HYP_SIN_COS_TAN_MAX : float32_t := B32.of_Z 60.
Definition IN_HYP_SIN_COS_TAN_MIN : float32_t := B32.of_Z (-60).
Definition IN_ATANH_MAX : float32_t := f64_to_f32 (B64.dec 8 1).
Definition IN_ATANH_MIN : float32_t := f64_to_f32 (SFopp (B64.dec 8 1)).

Definition ATAN_TANH_IN_SCALING : float64_t :=
  Eval vm_compute in B64.dec 12799 2.

(** Status codes of the accelerator driver used by [check_range]. *)
Inductive cy_en_cordic_status_t := CY_CORDIC_SUCCESS | CY_CORDIC_BAD_PARAM.

Definition status_eqb (a b : cy_en_cordic_status_t) : bool :=
  match a, b with
  | CY_CORDIC_SUCCESS, CY_CORDIC_SUCCESS => true
  | CY_CORDIC_BAD_PARAM, CY_CORDIC_BAD_PARAM => true
  | _, _ => false
  end.

(** ** Console stream and C strings *)

Definition NUL : ascii := ascii_of_nat 0.
Definition CR : ascii := ascii_of_nat 13.
Definition LF : ascii := ascii_of_nat 10.
Definition ESC : ascii := ascii_of_nat 27.
Definition CRLF : string := String CR (String LF EmptyString).

(** [isspace] and [isdigit] of the C locale. *)
Definition is_space (c : ascii) : bool :=
  let n := nat_of_ascii c in
  (Nat.eqb n 32 || (Nat.leb 9 n && Nat.leb n 13))%bool.

Definition is_digit (c : ascii) : bool :=
  let n := nat_of_ascii c in (Nat.leb 48 n && Nat.leb n 57)%bool.

Definition digit_value (c : ascii) : Z := Z.of_nat (nat_of_ascii c) - 48.

Fixpoint skip_space (s : string) : string :=
  match s with
  | String c r => if is_space c then skip_space r else s
  | EmptyString => EmptyString
  end.

(** At most [n] characters up to the next white space, and what follows. *)
Fixpoint take_token (n : nat) (s : string) : string * string :=
  match n, s with
  | S k, String c r =>
      if is_space c then (EmptyString, s)
      else let '(t, rest) := take_token k r in (String c t, rest)
  | _, _ => (EmptyString, s)
  end.

(** The directive [%120s]: skips white space and reads a token of at most
    120 characters; nothing is read at the end of the stream. *)
Definition scan_token (s : string) : option (string * string) :=
  match skip_space s with
  | EmptyString => None
  | s' => Some (take_token 120 s')
  end.

Fixpoint drop (n : nat) (s : string) : string :=
  match n, s with
  | S k, String _ r => drop k r
  | _, _ => s
  end.

(** Writing a token and its terminator at the start of a buffer; the bytes
    behind the terminator keep their value. *)
Definition store_token (tok buf : string) : string :=
  (tok ++ String NUL (drop (S (String.length tok)) buf))%string.

(** The C string a buffer holds: its characters before the first NUL. *)
Fixpoint c_str (buf : string) : string :=
  match buf with
  | String c r => if Ascii.eqb c NUL then EmptyString else String c (c_str r)
  | EmptyString => EmptyString
  end.

Fixpoint digits_value (acc : Z) (s : string) : Z :=
  match s with
  | String c r =>
      if is_digit c then digits_value (acc * 10 + digit_value c) r else acc
  | EmptyString => acc
  end.

(** [atoi] of the C library: optional white space, an optional sign and the
    decimal digits that follow; 0 when there is no digit.  A value outside
    [int] is clamped, as [strtol] does. *)
Definition atoi (s : string) : Z :=
  match skip_space s with
  | String c r =>
      if Ascii.eqb c "-" then clamp_s32 (- digits_value 0 r)
      else if Ascii.eqb c "+" then clamp_s32 (digits_value 0 r)
      else clamp_s32 (digits_value 0 (String c r))
  | EmptyString => 0
  end.

(** How the compiler represents [Ifx_CORDIC_functions]: as an [int], or, with
    short enumerations (the default of the bare-metal ARM ABI), as the
    smallest type holding 0..9, an [unsigned char]. *)
Inductive enum_repr := EnumInt | EnumUChar.

(** The cast [(Ifx_CORDIC_functions)i]. *)
Definition enum_cast (r : enum_repr) (i : Z) : Z :=
  match r with
  | EnumInt => i
  | EnumUChar => i mod 256
  end.

(** ** External collaborators *)

(** The accelerator primitives of the peripheral driver. *)
Inductive cordic_primitive :=
  | HwParkTransform | HwSin | HwCos | HwTan | HwArcTan
  | HwSinh | HwCosh | HwTanh | HwArcTanh | HwSqrt.

(** What the program takes from outside: the C library ([atof] and the
    functions of [math.h]), the accelerator driver, the software Park
    transform of the DSP library, the representation of the selector
    enumeration, and [undefined_cast], what the platform's conversion from
    float to [int32_t] gives where C leaves it undefined.  The accelerator
    primitives are functions of their
    operands: [Cy_CORDIC_ParkTransform] stands for the submission, the wait
    on the busy flag and the retrieval of the result pair (Id, Iq). *)
Record Externals := {
  atof : string -> float64_t;
  sin : float64_t -> float64_t;
  cos : float64_t -> float64_t;
  tan : float64_t -> float64_t;
  atan2 : float64_t -> float64_t -> float64_t;
  sinh : float64_t -> float64_t;
  cosh : float64_t -> float64_t;
  tanh : float64_t -> float64_t;
  atanh : float64_t -> float64_t;
  sqrt : float64_t -> float64_t;
  Cy_CORDIC_ParkTransform : Z -> Z -> Z -> Z * Z;
  Cy_CORDIC_Sin : Z -> Z;
  Cy_CORDIC_Cos : Z -> Z;
  Cy_CORDIC_Tan : Z -> Z;
  Cy_CORDIC_ArcTan : Z -> Z -> Z;
  Cy_CORDIC_Sinh : Z -> Z;
  Cy_CORDIC_Cosh : Z -> Z;
  Cy_CORDIC_Tanh : Z -> Z;
  Cy_CORDIC_ArcTanh : Z -> Z -> Z;
  Cy_CORDIC_Sqrt : Z -> Z;
  arm_park_q31 : Z -> Z -> Z -> Z -> Z * Z;
  selector_repr : enum_repr;
  undefined_cast : float32_t -> Z
}.

(** ** Program state *)

(** The global variables of [cordic_functions.c]. *)
Record globals := {
  read_string : string;
  read_status : Z;
  cordic_function : Z;
  angle_deg : float32_t;
  ialpha : float32_t;
  ibeta : float32_t;
  angle_rad : float32_t;
  numerator : float32_t;
  denominator : float32_t;
  result_doub : float64_t;
  result_q31 : Z;
  result_1q30 : Z;
  result_20q11 : Z;
  angle_q31 : Z;
  numerator_8q23 : Z;
  denominator_8q23 : Z
}.

Definition set_read_string v g := {| read_string := v; read_status := read_status g; cordic_function := cordic_function g; angle_deg := angle_deg g; ialpha := ialpha g; ibeta := ibeta g; angle_rad := angle_rad g; numerator := numerator g; denominator := denominator g; result_doub := result_doub g; result_q31 := result_q31 g; result_1q30 := result_1q30 g; result_20q11 := result_20q11 g; angle_q31 := angle_q31 g; numerator_8q23 := numerator_8q23 g; denominator_8q23 := denominator_8q23 g |}.
Definition set_read_status v g := {| read_string := read_string g; read_status := v; cordic_function := cordic_function g; angle_deg := angle_deg g; ialpha := ialpha g; ibeta := ibeta g; angle_rad := angle_rad g; numerator := numerator g; denominator := denominator g; result_doub := result_doub g; result_q31 := result_q31 g; result_1q30 := result_1q30 g; result_20q11 := result_20q11 g; angle_q31 := angle_q31 g; numerator_8q23 := numerator_8q23 g; denominator_8q23 := denominator_8q23 g |}.
Definition set_cordic_function v g := {| read_string := read_string g; read_status := read_status g; cordic_function := v; angle_deg := angle_deg g; ialpha := ialpha g; ibeta := ibeta g; angle_rad := angle_rad g; numerator := numerator g; denominator := denominator g; result_doub := result_doub g; result_q31 := result_q31 g; result_1q30 := result_1q30 g; result_20q11 := result_20q11 g; angle_q31 := angle_q31 g; numerator_8q23 := numerator_8q23 g; denominator_8q23 := denominator_8q23 g |}.
Definition set_angle_deg v g := {| read_string := read_string g; read_status := read_status g; cordic_function := cordic_function g; angle_deg := v; ialpha := ialpha g; ibeta := ibeta g; angle_rad := angle_rad g; numerator := numerator g; denominator := denominator g; result_doub := result_doub g; result_q31 := result_q31 g; result_1q30 := result_1q30 g; result_20q11 := result_20q11 g; angle_q31 := angle_q31 g; numerator_8q23 := numerator_8q23 g; denominator_8q23 := denominator_8q23 g |}.
Definition set_ialpha v g := {| read_string := read_string g; read_status := read_status g; cordic_function := cordic_function g; angle_deg := angle_deg g; ialpha := v; ibeta := ibeta g; angle_rad := angle_rad g; numerator := numerator g; denominator := denominator g; result_doub := result_doub g; result_q31 := result_q31 g; result_1q30 := result_1q30 g; result_20q11 := result_20q11 g; angle_q31 := angle_q31 g; numerator_8q23 := numerator_8q23 g; denominator_8q23 := denominator_8q23 g |}.
Definition set_ibeta v g := {| read_string := read_string g; read_status := read_status g; cordic_function := cordic_function g; angle_deg := angle_deg g; ialpha := ialpha g; ibeta := v; angle_rad := angle_rad g; numerator := numerator g; denominator := denominator g; result_doub := result_doub g; result_q31 := result_q31 g; result_1q30 := result_1q30 g; result_20q11 := result_20q11 g; angle_q31 := angle_q31 g; numerator_8q23 := numerator_8q23 g; denominator_8q23 := denominator_8q23 g |}.
Definition set_angle_rad v g := {| read_string := read_string g; read_status := read_status g; cordic_function := cordic_function g; angle_deg := angle_deg g; ialpha := ialpha g; ibeta := ibeta g; angle_rad := v; numerator := numerator g; denominator := denominator g; result_doub := result_doub g; result_q31 := result_q31 g; result_1q30 := result_1q30 g; result_20q11 := result_20q11 g; angle_q31 := angle_q31 g; numerator_8q23 := numerator_8q23 g; denominator_8q23 := denominator_8q23 g |}.
Definition set_numerator v g := {| read_string := read_string g; read_status := read_status g; cordic_function := cordic_function g; angle_deg := angle_deg g; ialpha := ialpha g; ibeta := ibeta g; angle_rad := angle_rad g; numerator := v; denominator := denominator g; result_doub := result_doub g; result_q31 := result_q31 g; result_1q30 := result_1q30 g; result_20q11 := result_20q11 g; angle_q31 := angle_q31 g; numerator_8q23 := numerator_8q23 g; denominator_8q23 := denominator_8q23 g |}.
Definition set_denominator v g := {| read_string := read_string g; read_status := read_status g; cordic_function := cordic_function g; angle_deg := angle_deg g; ialpha := ialpha g; ibeta := ibeta g; angle_rad := angle_rad g; numerator := numerator g; denominator := v; result_doub := result_doub g; result_q31 := result_q31 g; result_1q30 := result_1q30 g; result_20q11 := result_20q11 g; angle_q31 := angle_q31 g; numerator_8q23 := numerator_8q23 g; denominator_8q23 := denominator_8q23 g |}.
Definition set_result_doub v g := {| read_string := read_string g; read_status := read_status g; cordic_function := cordic_function g; angle_deg := angle_deg g; ialpha := ialpha g; ibeta := ibeta g; angle_rad := angle_rad g; numerator := numerator g; denominator := denominator g; result_doub := v; result_q31 := result_q31 g; result_1q30 := result_1q30 g; result_20q11 := result_20q11 g; angle_q31 := angle_q31 g; numerator_8q23 := numerator_8q23 g; denominator_8q23 := denominator_8q23 g |}.
Definition set_result_q31 v g := {| read_string := read_string g; read_status := read_status g; cordic_function := cordic_function g; angle_deg := angle_deg g; ialpha := ialpha g; ibeta := ibeta g; angle_rad := angle_rad g; numerator := numerator g; denominator := denominator g; result_doub := result_doub g; result_q31 := v; result_1q30 := result_1q30 g; result_20q11 := result_20q11 g; angle_q31 := angle_q31 g; numerator_8q23 := numerator_8q23 g; denominator_8q23 := denominator_8q23 g |}.
Definition set_result_1q30 v g := {| read_string := read_string g; read_status := read_status g; cordic_function := cordic_function g; angle_deg := angle_deg g; ialpha := ialpha g; ibeta := ibeta g; angle_rad := angle_rad g; numerator := numerator g; denominator := denominator g; result_doub := result_doub g; result_q31 := result_q31 g; result_1q30 := v; result_20q11 := result_20q11 g; angle_q31 := angle_q31 g; numerator_8q23 := numerator_8q23 g; denominator_8q23 := denominator_8q23 g |}.
Definition set_result_20q11 v g := {| read_string := read_string g; read_status := read_status g; cordic_function := cordic_function g; angle_deg := angle_deg g; ialpha := ialpha g; ibeta := ibeta g; angle_rad := angle_rad g; numerator := numerator g; denominator := denominator g; result_doub := result_doub g; result_q31 := result_q31 g; result_1q30 := result_1q30 g; result_20q11 := v; angle_q31 := angle_q31 g; numerator_8q23 := numerator_8q23 g; denominator_8q23 := denominator_8q23 g |}.
Definition set_angle_q31 v g := {| read_string := read_string g; read_status := read_status g; cordic_function := cordic_function g; angle_deg := angle_deg g; ialpha := ialpha g; ibeta := ibeta g; angle_rad := angle_rad g; numerator := numerator g; denominator := denominator g; result_doub := result_doub g; result_q31 := result_q31 g; result_1q30 := result_1q30 g; result_20q11 := result_20q11 g; angle_q31 := v; numerator_8q23 := numerator_8q23 g; denominator_8q23 := denominator_8q23 g |}.
Definition set_numerator_8q23 v g := {| read_string := read_string g; read_status := read_status g; cordic_function := cordic_function g; angle_deg := angle_deg g; ialpha := ialpha g; ibeta := ibeta g; angle_rad := angle_rad g; numerator := numerator g; denominator := denominator g; result_doub := result_doub g; result_q31 := result_q31 g; result_1q30 := result_1q30 g; result_20q11 := result_20q11 g; angle_q31 := angle_q31 g; numerator_8q23 := v; denominator_8q23 := denominator_8q23 g |}.
Definition set_denominator_8q23 v g := {| read_string := read_string g; read_status := read_status g; cordic_function := cordic_function g; angle_deg := angle_deg g; ialpha := ialpha g; ibeta := ibeta g; angle_rad := angle_rad g; numerator := numerator g; denominator := denominator g; result_doub := result_doub g; result_q31 := result_q31 g; result_1q30 := result_1q30 g; result_20q11 := result_20q11 g; angle_q31 := angle_q31 g; numerator_8q23 := numerator_8q23 g; denominator_8q23 := v |}.

(** The initial values of the globals: [read_string] is 128 zero bytes. *)
Fixpoint zeros (n : nat) : string :=
  match n with O => EmptyString | S k => String NUL (zeros k) end.

Definition initial_globals : globals := {|
  read_string := zeros 128;
  read_status := 0;
  cordic_function := Ifx_CORDIC_PARK_TRANS;
  angle_deg := S754_zero false;
  ialpha := S754_zero false;
  ibeta := S754_zero false;
  angle_rad := S754_zero false;
  numerator := S754_zero false;
  denominator := S754_zero false;
  result_doub := S754_zero false;
  result_q31 := 0;
  result_1q30 := 0;
  result_20q11 := 0;
  angle_q31 := 0;
  numerator_8q23 := 0;
  denominator_8q23 := 0
|}.

(** What the program does to the outside, in order: text written to the
    console (the [double] arguments of a format kept beside the format
    string), a console read with the status [scanf] returned, and a call of
    an accelerator primitive with its fixed-point operands. *)
Inductive event :=
  | EvPrint (text : string)
  | EvPrintf (fmt : string) (args : list float64_t)
  | EvScanf (status : Z)
  | EvCordic (f : cordic_primitive) (operands : list Z).

Record world := {
  w_globals : globals;
  w_stdin : string;
  w_trace : list event
}.

Definition initial_world (input : string) : world :=
  {| w_globals := initial_globals; w_stdin := input; w_trace := [] |}.

(** ** A state monad over [world] *)

Definition M (A : Type) : Type := world -> A * world.

Definition ret {A} (a : A) : M A := fun w => (a, w).

Definition bind {A B} (c : M A) (k : A -> M B) : M B :=
  fun w => let '(a, w') := c w in k a w'.

Declare Scope cprog_scope.
Delimit Scope cprog_scope with cprog.
Notation "x <- c ;; k" := (bind c (fun x => k))
  (at level 61, c at next level, right associativity) : cprog_scope.
Notation "c ;; k" := (bind c (fun _ => k))
  (at level 61, right associativity) : cprog_scope.

(** Reading and assigning globals. *)
Definition get {A} (f : globals -> A) : M A := fun w => (f (w_globals w), w).

Definition put (f : globals -> globals) : M unit :=
  fun w => (tt, {| w_globals := f (w_globals w); w_stdin := w_stdin w;
                   w_trace := w_trace w |}).

(** The world after one more event. *)
Definition print_event (w : world) (e : event) : world :=
  {| w_globals := w_globals w; w_stdin := w_stdin w;
     w_trace := w_trace w ++ [e] |}.

Definition emit (e : event) : M unit := fun w => (tt, print_event w e).

Definition printf (text : string) : M unit := emit (EvPrint text).

Definition printf_f (fmt : string) (args : list float64_t) : M unit :=
  emit (EvPrintf fmt args).

(** [read_status = scanf("%120s", read_string)]. *)
Definition scanf_read_string : M unit :=
  fun w =>
    match scan_token (w_stdin w) with
    | Some (tok, rest) =>
        (tt, {| w_globals := set_read_status 1
                  (set_read_string (store_token tok (read_string (w_globals w)))
                     (w_globals w));
                w_stdin := rest;
                w_trace := w_trace w ++ [EvScanf 1] |})
    | None =>
        (tt, {| w_globals := set_read_status (-1) (w_globals w);
                w_stdin := EmptyString;
                w_trace := w_trace w ++ [EvScanf (-1)] |})
    end.

(** The state a computation ends in. *)
Definition exec {A} (c : M A) (w : world) : world := snd (c w).

(** The events a computation adds to the trace of [w]. *)
Definition new_events {A} (c : M A) (w : world) : list event :=
  skipn (List.length (w_trace w)) (w_trace (exec c w)).

(** ** A test double for the external collaborators *)

Fixpoint skip_digits (s : string) : string :=
  match s with
  | String c r => if is_digit c then skip_digits r else s
  | EmptyString => EmptyString
  end.

Fixpoint count_digits (s : string) : Z :=
  match s with
  | String c r => if is_digit c then 1 + count_digits r else 0
  | EmptyString => 0
  end.

Definition to_lower (c : ascii) : ascii :=
  let n := nat_of_ascii c in
  if (Nat.leb 65 n && Nat.leb n 90)%bool then ascii_of_nat (n + 32) else c.

(** [starts_with p s]: [s] begins with the lower-case word [p], in any
    case. *)
Fixpoint starts_with (p s : string) : bool :=
  match p, s with
  | EmptyString, _ => true
  | String a p', String b s' =>
      (Ascii.eqb a (to_lower b) && starts_with p' s')%bool
  | _, _ => false
  end.

(** The exact quotient [n / 10^k] rounded once to binary64. *)
Definition decimal_to_f64 (n k : Z) : float64_t :=
  match n with
  | Zpos p =>
      if k =? 0 then binary_normalize B64.prec B64.emax n 0 false
      else SFdiv B64.prec B64.emax (S754_finite false p 0)
                 (S754_finite false (Z.to_pos (10 ^ k)) 0)
  | _ => S754_zero false
  end.

(** [atof] on the numerals without an exponent part: optional white space
    and sign, then [nan], [inf] or decimal digits with an optional
    fraction; 0 when no number starts the string. *)
Definition atof_decimal (s : string) : float64_t :=
  let s0 := skip_space s in
  let '(neg, body) :=
    match s0 with
    | String "-" r => (true, r)
    | String "+" r => (false, r)
    | _ => (false, s0)
    end in
  let v :=
    if starts_with "nan" body then S754_nan
    else if starts_with "inf" body then S754_infinity false
    else
      let ip := digits_value 0 body in
      match skip_digits body with
      | String "." f => decimal_to_f64 (digits_value ip f) (count_digits f)
      | _ => decimal_to_f64 ip 0
      end in
  if neg then SFopp v else v.

(** Deterministic stand-ins for the math library, the accelerator and the
    DSP library, so that the program can be run on a concrete console
    input; [sqrt] is the correctly rounded square root, and the Park
    primitive scales its operands by the circular gain whatever the
    angle. *)
Definition stub_externals : Externals := {|
  atof := atof_decimal;
  sin := fun x => x;
  cos := fun _ => B64.of_Z 1;
  tan := fun x => x;
  atan2 := fun y x => B64.div y x;
  sinh := fun x => x;
  cosh := fun _ => B64.of_Z 1;
  tanh := fun x => x;
  atanh := fun x => x;
  sqrt := SFsqrt B64.prec B64.emax;
  Cy_CORDIC_ParkTransform :=
    fun _ a b => (Z.shiftr (a * 13814027) 31, Z.shiftr (b * 13814027) 31);
  Cy_CORDIC_Sin := fun q => q;
  Cy_CORDIC_Cos := fun _ => INT32_MAX;
  Cy_CORDIC_Tan := fun q => q;
  Cy_CORDIC_ArcTan := fun _ y => y;
  Cy_CORDIC_Sinh := fun q => q;
  Cy_CORDIC_Cosh := fun _ => Q30_MULTIPLIER;
  Cy_CORDIC_Tanh := fun q => q;
  Cy_CORDIC_ArcTanh := fun _ y => y;
  Cy_CORDIC_Sqrt := fun q => q;
  arm_park_q31 := fun a b _ _ => (a, b);
  selector_repr := EnumUChar;
  undefined_cast := saturating_cast
|}.

(** The same collaborators on a platform with another conversion of the
    floats that [int32_t] cannot hold. *)
Definition with_cast (u : float32_t -> Z) (E : Externals) : Externals := {|
  atof := atof E;
  sin := sin E;
  cos := cos E;
  tan := tan E;
  atan2 := atan2 E;
  sinh := sinh E;
  cosh := cosh E;
  tanh := tanh E;
  atanh := atanh E;
  sqrt := sqrt E;
  Cy_CORDIC_ParkTransform := Cy_CORDIC_ParkTransform E;
  Cy_CORDIC_Sin := Cy_CORDIC_Sin E;
  Cy_CORDIC_Cos := Cy_CORDIC_Cos E;
  Cy_CORDIC_Tan := Cy_CORDIC_Tan E;
  Cy_CORDIC_ArcTan := Cy_CORDIC_ArcTan E;
  Cy_CORDIC_Sinh := Cy_CORDIC_Sinh E;
  Cy_CORDIC_Cosh := Cy_CORDIC_Cosh E;
  Cy_CORDIC_Tanh := Cy_CORDIC_Tanh E;
  Cy_CORDIC_ArcTanh := Cy_CORDIC_ArcTanh E;
  Cy_CORDIC_Sqrt := Cy_CORDIC_Sqrt E;
  arm_park_q31 := arm_park_q31 E;
  selector_repr := selector_repr E;
  undefined_cast := u
|}.

(** ** Console texts *)

Section Texts.
Local Open Scope string_scope.

Definition msg_clear_screen : string :=
  String ESC "[2J" ++ String ESC "[;H".

Definition line (s : string) : string := s ++ CRLF.

Definition menu_lines : list string :=
  [ line "********************* PDL: CORDIC ***************** ";
    line "Please select the required operation from the list. ";
    line "0 - park transform ";
    line "1 - sine ";
    line "2 - cosine ";
    line "3 - tangent ";
    line "4 - arc tangent ";
    line "5 - hyperbolic sine ";
    line "6 - hyperbolic cosine ";
    line "7 - hyperbolic tangent ";
    line "8 - hyperbolic arc tangent ";
    line "9 - square root ";
    line ">> " ].

Definition msg_wrong_option : string :=
  "Wrong option selected. Please try again... " ++ CRLF.
Definition msg_end_of_round : string := CRLF ++ CRLF.
Definition msg_not_in_range : string :=
  CRLF ++ "Entered number is not in range. " ++ CRLF.
Definition msg_number_is_zero : string :=
  CRLF ++ "Entered number is 0. " ++ CRLF.

Definition msg_park_selected : string :=
  CRLF ++ "Selected option - park transform.".
Definition msg_park_angle : string :=
  CRLF ++ "Enter angle in degree (between -90 and 90): " ++ CRLF.
Definition msg_park_alpha : string :=
  CRLF ++ "Enter i alpha (between -1 and 1): " ++ CRLF.
Definition msg_park_beta : string :=
  CRLF ++ "Enter i beta (between -1 and 1): " ++ CRLF.
Definition fmt_park_cordic : string :=
  CRLF ++ "Park transform using CORDIC. Id: %f. Iq: %f.".
Definition fmt_park_math : string :=
  CRLF ++ "Park transform using math library. Id: %f Iq: %f." ++ CRLF.

Definition msg_sine_selected : string := CRLF ++ "Selected option - sine.".
Definition msg_sin_cos_angle : string :=
  CRLF ++ "Enter the angle in degree(between -90 and 90): " ++ CRLF.
Definition fmt_sine_cordic : string :=
  CRLF ++ "Sine of the angle using CORDIC: %f.".
Definition fmt_sine_math : string :=
  CRLF ++ "Sine of the angle using math library: %f." ++ CRLF.

Definition msg_cosine_selected : string :=
  CRLF ++ "Selected option - cosine.".
Definition fmt_cosine_cordic : string :=
  CRLF ++ "Cosine of the angle using CORDIC: %f.".
Definition fmt_cosine_math : string :=
  CRLF ++ "Cosine of the angle using math library: %f." ++ CRLF.

Definition msg_tangent_selected : string :=
  CRLF ++ "Selected option - tangent.".
Definition msg_tangent_angle : string :=
  CRLF ++ "Enter the angle in degree (between -89 and 89): " ++ CRLF.
Definition fmt_tangent_cordic : string :=
  CRLF ++ "Tangent of the angle using CORDIC: %f.".
Definition fmt_tangent_math : string :=
  CRLF ++ "Tangent of the angle using math library: %f." ++ CRLF.

Definition msg_arc_tangent_selected : string :=
  CRLF ++ "Selected option - arc tangent.".
Definition msg_arc_tangent_value : string :=
  CRLF ++ "Enter the value(between -57 and 57): " ++ CRLF.
Definition fmt_arc_tangent_cordic : string :=
  CRLF ++ "ArcTan in degree using CORDIC: %f.".
Definition fmt_arc_tangent_math : string :=
  CRLF ++ "ArcTan in degree using math library: %f." ++ CRLF.

Definition msg_hyp_angle : string :=
  CRLF ++ "Enter the angle in degree (between -60 and 60): " ++ CRLF.
Definition msg_hyp_sine_selected : string :=
  CRLF ++ "Selected option - hyperbolic sine.".
Definition fmt_hyp_sine_cordic : string :=
  CRLF ++ "Hyperbolic Sine using CORDIC: %f.".
Definition fmt_hyp_sine_math : string :=
  CRLF ++ "Hyperbolic Sine using math library: %f." ++ CRLF.
Definition msg_hyp_cosine_selected : string :=
  CRLF ++ "Selected option - hyperbolic cosine.".
Definition fmt_hyp_cosine_cordic : string :=
  CRLF ++ "Hyperbolic Cosine using CORDIC: %f.".
Definition fmt_hyp_cosine_math : string :=
  CRLF ++ "Hyperbolic Cosine using math library: %f." ++ CRLF.
Definition msg_hyp_tangent_selected : string :=
  CRLF ++ "Selected option - hyperbolic tangent.".
Definition fmt_hyp_tangent_cordic : string :=
  CRLF ++ "Hyperbolic Tangent using CORDIC: %f.".
Definition fmt_hyp_tangent_math : string :=
  CRLF ++ "Hyperbolic Tangent using math library: %f." ++ CRLF.

Definition msg_hyp_arc_tangent_selected : string :=
  CRLF ++ "Selected option - hyperbolic arc tangent.".
Definition msg_hyp_arc_tangent_value : string :=
  CRLF ++ "Enter the value(between -0.8 and 0.8): " ++ CRLF.
Definition fmt_hyp_arc_tangent_cordic : string :=
  CRLF ++ "Hyperbolic ArcTan in degree using CORDIC: %f.".
Definition fmt_hyp_arc_tangent_math : string :=
  CRLF ++ "Hyperbolic ArcTan in degree using math library: %f." ++ CRLF.

Definition msg_square_root_selected : string :=
  CRLF ++ "Selected option - square root.".
Definition msg_square_root_value : string :=
  CRLF ++ "Enter the value above 0 and below 1: " ++ CRLF.
Definition fmt_square_root_cordic : string :=
  CRLF ++ "Square root using CORDIC: %f.".
Definition fmt_square_root_math : string :=
  CRLF ++ "Square root using math library: %f. " ++ CRLF.
End Texts.

(** ** The functions of [cordic_functions.c] *)

Local Open Scope cprog_scope.

(** [check_range]: the status, and the diagnostic when the value is outside
    the limits. *)
Definition check_range (low_limit high_limit value : float32_t)
  : M cy_en_cordic_status_t :=
  if (B32.ltb value low_limit || B32.ltb high_limit value)%bool then
    printf msg_not_in_range ;;
    ret CY_CORDIC_BAD_PARAM
  else
    ret CY_CORDIC_SUCCESS.

Fixpoint print_lines (l : list string) : M unit :=
  match l with
  | [] => ret tt
  | s :: r => printf s ;; print_lines r
  end.

Section Program.
Variable E : Externals.

(** A call of an accelerator primitive: the call is recorded and the
    primitive's result returned. *)
Definition cordic {A} (f : cordic_primitive) (operands : list Z) (r : A)
  : M A :=
  emit (EvCordic f operands) ;; ret r.

Definition park_transform : M unit :=
  printf msg_park_selected ;;
  printf msg_park_angle ;;
  scanf_read_string ;;
  st <- get read_status ;;
  if 0 <? st then
    s <- get read_string ;;
    put (set_angle_deg (f64_to_f32 (atof E (c_str s)))) ;;
    a <- get angle_deg ;;
    r <- check_range IN_PARK_ANGLE_MIN IN_PARK_ANGLE_MAX a ;;
    if status_eqb CY_CORDIC_SUCCESS r then
      printf msg_park_alpha ;;
      scanf_read_string ;;
      st <- get read_status ;;
      if 0 <? st then
        s <- get read_string ;;
        put (set_ialpha (f64_to_f32 (atof E (c_str s)))) ;;
        al <- get ialpha ;;
        r <- check_range (B32.of_Z (-1)) (B32.of_Z 1) al ;;
        if status_eqb CY_CORDIC_SUCCESS r then
          printf msg_park_beta ;;
          scanf_read_string ;;
          st <- get read_status ;;
          if 0 <? st then
            s <- get read_string ;;
            put (set_ibeta (f64_to_f32 (atof E (c_str s)))) ;;
            be <- get ibeta ;;
            r <- check_range (B32.of_Z (-1)) (B32.of_Z 1) be ;;
            if status_eqb CY_CORDIC_SUCCESS r then
              a <- get angle_deg ;;
              put (set_angle_rad (f64_to_f32 (FLOAT_DEG_TO_RAD a))) ;;
              put (set_angle_q31
                     (FLOAT_DEG_TO_RAD_Q31 (undefined_cast E) a)) ;;
              al <- get ialpha ;;
              be <- get ibeta ;;
              let i_alpha_q31 := FLOAT_TO_Q31 (undefined_cast E) al in
              let i_beta_q31 := FLOAT_TO_Q31 (undefined_cast E) be in
              aq <- get angle_q31 ;;
              park_result <- cordic HwParkTransform
                [aq; i_alpha_q31; i_beta_q31]
                (Cy_CORDIC_ParkTransform E aq i_alpha_q31 i_beta_q31) ;;
              let result_p_id := Q23_TO_FLOAT (fst park_result) in
              let result_p_iq := Q23_TO_FLOAT (snd park_result) in
              let result_p_id := f64_to_f32
                (B64.mul (f32_to_f64 result_p_id)
                   (B64.div (B64.of_Z 1) CORDIC_CIRCULAR_GAIN)) in
              let result_p_iq := f64_to_f32
                (B64.mul (f32_to_f64 result_p_iq)
                   (B64.div (B64.of_Z 1) CORDIC_CIRCULAR_GAIN)) in
              printf_f fmt_park_cordic
                [f32_to_f64 result_p_id; f32_to_f64 result_p_iq] ;;
              ar <- get angle_rad ;;
              let sin_of_angle := f64_to_f32 (sin E (f32_to_f64 ar)) in
              let cos_of_angle := f64_to_f32 (cos E (f32_to_f64 ar)) in
              let sin_q31 := FLOAT_TO_Q31 (undefined_cast E) sin_of_angle in
              let cos_q31 := FLOAT_TO_Q31 (undefined_cast E) cos_of_angle in
              let p := arm_park_q31 E i_alpha_q31 i_beta_q31 sin_q31 cos_q31 in
              let result_p_id := Q31_TO_FLOAT (fst p) in
              let result_p_iq := Q31_TO_FLOAT (snd p) in
              printf_f fmt_park_math
                [f32_to_f64 result_p_id; f32_to_f64 result_p_iq]
            else ret tt
          else ret tt
        else ret tt
      else ret tt
    else ret tt
  else ret tt.

Definition sine : M unit :=
  printf msg_sine_selected ;;
  printf msg_sin_cos_angle ;;
  scanf_read_string ;;
  st <- get read_status ;;
  if 0 <? st then
    s <- get read_string ;;
    put (set_angle_deg (f64_to_f32 (atof E (c_str s)))) ;;
    a <- get angle_deg ;;
    r <- check_range IN_SIN_COS_MIN IN_SIN_COS_MAX a ;;
    if status_eqb CY_CORDIC_SUCCESS r then
      a <- get angle_deg ;;
      put (set_angle_rad (f64_to_f32 (FLOAT_DEG_TO_RAD a))) ;;
      put (set_angle_q31 (FLOAT_DEG_TO_RAD_Q31 (undefined_cast E) a)) ;;
      aq <- get angle_q31 ;;
      q <- cordic HwSin [aq] (Cy_CORDIC_Sin E aq) ;;
      put (set_result_q31 q) ;;
      put (set_result_doub (f32_to_f64 (Q31_TO_FLOAT q))) ;;
      d <- get result_doub ;;
      printf_f fmt_sine_cordic [d] ;;
      ar <- get angle_rad ;;
      put (set_result_doub (sin E (f32_to_f64 ar))) ;;
      d <- get result_doub ;;
      printf_f fmt_sine_math [d]
    else ret tt
  else ret tt.

Definition cosine : M unit :=
  printf msg_cosine_selected ;;
  printf msg_sin_cos_angle ;;
  scanf_read_string ;;
  st <- get read_status ;;
  if 0 <? st then
    s <- get read_string ;;
    put (set_angle_deg (f64_to_f32 (atof E (c_str s)))) ;;
    a <- get angle_deg ;;
    r <- check_range IN_SIN_COS_MIN IN_SIN_COS_MAX a ;;
    if status_eqb CY_CORDIC_SUCCESS r then
      a <- get angle_deg ;;
      put (set_angle_rad (f64_to_f32 (FLOAT_DEG_TO_RAD a))) ;;
      put (set_angle_q31 (FLOAT_DEG_TO_RAD_Q31 (undefined_cast E) a)) ;;
      aq <- get angle_q31 ;;
      q <- cordic HwCos [aq] (Cy_CORDIC_Cos E aq) ;;
      put (set_result_q31 q) ;;
      put (set_result_doub (f32_to_f64 (Q31_TO_FLOAT q))) ;;
      d <- get result_doub ;;
      printf_f fmt_cosine_cordic [d] ;;
      ar <- get angle_rad ;;
      put (set_result_doub (cos E (f32_to_f64 ar))) ;;
      d <- get result_doub ;;
      printf_f fmt_cosine_math [d]
    else ret tt
  else ret tt.

Definition tangent : M unit :=
  printf msg_tangent_selected ;;
  printf msg_tangent_angle ;;
  scanf_read_string ;;
  st <- get read_status ;;
  if 0 <? st then
    s <- get read_string ;;
    put (set_angle_deg (f64_to_f32 (atof E (c_str s)))) ;;
    a <- get angle_deg ;;
    r <- check_range IN_TAN_MIN IN_TAN_MAX a ;;
    if status_eqb CY_CORDIC_SUCCESS r then
      a <- get angle_deg ;;
      put (set_angle_rad (f64_to_f32 (FLOAT_DEG_TO_RAD a))) ;;
      put (set_angle_q31 (FLOAT_DEG_TO_RAD_Q31 (undefined_cast E) a)) ;;
      aq <- get angle_q31 ;;
      q <- cordic HwTan [aq] (Cy_CORDIC_Tan E aq) ;;
      put (set_result_20q11 q) ;;
      put (set_result_doub (f32_to_f64 (Q20_11_TO_FLOAT q))) ;;
      d <- get result_doub ;;
      printf_f fmt_tangent_cordic [d] ;;
      ar <- get angle_rad ;;
      put (set_result_doub (tan E (f32_to_f64 ar))) ;;
      d <- get result_doub ;;
      printf_f fmt_tangent_math [d]
    else ret tt
  else ret tt.

Definition arc_tangent : M unit :=
  printf msg_arc_tangent_selected ;;
  printf msg_arc_tangent_value ;;
  scanf_read_string ;;
  st <- get read_status ;;
  if 0 <? st then
    s <- get read_string ;;
    put (set_numerator (f64_to_f32 (atof E (c_str s)))) ;;
    n <- get numerator ;;
    r <- check_range IN_ATAN_MIN IN_ATAN_MAX n ;;
    if status_eqb CY_CORDIC_SUCCESS r then
      n <- get numerator ;;
      put (set_numerator
             (f64_to_f32 (B64.mul (f32_to_f64 n) ATAN_TANH_IN_SCALING))) ;;
      put (set_denominator (f64_to_f32 ATAN_TANH_IN_SCALING)) ;;
      n <- get numerator ;;
      put (set_numerator_8q23 (FLOAT_TO_Q8_23 (undefined_cast E) n)) ;;
      d <- get denominator ;;
      put (set_denominator_8q23 (FLOAT_TO_Q8_23 (undefined_cast E) d)) ;;
      dq <- get denominator_8q23 ;;
      nq <- get numerator_8q23 ;;
      q <- cordic HwArcTan [dq; nq] (Cy_CORDIC_ArcTan E dq nq) ;;
      put (set_result_q31 q) ;;
      put (set_result_doub (Q31_TO_DEG_FLOAT q)) ;;
      rd <- get result_doub ;;
      put (set_result_doub (FLOAT_RAD_TO_DEG rd)) ;;
      rd <- get result_doub ;;
      printf_f fmt_arc_tangent_cordic [rd] ;;
      n <- get numerator ;;
      d <- get denominator ;;
      put (set_result_doub (atan2 E (f32_to_f64 n) (f32_to_f64 d))) ;;
      rd <- get result_doub ;;
      put (set_result_doub (FLOAT_RAD_TO_DEG rd)) ;;
      rd <- get result_doub ;;
      printf_f fmt_arc_tangent_math [rd]
    else ret tt
  else ret tt.

Definition hyperbolic_sine : M unit :=
  printf msg_hyp_sine_selected ;;
  printf msg_hyp_angle ;;
  scanf_read_string ;;
  st <- get read_status ;;
  if 0 <? st then
    s <- get read_string ;;
    put (set_angle_deg (f64_to_f32 (atof E (c_str s)))) ;;
    a <- get angle_deg ;;
    r <- check_range IN_HYP_SIN_COS_TAN_MIN IN_HYP_SIN_COS_TAN_MAX a ;;
    if status_eqb CY_CORDIC_SUCCESS r then
      a <- get angle_deg ;;
      put (set_angle_rad (f64_to_f32 (FLOAT_DEG_TO_RAD a))) ;;
      put (set_angle_q31 (FLOAT_DEG_TO_RAD_Q31 (undefined_cast E) a)) ;;
      aq <- get angle_q31 ;;
      q <- cordic HwSinh [aq] (Cy_CORDIC_Sinh E aq) ;;
      put (set_result_1q30 q) ;;
      put (set_result_doub (f32_to_f64 (Q1_30_TO_FLOAT q))) ;;
      d <- get result_doub ;;
      printf_f fmt_hyp_sine_cordic [d] ;;
      ar <- get angle_rad ;;
      put (set_result_doub (sinh E (f32_to_f64 ar))) ;;
      d <- get result_doub ;;
      printf_f fmt_hyp_sine_math [d]
    else ret tt
  else ret tt.

Definition hyperbolic_cosine : M unit :=
  printf msg_hyp_cosine_selected ;;
  printf msg_hyp_angle ;;
  scanf_read_string ;;
  st <- get read_status ;;
  if 0 <? st then
    s <- get read_string ;;
    put (set_angle_deg (f64_to_f32 (atof E (c_str s)))) ;;
    a <- get angle_deg ;;
    r <- check_range IN_HYP_SIN_COS_TAN_MIN IN_HYP_SIN_COS_TAN_MAX a ;;
    if status_eqb CY_CORDIC_SUCCESS r then
      a <- get angle_deg ;;
      put (set_angle_rad (f64_to_f32 (FLOAT_DEG_TO_RAD a))) ;;
      put (set_angle_q31 (FLOAT_DEG_TO_RAD_Q31 (undefined_cast E) a)) ;;
      aq <- get angle_q31 ;;
      q <- cordic HwCosh [aq] (Cy_CORDIC_Cosh E aq) ;;
      put (set_result_1q30 q) ;;
      put (set_result_doub (f32_to_f64 (Q1_30_TO_FLOAT q))) ;;
      d <- get result_doub ;;
      printf_f fmt_hyp_cosine_cordic [d] ;;
      ar <- get angle_rad ;;
      put (set_result_doub (cosh E (f32_to_f64 ar))) ;;
      d <- get result_doub ;;
      printf_f fmt_hyp_cosine_math [d]
    else ret tt
  else ret tt.

Definition hyperbolic_tangent : M unit :=
  printf msg_hyp_tangent_selected ;;
  printf msg_hyp_angle ;;
  scanf_read_string ;;
  st <- get read_status ;;
  if 0 <? st then
    s <- get read_string ;;
    put (set_angle_deg (f64_to_f32 (atof E (c_str s)))) ;;
    a <- get angle_deg ;;
    r <- check_range IN_HYP_SIN_COS_TAN_MIN IN_HYP_SIN_COS_TAN_MAX a ;;
    if status_eqb CY_CORDIC_SUCCESS r then
      a <- get angle_deg ;;
      put (set_angle_rad (f64_to_f32 (FLOAT_DEG_TO_RAD a))) ;;
      put (set_angle_q31 (FLOAT_DEG_TO_RAD_Q31 (undefined_cast E) a)) ;;
      aq <- get angle_q31 ;;
      q <- cordic HwTanh [aq] (Cy_CORDIC_Tanh E aq) ;;
      put (set_result_20q11 q) ;;
      put (set_result_doub (f32_to_f64 (Q20_11_TO_FLOAT q))) ;;
      d <- get result_doub ;;
      printf_f fmt_hyp_tangent_cordic [d] ;;
      ar <- get angle_rad ;;
      put (set_result_doub (tanh E (f32_to_f64 ar))) ;;
      d <- get result_doub ;;
      printf_f fmt_hyp_tangent_math [d]
    else ret tt
  else ret tt.

Definition hyperbolic_arc_tangent : M unit :=
  printf msg_hyp_arc_tangent_selected ;;
  printf msg_hyp_arc_tangent_value ;;
  scanf_read_string ;;
  st <- get read_status ;;
  if 0 <? st then
    s <- get read_string ;;
    let read_value := f64_to_f32 (atof E (c_str s)) in
    r <- check_range IN_ATANH_MIN IN_ATANH_MAX read_value ;;
    if status_eqb CY_CORDIC_SUCCESS r then
      put (set_numerator
             (f64_to_f32
                (B64.mul (f32_to_f64 read_value) ATAN_TANH_IN_SCALING))) ;;
      put (set_denominator (f64_to_f32 ATAN_TANH_IN_SCALING)) ;;
      n <- get numerator ;;
      put (set_numerator_8q23 (FLOAT_TO_Q8_23 (undefined_cast E) n)) ;;
      d <- get denominator ;;
      put (set_denominator_8q23 (FLOAT_TO_Q8_23 (undefined_cast E) d)) ;;
      dq <- get denominator_8q23 ;;
      nq <- get numerator_8q23 ;;
      q <- cordic HwArcTanh [dq; nq] (Cy_CORDIC_ArcTanh E dq nq) ;;
      put (set_result_q31 q) ;;
      put (set_result_doub (Q31_TO_DEG_FLOAT q)) ;;
      rd <- get result_doub ;;
      put (set_result_doub (FLOAT_RAD_TO_DEG rd)) ;;
      rd <- get result_doub ;;
      printf_f fmt_hyp_arc_tangent_cordic [rd] ;;
      put (set_result_doub (atanh E (f32_to_f64 read_value))) ;;
      rd <- get result_doub ;;
      put (set_result_doub (FLOAT_RAD_TO_DEG rd)) ;;
      rd <- get result_doub ;;
      printf_f fmt_hyp_arc_tangent_math [rd]
    else ret tt
  else ret tt.

(** In [square_root] the operand and the accelerator's result are locals;
    the result is held in a [uint32_t]. *)
Definition square_root : M unit :=
  printf msg_square_root_selected ;;
  printf msg_square_root_value ;;
  scanf_read_string ;;
  st <- get read_status ;;
  if 0 <? st then
    s <- get read_string ;;
    let number := f64_to_f32 (atof E (c_str s)) in
    r <- check_range (B32.of_Z 0) (B32.of_Z 1) number ;;
    (if (status_eqb CY_CORDIC_SUCCESS r
         && negb (B32.eqb (B32.of_Z 0) number))%bool then
       let number_q31 := FLOAT_TO_Q31 (undefined_cast E) number in
       q <- cordic HwSqrt [number_q31] (Cy_CORDIC_Sqrt E number_q31) ;;
       let square_root_q31 := s32_to_u32 q in
       put (set_result_doub (f32_to_f64 (Q31_TO_FLOAT square_root_q31))) ;;
       d <- get result_doub ;;
       printf_f fmt_square_root_cordic [d] ;;
       put (set_result_doub (sqrt E (f32_to_f64 number))) ;;
       d <- get result_doub ;;
       printf_f fmt_square_root_math [d]
     else ret tt) ;;
    if B32.eqb (B32.of_Z 0) number then printf msg_number_is_zero
    else ret tt
  else ret tt.

(** The [switch] of [run_cordic_functions]. *)
Definition dispatch (f : Z) : M unit :=
  if f =? Ifx_CORDIC_PARK_TRANS then park_transform
  else if f =? Ifx_CORDIC_SINE then sine
  else if f =? Ifx_CORDIC_COSINE then cosine
  else if f =? Ifx_CORDIC_TAN then tangent
  else if f =? Ifx_CORDIC_ARC_TAN then arc_tangent
  else if f =? Ifx_CORDIC_HYP_SINE then hyperbolic_sine
  else if f =? Ifx_CORDIC_HYP_COSINE then hyperbolic_cosine
  else if f =? Ifx_CORDIC_HYP_TAN then hyperbolic_tangent
  else if f =? Ifx_CORDIC_HYP_ARC_TAN then hyperbolic_arc_tangent
  else if f =? Ifx_CORDIC_SQRT then square_root
  else printf msg_wrong_option.

(** One round of the [for (;;)] loop of [run_cordic_functions]. *)
Definition menu_round : M unit :=
  print_lines menu_lines ;;
  scanf_read_string ;;
  st <- get read_status ;;
  (if 0 <? st then
     s <- get read_string ;;
     put (set_cordic_function (enum_cast (selector_repr E) (atoi (c_str s)))) ;;
     f <- get cordic_function ;;
     dispatch f
   else ret tt) ;;
  printf msg_end_of_round.

Fixpoint rounds (n : nat) : M unit :=
  match n with
  | O => ret tt
  | S k => menu_round ;; rounds k
  end.

(** [run_cordic_functions] never returns; [run_cordic_functions n] is the
    program up to the end of its [n]-th round. *)
Definition run_cordic_functions (n : nat) : M unit :=
  printf msg_clear_screen ;;
  rounds n.

(** The ten handlers by selector. *)
Definition handler (f : cordic_primitive) : M unit :=
  match f with
  | HwParkTransform => park_transform
  | HwSin => sine
  | HwCos => cosine
  | HwTan => tangent
  | HwArcTan => arc_tangent
  | HwSinh => hyperbolic_sine
  | HwCosh => hyperbolic_cosine
  | HwTanh => hyperbolic_tangent
  | HwArcTanh => hyperbolic_arc_tangent
  | HwSqrt => square_root
  end.
End Program.

(** ** Vocabulary of the properties *)

(** The number of operands a handler asks for. *)
Definition operand_count (f : cordic_primitive) : nat :=
  match f with HwParkTransform => 3%nat | _ => 1%nat end.

(** The next [n] tokens of the console input are there and [atof] turns
    each of them into a NaN. *)
Fixpoint reads_nan (E : Externals) (n : nat) (input : string) : bool :=
  match n with
  | O => true
  | S k =>
      match scan_token input with
      | Some (tok, rest) =>
          (is_nan (atof E (c_str tok)) && reads_nan E k rest)%bool
      | None => false
      end
  end.

(** An operand that passes a range check: a NaN, or a number within the
    limits. *)
Definition nan_or_in_range (lo hi v : float32_t) : bool :=
  (is_nan v || (B32.leb lo v && B32.leb v hi))%bool.

Definition is_sign (c : ascii) : bool :=
  (Ascii.eqb c "-" || Ascii.eqb c "+")%bool.

(** A token that does not start with a number: after an optional sign its
    first character is not a digit. *)
Definition non_numeric (tok : string) : bool :=
  match tok with
  | String c r =>
      if is_sign c then
        match r with
        | String d _ => negb (is_digit d)
        | EmptyString => true
        end
      else negb (is_digit c)
  | EmptyString => true
  end.

(** The globals a handler writes only once its operands are accepted keep
    their value from [g] to [g']; [read_string], [read_status] and the
    operand variables [angle_deg], [ialpha], [ibeta] and [numerator] are
    left out. *)
Definition results_unchanged (g g' : globals) : Prop :=
  cordic_function g' = cordic_function g
  /\ angle_rad g' = angle_rad g
  /\ denominator g' = denominator g
  /\ result_doub g' = result_doub g
  /\ result_q31 g' = result_q31 g
  /\ result_1q30 g' = result_1q30 g
  /\ result_20q11 g' = result_20q11 g
  /\ angle_q31 g' = angle_q31 g
  /\ numerator_8q23 g' = numerator_8q23 g
  /\ denominator_8q23 g' = denominator_8q23 g.

(** A handler stopped early: the events [l] it added hold no accelerator
    call and no printed result, and the result variables kept their
    value. *)
Definition aborted (g g' : globals) (l : list event) : Prop :=
  (forall p operands, ~ In (EvCordic p operands) l)
  /\ (forall fmt args, ~ In (EvPrintf fmt args) l)
  /\ results_unchanged g g'.

(** No console read and no range check failed among the events [l]. *)
Definition no_failure (l : list event) : Prop :=
  ~ In (EvScanf (-1)) l /\ ~ In (EvPrint msg_not_in_range) l.

(** The state of the program in a round of the menu once the token [tok]
    is read and the selector [f] assigned, before the [switch]. *)
Definition selected (w : world) (tok rest : string) (f : Z) : world :=
  {| w_globals :=
       set_cordic_function f
         (set_read_status 1
            (set_read_string (store_token tok (read_string (w_globals w)))
               (w_globals w)));
     w_stdin := rest;
     w_trace := w_trace w ++ map EvPrint menu_lines ++ [EvScanf 1] |}.



(** [x] is a number within [eps] of [c]. *)
Definition close_to (x : float64_t) (c eps : Q) : bool :=
  (is_finite x && Qle_bool (Qabs (F2Q x - c)) eps)%bool.

(** The [n] integers from [lo] on. *)
Definition Zrange (lo : Z) (n : nat) : list Z :=
  map (fun i => lo + Z.of_nat i) (seq 0 n).


(** ** Vocabulary of the trace properties *)

Definition is_cordic_call (e : event) : bool :=
  match e with EvCordic _ _ => true | _ => false end.

Definition is_result_print (e : event) : bool :=
  match e with EvPrintf _ _ => true | _ => false end.

Definition is_console_read (e : event) : bool :=
  match e with EvScanf _ => true | _ => false end.

(** The number of events of a kind in a trace. *)
Definition count_events (p : event -> bool) (l : list event) : nat :=
  List.length (filter p l).

(** [l] without its last three events. *)
Definition before_last3 (l : list event) : list event :=
  removelast (removelast (removelast l)).

(** A read buffer of 128 bytes that holds a C string of at most 120
    characters: the terminator is inside the buffer. *)
Definition terminated_buffer (buf : string) : Prop :=
  String.length buf = 128%nat /\ (String.length (c_str buf) <= 120)%nat.

(** The event clears the screen. *)
Definition is_clear_screen (e : event) : bool :=
  match e with
  | EvPrint s => String.eqb s msg_clear_screen
  | _ => false
  end.

(** The event prints one of the lines of the menu. *)
Definition is_menu_line (e : event) : bool :=
  match e with
  | EvPrint s => existsb (String.eqb s) menu_lines
  | _ => false
  end.

(** The events of a round of the menu on an exhausted console input. *)
Definition idle_round : list event :=
  map EvPrint menu_lines ++ [EvScanf (-1); EvPrint msg_end_of_round].

(** The selector of each handler in [Ifx_CORDIC_functions]. *)
Definition selector (p : cordic_primitive) : Z :=
  match p with
  | HwParkTransform => Ifx_CORDIC_PARK_TRANS
  | HwSin => Ifx_CORDIC_SINE
  | HwCos => Ifx_CORDIC_COSINE
  | HwTan => Ifx_CORDIC_TAN
  | HwArcTan => Ifx_CORDIC_ARC_TAN
  | HwSinh => Ifx_CORDIC_HYP_SINE
  | HwCosh => Ifx_CORDIC_HYP_COSINE
  | HwTanh => Ifx_CORDIC_HYP_TAN
  | HwArcTanh => Ifx_CORDIC_HYP_ARC_TAN
  | HwSqrt => Ifx_CORDIC_SQRT
  end.

(** The name of each operation in the console texts. *)
Definition operation_name (p : cordic_primitive) : string :=
  match p with
  | HwParkTransform => "park transform"
  | HwSin => "sine"
  | HwCos => "cosine"
  | HwTan => "tangent"
  | HwArcTan => "arc tangent"
  | HwSinh => "hyperbolic sine"
  | HwCosh => "hyperbolic cosine"
  | HwTanh => "hyperbolic tangent"
  | HwArcTanh => "hyperbolic arc tangent"
  | HwSqrt => "square root"
  end.

(** The name of each result in the texts that print it. *)
Definition result_label (p : cordic_primitive) : string :=
  match p with
  | HwParkTransform => "Park transform"
  | HwSin => "Sine of the angle"
  | HwCos => "Cosine of the angle"
  | HwTan => "Tangent of the angle"
  | HwArcTan => "ArcTan in degree"
  | HwSinh => "Hyperbolic Sine"
  | HwCosh => "Hyperbolic Cosine"
  | HwTanh => "Hyperbolic Tangent"
  | HwArcTanh => "Hyperbolic ArcTan in degree"
  | HwSqrt => "Square root"
  end.

(** The format that prints the result of the accelerator, and the one that
    prints the result of the math library, for each operation. *)
Definition cordic_format (p : cordic_primitive) : string :=
  (CRLF ++ result_label p ++ " using CORDIC"
   ++ match p with
      | HwParkTransform => ". Id: %f. Iq: %f."
      | _ => ": %f."
      end)%string.

Definition math_format (p : cordic_primitive) : string :=
  (CRLF ++ result_label p ++ " using math library"
   ++ match p with
      | HwParkTransform => ". Id: %f Iq: %f."
      | HwSqrt => ": %f. "
      | _ => ": %f."
      end ++ CRLF)%string.

(** The decimal digit [k], for [0 <= k <= 9], as a string. *)
Definition digit_string (k : Z) : string :=
  String (ascii_of_nat (48 + Z.to_nat k)) EmptyString.

(** The line of the menu for an operation, and the first text its handler
    prints. *)
Definition menu_entry (p : cordic_primitive) : string :=
  line (digit_string (selector p) ++ " - " ++ operation_name p ++ " ")%string.

Definition selected_text (p : cordic_primitive) : string :=
  (CRLF ++ "Selected option - " ++ operation_name p ++ ".")%string.


(** The Q31 image of 90 degrees under [FLOAT_DEG_TO_RAD_Q31]:
    [90 * (Q31_MULTIPLIER / 180)] rounded to binary32. *)
Definition DEG_Q31_MAX : Z := 1073741760.

(** The handlers whose first accelerator operand is an angle converted by
    [FLOAT_DEG_TO_RAD_Q31]. *)
Definition takes_angle (p : cordic_primitive) : bool :=
  match p with
  | HwParkTransform | HwSin | HwCos | HwTan | HwSinh | HwCosh | HwTanh => true
  | HwArcTan | HwArcTanh | HwSqrt => false
  end.

(** * [main.c] *)

(** The value of [CY_RSLT_SUCCESS]. *)
Definition CY_RSLT_SUCCESS : Z := 0.

(** The calls of [main] into the board support package, the drivers and the
    core, in the order of the source. *)
Inductive init_call :=
| CallBspInit
| CallCordicEnable
| CallUartInit
| CallUartEnable
| CallHalUartSetup
| CallRetargetIoInit
| CallEnableIrq.

Definition init_sequence : list init_call :=
  [CallBspInit; CallCordicEnable; CallUartInit; CallUartEnable;
   CallHalUartSetup; CallRetargetIoInit; CallEnableIrq].

(** What the platform answers to [main]: the results of the four
    initialisations that return one, as the [cy_rslt_t] (a [uint32_t]) that
    [main] stores in [result], and whether a failed [CY_ASSERT] stops the
    program.  The macro comes from the driver library: it halts the core
    in a build with assertions and expands to nothing with [NDEBUG]. *)
Record Platform := {
  cybsp_init : Z;
  Cy_SCB_UART_Init : Z;
  mtb_hal_uart_setup : Z;
  cy_retarget_io_init : Z;
  assert_halts : bool
}.

(** The state of [main]: the initialisation calls made so far and the
    console. *)
Record boot := { b_calls : list init_call; b_world : world }.

Definition boot_start (w : world) : boot :=
  {| b_calls := []; b_world := w |}.

(** A computation of [main] returns a value, or halts in a failed
    assertion. *)
Definition Boot (A : Type) : Type := boot -> option A * boot.

Definition bret {A} (a : A) : Boot A := fun b => (Some a, b).

Definition bbind {A B} (c : Boot A) (k : A -> Boot B) : Boot B :=
  fun b =>
    match c b with
    | (Some a, b') => k a b'
    | (None, b') => (None, b')
    end.

(** A call of an initialisation function: the call is recorded and the
    function's result returned. *)
Definition init_step {A} (c : init_call) (r : A) : Boot A :=
  fun b => (Some r, {| b_calls := b_calls b ++ [c]; b_world := b_world b |}).

(** [CY_ASSERT(0)]. *)
Definition CY_ASSERT_0 (P : Platform) : Boot unit :=
  fun b => if assert_halts P then (None, b) else (Some tt, b).

(** A part of the program that only uses the console. *)
Definition on_console {A} (c : M A) : Boot A :=
  fun b =>
    let (a, w') := c (b_world b) in
    (Some a, {| b_calls := b_calls b; b_world := w' |}).

Definition handle_error (P : Platform) (status : Z) : Boot unit :=
  if negb (status =? CY_RSLT_SUCCESS) then CY_ASSERT_0 P else bret tt.

(** [main], with [run_cordic_functions] up to the end of its [n]-th
    round. *)
Definition main (P : Platform) (E : Externals) (n : nat) : Boot unit :=
  bbind (init_step CallBspInit (cybsp_init P)) (fun result =>
  bbind (handle_error P result) (fun _ =>
  bbind (init_step CallCordicEnable tt) (fun _ =>
  bbind (init_step CallUartInit (Cy_SCB_UART_Init P)) (fun result =>
  bbind (handle_error P result) (fun _ =>
  bbind (init_step CallUartEnable tt) (fun _ =>
  bbind (init_step CallHalUartSetup (mtb_hal_uart_setup P)) (fun result =>
  bbind (handle_error P result) (fun _ =>
  bbind (init_step CallRetargetIoInit (cy_retarget_io_init P)) (fun result =>
  bbind (handle_error P result) (fun _ =>
  bbind (init_step CallEnableIrq tt) (fun _ =>
  on_console (run_cordic_functions E n)))))))))))).

(** Every initialisation of [main] succeeded. *)
Definition all_succeeded (P : Platform) : Prop :=
  cybsp_init P = CY_RSLT_SUCCESS
  /\ Cy_SCB_UART_Init P = CY_RSLT_SUCCESS
  /\ mtb_hal_uart_setup P = CY_RSLT_SUCCESS
  /\ cy_retarget_io_init P = CY_RSLT_SUCCESS.
(** * Properties *)

(** ** The order of IEEE-754 comparison *)

Lemma SFcompare_antisym (x y : spec_float) (c : comparison) :
  SFcompare x y = Some c -> SFcompare y x = Some (CompOpp c).
Proof.
  destruct x as [sx|sx| |sx mx ex], y as [sy|sy| |sy my ey]; simpl;
    try discriminate;
    try (intros H; injection H as <-);
    try (destruct sx; reflexivity); try (destruct sy; reflexivity);
    try (destruct sx, sy; reflexivity).
  pose proof (Pos.compare_antisym mx my) as A. unfold Pos.compare in A.
  destruct sx, sy; try reflexivity;
    rewrite (Z.compare_antisym ex ey);
    destruct (ex ?= ey); simpl; try reflexivity;
    rewrite A; try rewrite CompOpp_involutive; reflexivity.
Qed.

Lemma SFcompare_nan_l (y : spec_float) : SFcompare S754_nan y = None.
Proof. reflexivity. Qed.

Lemma SFcompare_nan_r (x : spec_float) : SFcompare x S754_nan = None.
Proof. destruct x; reflexivity. Qed.

Lemma SFcompare_ordered (x y : spec_float) :
  is_nan x = false -> is_nan y = false -> exists c, SFcompare x y = Some c.
Proof.
  destruct x, y; simpl; try discriminate; intros _ _; eexists; reflexivity.
Qed.

(** [x <= y] holds exactly when [y < x] fails, for ordered operands. *)
Lemma leb_iff_not_gt (x y : spec_float) :
  is_nan x = false -> is_nan y = false ->
  B32.leb x y = negb (B32.ltb y x).
Proof.
  intros Hx Hy. destruct (SFcompare_ordered x y Hx Hy) as [c Hc].
  unfold B32.leb, B32.ltb, SFleb, SFltb.
  rewrite (SFcompare_antisym _ _ _ Hc), Hc. destruct c; reflexivity.
Qed.

Lemma ltb_nan_l (y : spec_float) : B32.ltb S754_nan y = false.
Proof. reflexivity. Qed.

Lemma ltb_nan_r (x : spec_float) : B32.ltb x S754_nan = false.
Proof. unfold B32.ltb, SFltb. rewrite SFcompare_nan_r. reflexivity. Qed.

Lemma leb_nan_r (x : spec_float) : B32.leb x S754_nan = false.
Proof. unfold B32.leb, SFleb. rewrite SFcompare_nan_r. reflexivity. Qed.

Lemma SFcompare_refl (x : spec_float) :
  is_nan x = false -> SFcompare x x = Some Eq.
Proof.
  destruct x as [s|s| |s m e]; simpl; try discriminate; intros _;
    try (destruct s; reflexivity).
  destruct s; rewrite Z.compare_refl, Pos.compare_cont_refl; reflexivity.
Qed.

Lemma leb_refl (x : spec_float) : is_nan x = false -> B32.leb x x = true.
Proof.
  intros H. unfold B32.leb, SFleb. rewrite (SFcompare_refl x H). reflexivity.
Qed.

(** ** The range validator *)

Lemma check_range_success (lo hi v : float32_t) (w : world) :
  (B32.ltb v lo || B32.ltb hi v)%bool = false ->
  check_range lo hi v w = (CY_CORDIC_SUCCESS, w).
Proof. intros H. unfold check_range. rewrite H. reflexivity. Qed.

Lemma check_range_bad_param (lo hi v : float32_t) (w : world) :
  (B32.ltb v lo || B32.ltb hi v)%bool = true ->
  check_range lo hi v w
  = (CY_CORDIC_BAD_PARAM, print_event w (EvPrint msg_not_in_range)).
Proof. intros H. unfold check_range. rewrite H. reflexivity. Qed.

Lemma check_range_cases (lo hi v : float32_t) (w : world) :
  check_range lo hi v w = (CY_CORDIC_SUCCESS, w)
  \/ check_range lo hi v w
     = (CY_CORDIC_BAD_PARAM, print_event w (EvPrint msg_not_in_range)).
Proof.
  destruct (B32.ltb v lo || B32.ltb hi v)%bool eqn:H.
  - right. apply check_range_bad_param, H.
  - left. apply check_range_success, H.
Qed.


(** ** Symbolic execution of the program *)

Lemma skipn_app_exact {A} (l l' : list A) : skipn (List.length l) (l ++ l') = l'.
Proof. induction l; simpl; auto. Qed.

Lemma new_events_trace {A} (c : M A) (w : world) (l : list event) :
  w_trace (exec c w) = w_trace w ++ l -> new_events c w = l.
Proof. unfold new_events. intros ->. apply skipn_app_exact. Qed.

Lemma c_str_terminated (tok r : string) :
  c_str (tok ++ String NUL r) = c_str tok.
Proof.
  induction tok as [|c t IH]; simpl.
  - reflexivity.
  - destruct (Ascii.eqb c NUL); [reflexivity|]. f_equal. exact IH.
Qed.

Lemma c_str_store_token (tok buf : string) :
  c_str (store_token tok buf) = c_str tok.
Proof. apply c_str_terminated. Qed.

(** Unfolding of the monad and of the accessors of the globals. *)
Ltac run :=
  cbv beta iota zeta delta
    [bind ret get put emit printf printf_f cordic exec new_events
     scanf_read_string print_event print_lines menu_lines fst snd
     w_globals w_stdin w_trace
     read_string read_status cordic_function angle_deg ialpha ibeta
     angle_rad numerator denominator result_doub result_q31 result_1q30
     result_20q11 angle_q31 numerator_8q23 denominator_8q23
     set_read_string set_read_status set_cordic_function set_angle_deg
     set_ialpha set_ibeta set_angle_rad set_numerator set_denominator
     set_result_doub set_result_q31 set_result_1q30 set_result_20q11
     set_angle_q31 set_numerator_8q23 set_denominator_8q23
     status_eqb andb negb].

Ltac destruct_world w :=
  let g := fresh "g" in
  destruct w as [g ? ?]; destruct g; cbn [w_stdin w_trace w_globals] in *.

(** The new events, once the final trace is the old one and a list. *)
Ltac trace_list :=
  repeat rewrite <- app_assoc; cbn [app]; try rewrite skipn_app_exact.

Lemma leb_true_not_gt (x y : spec_float) :
  B32.leb x y = true -> B32.ltb y x = false.
Proof.
  unfold B32.leb, B32.ltb, SFleb, SFltb.
  destruct (SFcompare x y) as [c|] eqn:Hc; [|discriminate].
  rewrite (SFcompare_antisym _ _ _ Hc). destruct c; simpl; congruence.
Qed.

Lemma in_range_not_outside (lo hi v : float32_t) :
  B32.leb lo v = true -> B32.leb v hi = true ->
  (B32.ltb v lo || B32.ltb hi v)%bool = false.
Proof.
  intros A B. rewrite (leb_true_not_gt _ _ A), (leb_true_not_gt _ _ B).
  reflexivity.
Qed.

Lemma check_range_nan (lo hi : float32_t) (w : world) :
  check_range lo hi S754_nan w = (CY_CORDIC_SUCCESS, w).
Proof.
  apply check_range_success. rewrite ltb_nan_l, ltb_nan_r. reflexivity.
Qed.

Lemma is_nan_eq (x : spec_float) : is_nan x = true -> x = S754_nan.
Proof. destruct x; simpl; congruence. Qed.

(** ** C2: the Q31 round trip *)

(** ** Exact operations in binary32 *)

Lemma digits2_pos_size (p : positive) : digits2_pos p = Pos.size p.
Proof. induction p; simpl; congruence. Qed.

Lemma Zdigits2_log2 (m : Z) : 0 < m -> Zdigits2 m = Z.log2 m + 1.
Proof.
  destruct m as [|p|p]; try lia. intros _. simpl.
  rewrite digits2_pos_size. destruct p; simpl; lia.
Qed.

Lemma iter_pos_nat {A} (f : A -> A) (p : positive) (x : A) :
  iter_pos f p x = Nat.iter (Pos.to_nat p) f x.
Proof.
  revert x. induction p as [p IH|p IH|]; intros x; cbn [iter_pos].
  - rewrite !IH, Pos2Nat.inj_xI.
    replace (S (2 * Pos.to_nat p)) with (Pos.to_nat p + S (Pos.to_nat p))%nat
      by lia.
    rewrite Nat.iter_add, Nat.iter_succ_r. reflexivity.
  - rewrite !IH, Pos2Nat.inj_xO.
    replace (2 * Pos.to_nat p)%nat with (Pos.to_nat p + Pos.to_nat p)%nat
      by lia.
    rewrite Nat.iter_add. reflexivity.
  - reflexivity.
Qed.

Lemma shr_1_even (m : Z) :
  0 < m -> shr_1 (exact_record (2 * m)) = exact_record m.
Proof. destruct m; try lia. intros _. reflexivity. Qed.

Lemma iter_shr_1_exact (n : nat) (m : Z) :
  0 < m ->
  Nat.iter n shr_1 (exact_record (m * 2 ^ Z.of_nat n)) = exact_record m.
Proof.
  intros Hm. induction n as [|n IH].
  - simpl. f_equal. lia.
  - rewrite Nat.iter_succ_r.
    replace (m * 2 ^ Z.of_nat (S n)) with (2 * (m * 2 ^ Z.of_nat n)).
    + rewrite shr_1_even by (apply Z.mul_pos_pos; [lia|apply Z.pow_pos_nonneg; lia]).
      exact IH.
    + rewrite Nat2Z.inj_succ, Z.pow_succ_r by lia. ring.
Qed.

Lemma shr_exact (m e k : Z) :
  0 < m -> 0 <= k ->
  shr (exact_record (m * 2 ^ k)) e k = (exact_record m, e + k).
Proof.
  intros Hm Hk. unfold shr. destruct k as [|p|p]; try lia.
  - f_equal; [f_equal|]; lia.
  - rewrite iter_pos_nat.
    rewrite <- (positive_nat_Z p) at 1.
    rewrite iter_shr_1_exact by exact Hm. reflexivity.
Qed.

(** Rounding a mantissa whose low bits are zero up to the exponent of its
    format loses nothing. *)
Lemma binary_round_aux_exact (s : bool) (m e k : Z) :
  0 < m -> 0 <= k ->
  fexp 24 128 (Z.log2 (m * 2 ^ k) + 1 + e) = e + k ->
  e + k <= 104 ->
  binary_round_aux 24 128 s (m * 2 ^ k) e loc_Exact
  = S754_finite s (Z.to_pos m) (e + k).
Proof.
  intros Hm Hk Hf He.
  assert (Hmk : 0 < m * 2 ^ k)
    by (apply Z.mul_pos_pos; [lia|apply Z.pow_pos_nonneg; lia]).
  unfold binary_round_aux, shr_fexp.
  rewrite (Zdigits2_log2 _ Hmk), Hf.
  replace (e + k - e) with k by lia.
  change (shr_record_of_loc (m * 2 ^ k) loc_Exact)
    with (exact_record (m * 2 ^ k)).
  rewrite (shr_exact m e k Hm Hk).
  cbn [shr_m exact_record loc_of_shr_record round_nearest_even].
  rewrite (Zdigits2_log2 _ Hm).
  assert (Hl : Z.log2 (m * 2 ^ k) = k + Z.log2 m)
    by (apply Z.log2_mul_pow2; lia).
  replace (Z.log2 m + 1 + (e + k)) with (Z.log2 (m * 2 ^ k) + 1 + e) by lia.
  rewrite Hf. rewrite Z.sub_diag. cbn [shr shr_record_of_loc shr_m].
  destruct m as [|p|p]; try lia.
  replace (e + k <=? 128 - 24) with true by (symmetry; apply Z.leb_le; lia).
  reflexivity.
Qed.

Lemma of_Z_Q31_MULTIPLIER : B32.of_Z Q31_MULTIPLIER = two31.
Proof. reflexivity. Qed.

Lemma pow2_pos (k : Z) : 0 <= k -> 0 < 2 ^ k.
Proof. intros. apply Z.pow_pos_nonneg; lia. Qed.

Lemma pow2_split (a b : Z) : 0 <= a -> 0 <= b -> 2 ^ (a + b) = 2 ^ a * 2 ^ b.
Proof. intros. apply Z.pow_add_r; lia. Qed.

Lemma Zfloor_scaled_shift (M E j : Z) :
  0 <= j -> Zfloor_scaled (M * 2 ^ j) (E - j) = Zfloor_scaled M E.
Proof.
  intros Hj. unfold Zfloor_scaled.
  destruct (Z.leb_spec 0 (E - j)), (Z.leb_spec 0 E); try lia.
  - rewrite <- Z.mul_assoc, <- pow2_split by lia. f_equal. f_equal. lia.
  - replace j with (E + (- (E - j))) at 1 by lia.
    rewrite pow2_split by lia. rewrite Z.mul_assoc.
    apply Z.div_mul. pose proof (pow2_pos (- (E - j))). lia.
  - replace (- (E - j)) with (- E + j) by lia.
    rewrite pow2_split by lia.
    apply Z.div_mul_cancel_r; pose proof (pow2_pos (- E)); pose proof (pow2_pos j); lia.
Qed.

Lemma bounded_inv (m : positive) (e : Z) :
  bounded 24 128 m e = true ->
  e <= 104
  /\ ((Z.log2 (Zpos m) = 23 /\ -149 <= e)
      \/ (Z.log2 (Zpos m) < 23 /\ e = -149)).
Proof.
  unfold bounded, canonical_mantissa, fexp, emin. intros H.
  apply andb_prop in H. destruct H as [H1 H2].
  apply Z.eqb_eq in H1. apply Z.leb_le in H2.
  change (Zpos (digits2_pos m)) with (Zdigits2 (Zpos m)) in H1.
  rewrite Zdigits2_log2 in H1 by lia.
  pose proof (Z.log2_nonneg (Zpos m)). lia.
Qed.

(** Multiplying a float of magnitude at most 1 by 2^31 is exact. *)
Lemma mul_two31_exact (s : bool) (m : positive) (e : Z) :
  bounded 24 128 m e = true -> e <= -23 ->
  exists k, 0 <= k <= 23
    /\ B32.mul (S754_finite s m e) two31
       = S754_finite s (Z.to_pos (Zpos m * 2 ^ (23 - k))) (e + 8 + k).
Proof.
  intros Hb He. destruct (bounded_inv m e Hb) as [_ Hd].
  pose proof (Z.log2_nonneg (Zpos m)) as Hl.
  set (d := Z.log2 (Zpos m) + 1) in *.
  exists (fexp 24 128 (d + e + 31) - e - 8).
  set (k := fexp 24 128 (d + e + 31) - e - 8).
  assert (Hk : 0 <= k <= 23) by (unfold k, fexp, emin; lia).
  split; [exact Hk|].
  unfold B32.mul, two31, SFmul.
  replace (xorb s false) with s by (destruct s; reflexivity).
  replace (Zpos (m * 8388608)) with ((Zpos m * 2 ^ (23 - k)) * 2 ^ k).
  - apply binary_round_aux_exact.
    + apply Z.mul_pos_pos; [lia|apply pow2_pos; lia].
    + lia.
    + rewrite <- Z.mul_assoc, <- pow2_split by lia.
      replace (23 - k + k) with 23 by lia.
      rewrite Z.log2_mul_pow2 by lia.
      unfold k, d.
      replace (23 + Z.log2 (Z.pos m) + 1 + (e + 8))
        with (Z.log2 (Z.pos m) + 1 + e + 31) by lia.
      lia.
    + lia.
  - rewrite <- Z.mul_assoc, <- pow2_split by lia.
    replace (23 - k + k) with 23 by lia. rewrite Pos2Z.inj_mul. reflexivity.
Qed.

Lemma Ztrunc_finite (s : bool) (m : positive) (e : Z) :
  Ztrunc (S754_finite s m e) = cond_Zopp s (Zfloor_scaled (Zpos m) e).
Proof. reflexivity. Qed.

Lemma Z2Pos_id_pos (z : Z) : 0 < z -> Zpos (Z.to_pos z) = z.
Proof. intros. apply Z2Pos.id. lia. Qed.

(** A positive integer with at most 24 significant bits is a binary32
    number: its conversion is exact. *)
Lemma of_Z_exact (s : bool) (q j : Z) :
  0 < q < 2 ^ 24 -> 0 <= j <= 100 ->
  B32.of_Z (cond_Zopp s (q * 2 ^ j))
  = S754_finite s (Z.to_pos (q * 2 ^ (23 - Z.log2 q))) (j + Z.log2 q - 23).
Proof.
  intros Hq Hj.
  assert (Hlq : 0 <= Z.log2 q <= 23).
  { split; [apply Z.log2_nonneg|].
    assert (Z.log2 q < 24) by (apply Z.log2_lt_pow2; lia). lia. }
  set (T := q * 2 ^ j).
  assert (HT : 0 < T) by (apply Z.mul_pos_pos; [lia|apply pow2_pos; lia]).
  assert (HlT : Z.log2 T = j + Z.log2 q) by (apply Z.log2_mul_pow2; lia).
  assert (Hn : 0 < q * 2 ^ (23 - Z.log2 q))
    by (apply Z.mul_pos_pos; [lia|apply pow2_pos; lia]).
  assert (Hln : Z.log2 (q * 2 ^ (23 - Z.log2 q)) = 23).
  { rewrite Z.log2_mul_pow2 by lia. lia. }
  assert (Hr : B32.of_Z (cond_Zopp s T) = binary_round 24 128 s (Z.to_pos T) 0).
  { unfold B32.of_Z, binary_normalize, B32.prec, B32.emax.
    destruct T as [|p|p]; try lia. destruct s; reflexivity. }
  rewrite Hr. unfold binary_round.
  change (Zpos (digits2_pos (Z.to_pos T))) with (Zdigits2 (Zpos (Z.to_pos T))).
  rewrite (Z2Pos_id_pos T HT), (Zdigits2_log2 T HT), HlT.
  replace (fexp 24 128 (j + Z.log2 q + 1 + 0)) with (j + Z.log2 q - 23)
    by (unfold fexp, emin; lia).
  unfold shl_align.
  destruct (j + Z.log2 q - 23 - 0) as [|p|p] eqn:Hsh.
  - (* already 24 bits *)
    rewrite (Z2Pos_id_pos T HT).
    replace T with (q * 2 ^ (23 - Z.log2 q) * 2 ^ 0).
    + rewrite binary_round_aux_exact; try lia.
      * f_equal. lia.
      * rewrite Z.pow_0_r, Z.mul_1_r, Hln. unfold fexp, emin. lia.
    + unfold T. replace (23 - Z.log2 q) with j by lia. rewrite Z.pow_0_r. ring.
  - (* more than 24 bits *)
    rewrite (Z2Pos_id_pos T HT).
    replace T with (q * 2 ^ (23 - Z.log2 q) * 2 ^ (Zpos p)).
    + rewrite binary_round_aux_exact; try lia.
      * f_equal. lia.
      * rewrite <- Z.mul_assoc, <- pow2_split by lia.
        rewrite Z.log2_mul_pow2 by lia. unfold fexp, emin. lia.
    + unfold T. rewrite <- Z.mul_assoc, <- pow2_split by lia.
      f_equal. f_equal. lia.
  - (* fewer than 24 bits: the mantissa is shifted left *)
    assert (Hit : Zpos (Pos.iter xO (Z.to_pos T) p) = T * 2 ^ Zpos p).
    { rewrite <- (Z2Pos_id_pos T HT) at 2.
      rewrite <- Z.shiftl_mul_pow2 by lia. 
      unfold Z.shiftl. clear. generalize (Z.to_pos T). intros x.
      induction p using Pos.peano_ind.
      - reflexivity.
      - rewrite !Pos.iter_succ, <- IHp. reflexivity. }
    rewrite Hit.
    replace (T * 2 ^ Zpos p) with (q * 2 ^ (23 - Z.log2 q) * 2 ^ 0).
    + rewrite binary_round_aux_exact; try lia.
      * f_equal. lia.
      * rewrite Z.pow_0_r, Z.mul_1_r, Hln. unfold fexp, emin. lia.
    + unfold T. rewrite Z.pow_0_r, Z.mul_1_r, <- Z.mul_assoc, <- pow2_split by lia.
      f_equal. f_equal. lia.
Qed.

Lemma div_eucl_div_mod (a b : Z) : Z.div_eucl a b = (a / b, a mod b).
Proof. unfold Z.div, Z.modulo. destruct (Z.div_eucl a b). reflexivity. Qed.

(** Dividing a normal binary32 number by 2^31 is exact when the quotient
    is normal. *)
Lemma div_two31_exact (s : bool) (M E : Z) :
  0 < M -> Z.log2 M = 23 -> -100 <= E <= 100 ->
  B32.div (S754_finite s (Z.to_pos M) E) two31
  = S754_finite s (Z.to_pos M) (E - 31).
Proof.
  intros HM Hl HE.
  unfold B32.div, two31, SFdiv, B32.prec, B32.emax.
  replace (xorb s false) with s by (destruct s; reflexivity).
  unfold SFdiv_core_binary.
  rewrite (Z2Pos_id_pos M HM), (Zdigits2_log2 M HM), Hl.
  change (Zdigits2 8388608) with 24.
  replace (Z.min (fexp 24 128 (23 + 1 + E - (24 + 8))) (E - 8))
    with (E - 32) by (unfold fexp, emin; lia).
  replace (E - 8 - (E - 32)) with 24 by lia.
  rewrite Z.shiftl_mul_pow2 by lia.
  rewrite div_eucl_div_mod.
  replace (M * 2 ^ 24) with (M * 2 * 8388608) by (change (2 ^ 24) with 16777216; lia).
  rewrite Z.div_mul, Z.mod_mul by lia.
  change (new_location 8388608 0) with loc_Exact.
  change (M * 2) with (M * 2 ^ 1).
  rewrite binary_round_aux_exact; try lia.
  - f_equal. lia.
  - rewrite Z.log2_mul_pow2 by lia. rewrite Hl. unfold fexp, emin. lia.
Qed.

(** The value of a finite float with a negative exponent, over the
    denominator 2^180. *)
Lemma F2Q_scaled (s : bool) (M E : Z) :
  0 < M -> -180 <= E < 0 ->
  (F2Q (S754_finite s (Z.to_pos M) E)
   == Qmake (cond_Zopp s (M * 2 ^ (E + 180))) (Z.to_pos (2 ^ 180)))%Q.
Proof.
  intros HM HE. unfold F2Q.
  destruct (Z.leb_spec 0 E); [lia|].
  unfold Qeq. cbn [Qnum Qden].
  rewrite (Z2Pos_id_pos M HM).
  rewrite !Z2Pos_id_pos by (apply pow2_pos; lia).
  replace 180 with ((E + 180) + - E) at 1 by lia.
  rewrite pow2_split by lia. destruct s; cbn [cond_Zopp]; ring.
Qed.

Lemma Qabs_diff_same_den (a b : Z) (d p : positive) :
  Z.abs (a - b) * Zpos p < Zpos d ->
  (Qabs (Qmake a d - Qmake b d) < Qmake 1 p)%Q.
Proof.
  intros H. unfold Qminus, Qplus, Qopp, Qabs, Qlt. cbn [Qnum Qden].
  replace (a * Zpos d + - b * Zpos d) with ((a - b) * Zpos d) by ring.
  rewrite Z.abs_mul, (Z.abs_eq (Zpos d)) by lia.
  rewrite Pos2Z.inj_mul. nia.
Qed.

(** The bounds a binary32 number in [-1, 1) puts on its mantissa. *)
Lemma unit_range_inv (s : bool) (m : positive) (e : Z) :
  bounded 24 128 m e = true ->
  (-1 <= F2Q (S754_finite s m e))%Q -> (F2Q (S754_finite s m e) < 1)%Q ->
  -149 <= e <= -23
  /\ Zpos m <= 2 ^ (- e)
  /\ (s = false -> Zpos m < 2 ^ (- e)).
Proof.
  intros Hb Hlo Hhi.
  destruct (bounded_inv m e Hb) as [_ Hd].
  pose proof (Z.log2_spec (Zpos m) ltac:(lia)) as Hsp.
  unfold F2Q in Hlo, Hhi.
  destruct (Z.leb_spec 0 e) as [He|He].
  - exfalso.
    assert (1 <= 2 ^ e) by (pose proof (pow2_pos e He); lia).
    unfold Qle, Qlt, inject_Z in *. cbn [Qnum Qden] in *.
    destruct s; cbn [cond_Zopp] in *.
    + assert (Z.log2 (Zpos m) = 23) by lia.
      assert (2 ^ 23 <= Zpos m) by (rewrite <- H0 at 1; lia).
      change (2 ^ 23) with 8388608 in *. nia.
    + nia.
  - unfold Qle, Qlt in *. cbn [Qnum Qden] in *.
    rewrite Z2Pos_id_pos in * by (apply pow2_pos; lia).
    assert (Hm : Zpos m <= 2 ^ (- e) /\ (s = false -> Zpos m < 2 ^ (- e))).
    { destruct s; cbn [cond_Zopp] in *; split; try lia; try discriminate. }
    split; [|exact Hm].
    destruct Hd as [[Hl He'] | [Hl He']]; [|lia].
    split; [lia|].
    assert (Z.log2 (Zpos m) <= Z.log2 (2 ^ (- e)))
      by (apply Z.log2_le_mono; lia).
    rewrite Z.log2_pow2 in H by lia. lia.
Qed.

Lemma clamp_s32_id (z : Z) : INT32_MIN <= z <= INT32_MAX -> clamp_s32 z = z.
Proof.
  unfold clamp_s32. intros H.
  destruct (Z.ltb_spec z INT32_MIN); [lia|].
  destruct (Z.ltb_spec INT32_MAX z); [lia|]. reflexivity.
Qed.

(** The integer part of [x * 2^31] for [x] below 2 in magnitude; the
    product is exact. *)
Lemma Ztrunc_mul_two31 (s : bool) (m : positive) (e : Z) :
  bounded 24 128 m e = true -> e <= -23 ->
  Ztrunc (B32.mul (S754_finite s m e) (B32.of_Z Q31_MULTIPLIER))
  = cond_Zopp s (Zfloor_scaled (Zpos m) (e + 31)).
Proof.
  intros Hb He. rewrite of_Z_Q31_MULTIPLIER.
  destruct (mul_two31_exact s m e Hb He) as (k & Hk & ->).
  rewrite Ztrunc_finite.
  rewrite Z2Pos_id_pos by (apply Z.mul_pos_pos; [lia|apply pow2_pos; lia]).
  replace (e + 8 + k) with (e + 31 - (23 - k)) by lia.
  rewrite Zfloor_scaled_shift by lia. reflexivity.
Qed.

(** The conversion to [int32_t] of a number whose integer part is in the
    range of [int32_t] is that integer part, on every platform. *)
Lemma f32_to_s32_finite (u : float32_t -> Z) (s : bool) (m : positive)
    (e : Z) :
  INT32_MIN <= Ztrunc (S754_finite s m e) <= INT32_MAX ->
  f32_to_s32 u (S754_finite s m e) = Ztrunc (S754_finite s m e).
Proof.
  intros [H1 H2]. unfold f32_to_s32.
  apply Z.leb_le in H1. apply Z.leb_le in H2. rewrite H1, H2. reflexivity.
Qed.

Lemma f32_to_s32_zero (u : float32_t -> Z) (s : bool) :
  f32_to_s32 u (S754_zero s) = 0.
Proof. reflexivity. Qed.

(** On the target, whose conversion saturates, the conversion is the
    saturated integer part. *)
Lemma f32_to_s32_saturating (x : float32_t) :
  f32_to_s32 saturating_cast x = saturating_cast x.
Proof.
  destruct x as [s|s| |s m e]; try reflexivity.
  unfold f32_to_s32, saturating_cast.
  destruct (Z.leb_spec INT32_MIN (Ztrunc (S754_finite s m e)));
    destruct (Z.leb_spec (Ztrunc (S754_finite s m e)) INT32_MAX);
    cbn [andb]; try reflexivity.
  symmetry. apply clamp_s32_id. lia.
Qed.

(** [FLOAT_TO_Q31] on a number of [-1, 1): the integer part of [x * 2^31];
    the conversion is within the range of [int32_t]. *)
Lemma FLOAT_TO_Q31_unit_range (u : float32_t -> Z) (s : bool) (m : positive)
    (e : Z) :
  bounded 24 128 m e = true ->
  -149 <= e <= -23 -> Zpos m <= 2 ^ (- e) ->
  (s = false -> Zpos m < 2 ^ (- e)) ->
  let T := Zfloor_scaled (Zpos m) (e + 31) in
  FLOAT_TO_Q31 u (S754_finite s m e) = cond_Zopp s T
  /\ 0 <= T <= 2 ^ 31
  /\ INT32_MIN <= cond_Zopp s T <= INT32_MAX.
Proof.
  intros Hb He Hm Hs T.
  assert (HT : 0 <= T <= 2 ^ 31 /\ (s = false -> T < 2 ^ 31)).
  { unfold T, Zfloor_scaled. destruct (Z.leb_spec 0 (e + 31)).
    - assert (E31 : 2 ^ 31 = 2 ^ (- e) * 2 ^ (e + 31))
        by (rewrite <- pow2_split by lia; f_equal; lia).
      rewrite E31. clear E31.
      pose proof (pow2_pos (e + 31) ltac:(lia)) as HP.
      generalize dependent (2 ^ (e + 31)). generalize dependent (2 ^ (- e)).
      intros Q Hm Hs P HP.
      split; [split; nia|]. intros Hf. specialize (Hs Hf). nia.
    - pose proof (pow2_pos (- (e + 31)) ltac:(lia)).
      pose proof (Z.log2_spec (Zpos m) ltac:(lia)).
      destruct (bounded_inv m e Hb) as [_ Hd].
      assert (Zpos m < 2 ^ 24).
      { apply Z.log2_lt_pow2; lia. }
      assert (Zpos m / 2 ^ (- (e + 31)) <= Zpos m)
        by (apply Z.div_le_upper_bound; nia).
      assert (0 <= Zpos m / 2 ^ (- (e + 31)))
        by (apply Z.div_pos; lia).
      change (2 ^ 24) with 16777216 in *. change (2 ^ 31) with 2147483648.
      lia. }
  assert (Hc : INT32_MIN <= cond_Zopp s T <= INT32_MAX).
  { unfold INT32_MIN, INT32_MAX. change (2 ^ 31) with 2147483648 in HT.
    destruct s; cbn [cond_Zopp]; [lia|].
    destruct HT as [? HT]. specialize (HT eq_refl). lia. }
  split; [|split; [tauto|exact Hc]].
  pose proof (Ztrunc_mul_two31 s m e Hb ltac:(lia)) as HZ. fold T in HZ.
  unfold FLOAT_TO_Q31.
  destruct (mul_two31_exact s m e Hb ltac:(lia)) as (k & Hk & Hmul).
  rewrite of_Z_Q31_MULTIPLIER in *. rewrite Hmul in *.
  rewrite f32_to_s32_finite; rewrite HZ; [reflexivity|exact Hc].
Qed.

(** [Q31_TO_FLOAT] on the integer part [T] of [m * 2^(e+31)]: the result
    is the number [T / 2^31]. *)
Lemma Q31_TO_FLOAT_exact (s : bool) (m : positive) (e : Z) :
  Z.log2 (Zpos m) <= 23 -> -149 <= e <= -23 ->
  let T := Zfloor_scaled (Zpos m) (e + 31) in
  0 <= T <= 2 ^ 31 ->
  is_finite (Q31_TO_FLOAT (cond_Zopp s T)) = true
  /\ (F2Q (Q31_TO_FLOAT (cond_Zopp s T))
      == Qmake (cond_Zopp s (T * 2 ^ 149)) (Z.to_pos (2 ^ 180)))%Q.
Proof.
  intros Hl He T HT.
  destruct (Z.eq_dec T 0) as [H0|H0].
  - rewrite H0. replace (cond_Zopp s 0) with 0 by (destruct s; reflexivity).
    split; [reflexivity|]. destruct s; reflexivity.
  - assert (Hq : exists q j, T = q * 2 ^ j /\ 0 < q < 2 ^ 24 /\ 0 <= j <= 8).
    { unfold T, Zfloor_scaled in *. destruct (Z.leb_spec 0 (e + 31)).
      - exists (Zpos m), (e + 31). split; [reflexivity|]. split; [|lia].
        split; [lia|]. apply Z.log2_lt_pow2; lia.
      - exists (Zpos m / 2 ^ (- (e + 31))), 0.
        pose proof (pow2_pos (- (e + 31)) ltac:(lia)).
        assert (Zpos m < 2 ^ 24) by (apply Z.log2_lt_pow2; lia).
        assert (Zpos m / 2 ^ (- (e + 31)) <= Zpos m)
          by (apply Z.div_le_upper_bound; nia).
        split; [rewrite Z.pow_0_r; ring|]. split; lia. }
    destruct Hq as (q & j & HTq & Hq & Hj).
    assert (Hlq : 0 <= Z.log2 q <= 23).
    { split; [apply Z.log2_nonneg|].
      assert (Z.log2 q < 24) by (apply Z.log2_lt_pow2; lia). lia. }
    assert (HlT : j + Z.log2 q <= 31).
    { assert (Z.log2 T <= Z.log2 (2 ^ 31)) by (apply Z.log2_le_mono; lia).
      rewrite HTq, Z.log2_mul_pow2, Z.log2_pow2 in H by lia. lia. }
    assert (HM : 0 < q * 2 ^ (23 - Z.log2 q))
      by (apply Z.mul_pos_pos; [lia|apply pow2_pos; lia]).
    unfold Q31_TO_FLOAT. rewrite of_Z_Q31_MULTIPLIER, HTq.
    rewrite of_Z_exact by lia.
    rewrite div_two31_exact;
      [ | exact HM | rewrite Z.log2_mul_pow2 by lia; lia | lia ].
    split; [reflexivity|].
    rewrite F2Q_scaled by lia.
    replace (q * 2 ^ (23 - Z.log2 q) * 2 ^ (j + Z.log2 q - 23 - 31 + 180))
      with (q * 2 ^ j * 2 ^ 149); [reflexivity|].
    rewrite <- !Z.mul_assoc, <- !pow2_split by lia. f_equal. f_equal. lia.
Qed.

(** The integer part of [m * 2^(e+31)] is less than one unit away. *)
Lemma Zfloor_scaled_error (m e : Z) :
  0 < m -> -149 <= e <= -23 ->
  Z.abs (Zfloor_scaled m (e + 31) * 2 ^ 149 - m * 2 ^ (e + 180)) < 2 ^ 149.
Proof.
  intros Hm He. unfold Zfloor_scaled.
  destruct (Z.leb_spec 0 (e + 31)).
  - replace (m * 2 ^ (e + 31) * 2 ^ 149) with (m * 2 ^ (e + 180)).
    + rewrite Z.sub_diag. reflexivity.
    + rewrite <- Z.mul_assoc, <- pow2_split by lia. f_equal. f_equal. lia.
  - set (j := - (e + 31)).
    assert (E1 : 2 ^ 149 = 2 ^ j * 2 ^ (149 - j))
      by (rewrite <- pow2_split by lia; f_equal; lia).
    replace (e + 180) with (149 - j) by lia.
    rewrite E1 at 1. clear E1.
    pose proof (pow2_pos j ltac:(lia)) as HQ.
    pose proof (pow2_pos (149 - j) ltac:(lia)) as HP.
    pose proof (Z.div_mod m (2 ^ j) ltac:(lia)) as Hdm.
    pose proof (Z.mod_pos_bound m (2 ^ j) HQ) as Hr.
    assert (E2 : 2 ^ 149 = 2 ^ j * 2 ^ (149 - j))
      by (rewrite <- pow2_split by lia; f_equal; lia).
    set (Q := 2 ^ j) in *. set (P := 2 ^ (149 - j)) in *.
    set (t := m / Q) in *. set (r := m mod Q) in *.
    clearbody Q P t r. rewrite E2. clear E2. subst m.
    replace (t * (Q * P) - (Q * t + r) * P) with (- (r * P)) by ring.
    rewrite Z.abs_opp, Z.abs_eq by nia. nia.
Qed.

(** C2 (as amended).  For every binary32 number [x] with [-1 <= x < 1],
    the range of Q31, [FLOAT_TO_Q31] is the integer part of [x * 2^31]
    on every platform (the product is exact and within the range of
    [int32_t]), and
    [Q31_TO_FLOAT (FLOAT_TO_Q31 x)] is a finite number that differs from
    [x] by less than 2^-31, one unit in the last place of Q31. *)
Theorem Q31_round_trip (u : float32_t -> Z) (x : float32_t) :
  B32.valid x = true -> is_finite x = true ->
  (-1 <= F2Q x)%Q -> (F2Q x < 1)%Q ->
  FLOAT_TO_Q31 u x = Ztrunc (B32.mul x (B32.of_Z Q31_MULTIPLIER))
  /\ is_finite (Q31_TO_FLOAT (FLOAT_TO_Q31 u x)) = true
  /\ (Qabs (F2Q (Q31_TO_FLOAT (FLOAT_TO_Q31 u x)) - F2Q x)
      < Qmake 1 (2 ^ 31))%Q.
Proof.
  intros Hv Hf Hlo Hhi.
  destruct x as [s0|s0| |s m e]; try discriminate.
  - repeat split; destruct s0; reflexivity.
  - unfold B32.valid, valid_binary, B32.prec, B32.emax in Hv.
    destruct (unit_range_inv s m e Hv Hlo Hhi) as (He & Hm & Hs).
    destruct (FLOAT_TO_Q31_unit_range u s m e Hv He Hm Hs)
      as (HQ & HT & Hc).
    cbv zeta in HQ, HT, Hc.
    pose proof (Ztrunc_mul_two31 s m e Hv ltac:(lia)) as HZ.
    set (T := Zfloor_scaled (Zpos m) (e + 31)) in *.
    destruct (bounded_inv m e Hv) as [_ Hd].
    destruct (Q31_TO_FLOAT_exact s m e ltac:(lia) He HT) as (Hfin & Hval).
    fold T in Hfin, Hval.
    split.
    { rewrite HQ, HZ. reflexivity. }
    rewrite HQ. split; [exact Hfin|].
    rewrite Hval.
    rewrite (F2Q_scaled s (Zpos m) e) by lia.
    apply Qabs_diff_same_den.
    rewrite Z2Pos_id_pos by (apply pow2_pos; lia).
    pose proof (Zfloor_scaled_error (Zpos m) e ltac:(lia) He) as Herr.
    fold T in Herr.
    assert (Hab : Z.abs (cond_Zopp s (T * 2 ^ 149)
                         - cond_Zopp s (Zpos m * 2 ^ (e + 180)))
                  = Z.abs (T * 2 ^ 149 - Zpos m * 2 ^ (e + 180))).
    { destruct s; cbn [cond_Zopp]; [|reflexivity].
      rewrite <- Z.abs_opp. f_equal. ring. }
    rewrite Hab.
    change (Zpos (2 ^ 31)) with (2 ^ 31).
    change (2 ^ 180) with (2 ^ 149 * 2 ^ 31).
    pose proof (Z.abs_nonneg (T * 2 ^ 149 - Zpos m * 2 ^ (e + 180))).
    change (2 ^ 31) with 2147483648. lia.
Qed.

Lemma Q31_round_trip_witness :
  let x := f64_to_f32 (B64.dec 3 1) in
  B32.valid x = true /\ is_finite x = true
  /\ (-1 <= F2Q x)%Q /\ (F2Q x < 1)%Q
  /\ (Qabs (F2Q (Q31_TO_FLOAT (FLOAT_TO_Q31 indefinite_cast x)) - F2Q x)
      < Qmake 1 (2 ^ 31))%Q.
Proof.
  cbv zeta.
  assert (Hlo : (-1 <= F2Q (f64_to_f32 (B64.dec 3 1)))%Q)
    by (vm_compute; discriminate).
  assert (Hhi : (F2Q (f64_to_f32 (B64.dec 3 1)) < 1)%Q) by reflexivity.
  split; [reflexivity|]. split; [reflexivity|].
  split; [exact Hlo|]. split; [exact Hhi|].
  exact (proj2 (proj2
    (Q31_round_trip indefinite_cast (f64_to_f32 (B64.dec 3 1))
       eq_refl eq_refl Hlo Hhi))).
Defined.

(** C2, counterexample.  [FLOAT_TO_Q8_23] multiplies by 2^8 and
    [Q23_TO_FLOAT] divides by 8388607: the number 1.0, converted (to
    256, on every platform: the conversion is within the range of
    [int32_t]) and converted back, is 256/8388607 (about 0.00003), more
    than one half away from 1.0. *)
Lemma Q8_23_no_round_trip :
  let x := B32.of_Z 1 in
  let q := FLOAT_TO_Q8_23 saturating_cast x in
  q = 256
  /\ FLOAT_TO_Q8_23 indefinite_cast x = 256
  /\ (F2Q (Q23_TO_FLOAT q) < 1 # 32767)%Q
  /\ (1 # 2 < Qabs (F2Q (Q23_TO_FLOAT q) - F2Q x))%Q
  /\ ~ (Qabs (F2Q (Q23_TO_FLOAT q) - F2Q x) < Qmake 1 (2 ^ 8))%Q.
Proof.
  cbv zeta. split; [reflexivity|]. split; [reflexivity|].
  split; [reflexivity|]. split; [reflexivity|]. vm_compute. discriminate.
Qed.

(** ** The comparison of binary32 numbers and their values *)

Lemma F2Q_Fscaled (x : float32_t) :
  B32.valid x = true ->
  (F2Q x == Qmake (Fscaled x) (Z.to_pos (2 ^ 149)))%Q.
Proof.
  destruct x as [s|s| |s m e]; try reflexivity.
  intros Hv. unfold B32.valid, valid_binary, B32.prec, B32.emax in Hv.
  destruct (bounded_inv m e Hv) as [_ Hd].
  assert (He : -149 <= e) by lia.
  unfold F2Q, Fscaled, Qeq. cbn [Qnum Qden inject_Z].
  rewrite Z2Pos_id_pos by (apply pow2_pos; lia).
  destruct (Z.leb_spec 0 e).
  - cbn [Qnum Qden inject_Z]. rewrite (pow2_split e 149) by lia.
    destruct s; cbn [cond_Zopp]; ring.
  - cbn [Qnum Qden]. rewrite Z2Pos_id_pos by (apply pow2_pos; lia).
    replace 149 with ((e + 149) + - e) at 1 by lia.
    rewrite (pow2_split (e + 149) (- e)) by lia.
    destruct s; cbn [cond_Zopp]; ring.
Qed.

Lemma Qle_same_den (a b : Z) (d : positive) :
  (Qmake a d <= Qmake b d)%Q <-> a <= b.
Proof. unfold Qle. cbn [Qnum Qden]. nia. Qed.

(** Canonical mantissas are ordered by their exponent first. *)
Lemma bounded_lt_exp (m1 m2 : positive) (e1 e2 : Z) :
  bounded 24 128 m1 e1 = true -> bounded 24 128 m2 e2 = true ->
  e1 < e2 ->
  Zpos m1 * 2 ^ (e1 + 149) < Zpos m2 * 2 ^ (e2 + 149).
Proof.
  intros H1 H2 He.
  destruct (bounded_inv m1 e1 H1) as [_ D1].
  destruct (bounded_inv m2 e2 H2) as [_ D2].
  assert (L2 : Z.log2 (Zpos m2) = 23) by lia.
  assert (B1 : Zpos m1 < 2 ^ 24) by (apply Z.log2_lt_pow2; lia).
  pose proof (Z.log2_spec (Zpos m2) ltac:(lia)) as S2. rewrite L2 in S2.
  replace (e2 + 149) with ((e1 + 149) + (e2 - e1)) by lia.
  rewrite (pow2_split (e1 + 149) (e2 - e1)) by lia.
  assert (2 ^ 1 <= 2 ^ (e2 - e1)) by (apply Z.pow_le_mono_r; lia).
  pose proof (pow2_pos (e1 + 149) ltac:(lia)).
  change (2 ^ 1) with 2 in *. change (2 ^ 24) with 16777216 in *.
  change (2 ^ 23) with 8388608 in *.
  set (Q := 2 ^ (e2 - e1)) in *. set (P := 2 ^ (e1 + 149)) in *.
  clearbody P Q.
  assert (Zpos m1 * P < 16777216 * P) by nia.
  assert (A1 : 8388608 * P <= Zpos m2 * P) by nia.
  assert (A2 : (Zpos m2 * P) * 2 <= (Zpos m2 * P) * Q)
    by (apply Z.mul_le_mono_nonneg_l; lia).
  replace (Zpos m2 * (P * Q)) with ((Zpos m2 * P) * Q) by ring.
  lia.
Qed.

Lemma compare_finite_pos (m1 m2 : positive) (e1 e2 : Z) :
  bounded 24 128 m1 e1 = true -> bounded 24 128 m2 e2 = true ->
  match (e1 ?= e2) with
  | Lt => Lt
  | Gt => Gt
  | Eq => Pos.compare_cont Eq m1 m2
  end
  = (Zpos m1 * 2 ^ (e1 + 149) ?= Zpos m2 * 2 ^ (e2 + 149)).
Proof.
  intros H1 H2. symmetry.
  destruct (Z.compare_spec e1 e2) as [E|E|E].
  - subst e2. destruct (bounded_inv m1 e1 H1) as [_ D1].
    pose proof (pow2_pos (e1 + 149) ltac:(lia)).
    change (Pos.compare_cont Eq m1 m2) with (Zpos m1 ?= Zpos m2).
    destruct (Z.compare_spec (Zpos m1) (Zpos m2)) as [F|F|F].
    + rewrite F. apply Z.compare_refl.
    + apply Z.compare_lt_iff. nia.
    + apply Z.compare_gt_iff. nia.
  - apply Z.compare_lt_iff. apply bounded_lt_exp; assumption.
  - apply Z.compare_gt_iff. apply bounded_lt_exp; assumption.
Qed.

(** The comparison of IEEE-754 is the order of the values. *)
Lemma SFcompare_Fscaled (x y : float32_t) :
  B32.valid x = true -> B32.valid y = true ->
  is_finite x = true -> is_finite y = true ->
  SFcompare x y = Some (Fscaled x ?= Fscaled y).
Proof.
  intros Vx Vy Fx Fy.
  destruct x as [sx|sx| |sx mx ex], y as [sy|sy| |sy my ey];
    try discriminate; unfold B32.valid, valid_binary, B32.prec, B32.emax in *.
  - reflexivity.
  - destruct (bounded_inv my ey Vy) as [_ D].
    pose proof (pow2_pos (ey + 149) ltac:(lia)).
    cbn [SFcompare Fscaled]. f_equal. symmetry.
    destruct sy; cbn [cond_Zopp];
      [apply Z.compare_gt_iff | apply Z.compare_lt_iff]; nia.
  - destruct (bounded_inv mx ex Vx) as [_ D].
    pose proof (pow2_pos (ex + 149) ltac:(lia)).
    cbn [SFcompare Fscaled]. f_equal. symmetry.
    destruct sx; cbn [cond_Zopp];
      [apply Z.compare_lt_iff | apply Z.compare_gt_iff]; nia.
  - destruct (bounded_inv mx ex Vx) as [_ Dx].
    destruct (bounded_inv my ey Vy) as [_ Dy].
    pose proof (pow2_pos (ex + 149) ltac:(lia)).
    pose proof (pow2_pos (ey + 149) ltac:(lia)).
    pose proof (compare_finite_pos mx my ex ey Vx Vy) as C.
    cbn [SFcompare Fscaled]. f_equal.
    destruct sx, sy; cbn [cond_Zopp].
    + rewrite Z.compare_opp, (Z.compare_antisym _ (Zpos my * _)), <- C.
      destruct (ex ?= ey); reflexivity.
    + symmetry. apply Z.compare_lt_iff. nia.
    + symmetry. apply Z.compare_gt_iff. nia.
    + exact C.
Qed.

Lemma leb_Qle (x y : float32_t) :
  B32.valid x = true -> B32.valid y = true ->
  is_finite x = true -> is_finite y = true ->
  B32.leb x y = true <-> (F2Q x <= F2Q y)%Q.
Proof.
  intros Vx Vy Fx Fy.
  rewrite (F2Q_Fscaled x Vx), (F2Q_Fscaled y Vy), Qle_same_den.
  unfold B32.leb, SFleb. rewrite (SFcompare_Fscaled x y Vx Vy Fx Fy).
  destruct (Z.compare_spec (Fscaled x) (Fscaled y)); split; intros;
    try reflexivity; try lia; discriminate.
Qed.

(** ** C1: the range validator *)

(** C1 (as amended).  For limits and a value that are numbers (none is
    NaN), [check_range] returns the success status exactly when
    [low_limit <= value <= high_limit], both bounds included, and then it
    prints nothing; otherwise it prints the diagnostic and returns the
    bad-parameter status.  In particular, when [low_limit <= high_limit]
    the values [low_limit] and [high_limit] themselves are accepted, and a
    value strictly below the low limit or strictly above the high limit is
    refused.  For finite binary32 numbers the comparison is the order of
    the rational numbers they denote. *)
Theorem check_range_inclusive (low_limit high_limit value : float32_t)
    (w : world) :
  is_nan low_limit = false -> is_nan high_limit = false ->
  is_nan value = false ->
  (fst (check_range low_limit high_limit value w) = CY_CORDIC_SUCCESS
   <-> B32.leb low_limit value = true /\ B32.leb value high_limit = true)
  /\ (B32.leb low_limit value = true /\ B32.leb value high_limit = true ->
      check_range low_limit high_limit value w = (CY_CORDIC_SUCCESS, w))
  /\ (~ (B32.leb low_limit value = true /\ B32.leb value high_limit = true) ->
      check_range low_limit high_limit value w
      = (CY_CORDIC_BAD_PARAM, print_event w (EvPrint msg_not_in_range)))
  /\ (B32.leb low_limit high_limit = true ->
      fst (check_range low_limit high_limit low_limit w) = CY_CORDIC_SUCCESS
      /\ fst (check_range low_limit high_limit high_limit w)
         = CY_CORDIC_SUCCESS)
  /\ (B32.ltb value low_limit = true \/ B32.ltb high_limit value = true ->
      fst (check_range low_limit high_limit value w) = CY_CORDIC_BAD_PARAM)
  /\ (B32.valid low_limit = true -> B32.valid high_limit = true ->
      B32.valid value = true -> is_finite low_limit = true ->
      is_finite high_limit = true -> is_finite value = true ->
      (fst (check_range low_limit high_limit value w) = CY_CORDIC_SUCCESS
       <-> (F2Q low_limit <= F2Q value)%Q /\ (F2Q value <= F2Q high_limit)%Q)).
Proof.
  intros Hl Hh Hv.
  pose proof (leb_iff_not_gt low_limit value Hl Hv) as L1.
  pose proof (leb_iff_not_gt value high_limit Hv Hh) as L2.
  pose proof (leb_iff_not_gt low_limit high_limit Hl Hh) as L3.
  pose proof (leb_refl low_limit Hl) as R1.
  pose proof (leb_refl high_limit Hh) as R2.
  pose proof (leb_iff_not_gt low_limit low_limit Hl Hl) as L4.
  pose proof (leb_iff_not_gt high_limit high_limit Hh Hh) as L5.
  assert (Hiff : fst (check_range low_limit high_limit value w)
                 = CY_CORDIC_SUCCESS
                 <-> B32.leb low_limit value = true
                     /\ B32.leb value high_limit = true).
  { unfold check_range.
    destruct (B32.ltb value low_limit), (B32.ltb high_limit value);
      simpl in *; rewrite L1, L2; split; intros H;
      try discriminate; try (destruct H; discriminate);
      try (split; reflexivity); reflexivity. }
  split; [exact Hiff|].
  split.
  { intros [A B]. apply check_range_success.
    rewrite A in L1. rewrite B in L2.
    destruct (B32.ltb value low_limit), (B32.ltb high_limit value);
      simpl in *; try discriminate; reflexivity. }
  split.
  { intros N. apply check_range_bad_param.
    destruct (B32.ltb value low_limit), (B32.ltb high_limit value);
      simpl in *; try reflexivity.
    exfalso. apply N. split; assumption. }
  split.
  { intros H. rewrite H in L3. unfold check_range. split.
    - rewrite R1 in L4.
      destruct (B32.ltb low_limit low_limit), (B32.ltb high_limit low_limit);
        simpl in *; try discriminate; reflexivity.
    - rewrite R2 in L5.
      destruct (B32.ltb high_limit low_limit),
        (B32.ltb high_limit high_limit);
        simpl in *; try discriminate; reflexivity. }
  split.
  { unfold check_range. intros [A | A]; rewrite A; simpl; try reflexivity.
    destruct (B32.ltb value low_limit); reflexivity. }
  intros Vl Vh Vv Fl Fh Fv.
  rewrite Hiff, (leb_Qle low_limit value Vl Vv Fl Fv),
    (leb_Qle value high_limit Vv Vh Fv Fh).
  reflexivity.
Qed.


(** C1, counterexample.  With a NaN value [check_range] returns the success
    status although [low_limit <= value] does not hold; and with limits in
    the wrong order the value [low_limit] itself is refused. *)
Lemma check_range_not_iff :
  ~ (forall low_limit high_limit value w,
       fst (check_range low_limit high_limit value w) = CY_CORDIC_SUCCESS
       <-> B32.leb low_limit value = true /\ B32.leb value high_limit = true)
  /\ ~ (forall low_limit high_limit w,
          fst (check_range low_limit high_limit low_limit w)
          = CY_CORDIC_SUCCESS).
Proof.
  split.
  - intros H.
    destruct (H IN_SIN_COS_MIN IN_SIN_COS_MAX S754_nan (initial_world ""))
      as [H1 _].
    destruct (H1 eq_refl) as [A _]. vm_compute in A. discriminate A.
  - intros H.
    specialize (H (B32.of_Z 1) (B32.of_Z 0) (initial_world "")).
    vm_compute in H. discriminate H.
Qed.

Lemma check_range_inclusive_witness :
  is_nan IN_SIN_COS_MIN = false /\ is_nan IN_SIN_COS_MAX = false
  /\ fst (check_range IN_SIN_COS_MIN IN_SIN_COS_MAX IN_SIN_COS_MAX
            (initial_world "")) = CY_CORDIC_SUCCESS.
Proof.
  split; [reflexivity|]. split; [reflexivity|].
  destruct (check_range_inclusive IN_SIN_COS_MIN IN_SIN_COS_MAX
              IN_SIN_COS_MAX (initial_world "") eq_refl eq_refl eq_refl)
    as (_ & _ & _ & H & _).
  apply H. reflexivity.
Defined.

(** ** C3: the divisors of the fixed-point to float conversions *)

(** C3.  [Q31_TO_FLOAT], [Q1_30_TO_FLOAT] and [Q20_11_TO_FLOAT] divide the
    stored integer, converted to float, by 2^31, 2^30 and 2^11.
    [Q23_TO_FLOAT], used on the Park transform results, divides by
    [Q23_MULTIPLIER], which the source writes as 8388607 = 2^23 - 1 beside
    the comment [1<<23]: the Q23 integer 2^23 (the number 1.0) is not
    converted to 1.0, and 2^23 - 1 is. *)
Theorem Q23_TO_FLOAT_divisor :
  (forall x, Q31_TO_FLOAT x = B32.div (B32.of_Z x) (B32.of_Z (2 ^ 31)))
  /\ (forall x, Q1_30_TO_FLOAT x = B32.div (B32.of_Z x) (B32.of_Z (2 ^ 30)))
  /\ (forall x, Q20_11_TO_FLOAT x = B32.div (B32.of_Z x) (B32.of_Z (2 ^ 11)))
  /\ (forall x,
        Q23_TO_FLOAT x = B32.div (B32.of_Z x) (B32.of_Z (2 ^ 23 - 1)))
  /\ Q23_MULTIPLIER <> 2 ^ 23
  /\ Q23_TO_FLOAT (2 ^ 23) <> B32.div (B32.of_Z (2 ^ 23)) (B32.of_Z (2 ^ 23))
  /\ B32.div (B32.of_Z (2 ^ 23)) (B32.of_Z (2 ^ 23)) = B32.of_Z 1
  /\ Q23_TO_FLOAT (2 ^ 23) = S754_finite false 8388609 (-23)
  /\ Q23_TO_FLOAT (2 ^ 23 - 1) = B32.of_Z 1.
Proof.
  repeat split; try reflexivity; vm_compute; discriminate.
Qed.

(** ** C9: NaN operands *)

Ltac exec_step :=
  run;
  match goal with
  | H : scan_token ?s = _ |- context [scan_token ?s] => rewrite H
  | |- context [0 <? 1] => change (0 <? 1) with true
  | |- context [0 <? -1] => change (0 <? -1) with false
  | |- context [c_str (store_token _ _)] => rewrite c_str_store_token
  | H : ?x = S754_nan |- context [?x] => rewrite H
  | |- context [f64_to_f32 S754_nan] =>
      change (f64_to_f32 S754_nan) with S754_nan
  | |- context [check_range _ _ S754_nan _] => rewrite check_range_nan
  | |- context [B32.eqb (B32.of_Z 0) S754_nan] =>
      change (B32.eqb (B32.of_Z 0) S754_nan) with false
  | H : ?c = false |- context [if ?c then _ else _] => rewrite H
  | H : ?c = true |- context [if ?c then _ else _] => rewrite H
  end.

(** An event is not among the listed ones. *)
Ltac not_in_list :=
  let Hin := fresh "Hin" in
  cbn [In]; intros Hin;
  repeat match type of Hin with
         | _ \/ _ => destruct Hin as [Hin|Hin]
         end;
  try contradiction; try discriminate Hin;
  try (injection Hin as Hin; vm_compute in Hin; discriminate Hin).

Ltac split_reads H :=
  cbn [reads_nan operand_count] in H;
  repeat match type of H with
         | match scan_token ?s with _ => _ end = true =>
             destruct (scan_token s) as [[? ?]|] eqn:?; [|discriminate H]
         | (_ && _)%bool = true =>
             let Hn := fresh "Hn" in
             apply andb_prop in H; destruct H as [Hn H];
             apply is_nan_eq in Hn
         end.

Lemma nan_or_in_range_passes (lo hi v : float32_t) (w : world) :
  nan_or_in_range lo hi v = true ->
  check_range lo hi v w = (CY_CORDIC_SUCCESS, w).
Proof.
  unfold nan_or_in_range. intros H. apply orb_prop in H.
  destruct H as [H|H].
  - rewrite (is_nan_eq v H). apply check_range_nan.
  - apply andb_prop in H. destruct H as [A B].
    apply check_range_success, in_range_not_outside; assumption.
Qed.

(** C9.  [check_range] returns the success status for a NaN value, both
    comparisons being false; every handler whose operands are read as NaN
    goes on to the call of its accelerator primitive, without the
    diagnostic of [check_range]; and so does the Park transform handler
    when any of its three operands is a NaN and the others are NaN or in
    range. *)
Theorem nan_operand_accepted (E : Externals) :
  (forall low_limit high_limit w,
     B32.ltb S754_nan low_limit = false
     /\ B32.ltb high_limit S754_nan = false
     /\ check_range low_limit high_limit S754_nan w = (CY_CORDIC_SUCCESS, w))
  /\ (forall f w,
        reads_nan E (operand_count f) (w_stdin w) = true ->
        (exists operands,
           In (EvCordic f operands) (new_events (handler E f) w))
        /\ ~ In (EvPrint msg_not_in_range) (new_events (handler E f) w))
  /\ (forall w t1 r1 t2 r2 t3 r3,
        scan_token (w_stdin w) = Some (t1, r1) ->
        scan_token r1 = Some (t2, r2) ->
        scan_token r2 = Some (t3, r3) ->
        nan_or_in_range IN_PARK_ANGLE_MIN IN_PARK_ANGLE_MAX
          (f64_to_f32 (atof E (c_str t1))) = true ->
        nan_or_in_range (B32.of_Z (-1)) (B32.of_Z 1)
          (f64_to_f32 (atof E (c_str t2))) = true ->
        nan_or_in_range (B32.of_Z (-1)) (B32.of_Z 1)
          (f64_to_f32 (atof E (c_str t3))) = true ->
        (exists operands,
           In (EvCordic HwParkTransform operands)
              (new_events (park_transform E) w))
        /\ ~ In (EvPrint msg_not_in_range) (new_events (park_transform E) w)).
Proof.
  split; [|split].
  - intros lo hi w. split; [apply ltb_nan_l|]. split; [apply ltb_nan_r|].
    apply check_range_nan.
  - intros f w H. destruct_world w.
    destruct f; split_reads H; cbn [handler];
      unfold park_transform, sine, cosine, tangent, arc_tangent,
        hyperbolic_sine, hyperbolic_cosine, hyperbolic_tangent,
        hyperbolic_arc_tangent, square_root;
      repeat exec_step; run; trace_list;
      (split; [eexists; cbn [In]; auto 10 | not_in_list]).
  - intros w t1 r1 t2 r2 t3 r3 H1 H2 H3 Ha Hb Hc. destruct_world w.
    unfold park_transform.
    repeat exec_step. rewrite (nan_or_in_range_passes _ _ _ _ Ha).
    repeat exec_step. rewrite (nan_or_in_range_passes _ _ _ _ Hb).
    repeat exec_step. rewrite (nan_or_in_range_passes _ _ _ _ Hc).
    repeat exec_step. run. trace_list.
    split; [eexists; cbn [In]; auto 10 | not_in_list].
Qed.

Lemma nan_operand_accepted_witness :
  reads_nan stub_externals (operand_count HwSin) "nan" = true
  /\ (exists operands,
        In (EvCordic HwSin operands)
           (new_events (handler stub_externals HwSin) (initial_world "nan"))).
Proof.
  split; [reflexivity|].
  destruct (nan_operand_accepted stub_externals) as (_ & H & _).
  exact (proj1 (H HwSin (initial_world "nan") eq_refl)).
Defined.

(** ** Rounding and its error *)

Lemma shr_m_shr_1 (mrs : shr_record) :
  0 <= shr_m mrs -> shr_m (shr_1 mrs) = shr_m mrs / 2.
Proof.
  destruct mrs as [m r s]. cbn [shr_m]. intros Hm.
  destruct m as [|p|p]; try lia; cbn [shr_1].
  - reflexivity.
  - destruct p as [p|p|]; cbn [shr_m].
    + rewrite Pos2Z.inj_xI. apply Z.div_unique with (r := 1); lia.
    + rewrite Pos2Z.inj_xO. apply Z.div_unique with (r := 0); lia.
    + reflexivity.
Qed.

Lemma shr_m_iter (n : nat) (mrs : shr_record) :
  0 <= shr_m mrs ->
  shr_m (Nat.iter n shr_1 mrs) = shr_m mrs / 2 ^ Z.of_nat n.
Proof.
  intros Hm. induction n as [|n IH].
  - simpl. symmetry. apply Z.div_1_r.
  - cbn [Nat.iter nat_rect]. 
    change (nat_rect (fun _ => shr_record) mrs (fun _ => shr_1) n)
      with (Nat.iter n shr_1 mrs).
    rewrite shr_m_shr_1; rewrite IH.
    + rewrite Nat2Z.inj_succ, Z.pow_succ_r by lia.
      rewrite Z.div_div by (try apply pow2_pos; lia).
      f_equal. ring.
    + apply Z.div_pos; [exact Hm|apply pow2_pos; lia].
Qed.

(** The mantissa left by the shifter is the quotient. *)
Lemma shr_m_shr (m e n : Z) :
  0 <= m -> 0 <= n ->
  shr_m (fst (shr (exact_record m) e n)) = m / 2 ^ n
  /\ snd (shr (exact_record m) e n) = e + n.
Proof.
  intros Hm Hn. unfold shr. destruct n as [|p|p]; try lia.
  - cbn [fst snd exact_record shr_m]. split; [symmetry; apply Z.div_1_r|lia].
  - cbn [fst snd]. split; [|reflexivity].
    rewrite iter_pos_nat, shr_m_iter by exact Hm.
    rewrite positive_nat_Z. reflexivity.
Qed.

Lemma round_nearest_even_cases (m : Z) (l : location) :
  round_nearest_even m l = m \/ round_nearest_even m l = m + 1.
Proof.
  unfold round_nearest_even. destruct l as [|[| |]]; auto.
  destruct (Z.even m); auto.
Qed.

Lemma shr_nonpos (mrs : shr_record) (e n : Z) :
  n <= 0 -> shr mrs e n = (mrs, e).
Proof. intros H. unfold shr. destruct n; try reflexivity. lia. Qed.

Lemma leb_finite (lo hi x : float32_t) :
  is_finite lo = true -> is_finite hi = true ->
  B32.leb lo x = true -> B32.leb x hi = true -> is_finite x = true.
Proof.
  destruct lo as [a|a| |a ma ea], hi as [b|b| |b mb eb]; try discriminate;
    destruct x as [c|c| |c mc ec]; intros _ _ H1 H2; try reflexivity;
    try discriminate; destruct c; discriminate.
Qed.


(** ** Rounding in a binary format *)

Section Rounding.
Variables prec emax : Z.
Hypothesis Hprec : 1 < prec.

(** A mantissa that fits the format at its exponent is kept. *)
Lemma round_aux_keep (s : bool) (M E : Z) :
  0 < M ->
  fexp prec emax (Z.log2 M + 1 + E) <= E -> E <= emax - prec ->
  binary_round_aux prec emax s M E loc_Exact = S754_finite s (Z.to_pos M) E.
Proof.
  intros HM Hg HE.
  unfold binary_round_aux, shr_fexp.
  rewrite (Zdigits2_log2 M HM).
  change (shr_record_of_loc M loc_Exact) with (exact_record M).
  rewrite shr_nonpos by lia.
  cbn [shr_m exact_record loc_of_shr_record round_nearest_even].
  rewrite (Zdigits2_log2 M HM).
  change (shr_record_of_loc M loc_Exact) with (exact_record M).
  rewrite shr_nonpos by lia.
  cbn [shr_m exact_record]. destruct M as [|p|p]; try lia.
  replace (E <=? emax - prec) with true by (symmetry; apply Z.leb_le; lia).
  reflexivity.
Qed.

(** A mantissa whose low bits are zero up to the exponent of the format
    loses nothing. *)
Lemma round_aux_exact (s : bool) (m e k : Z) :
  0 < m -> 0 <= k ->
  fexp prec emax (Z.log2 (m * 2 ^ k) + 1 + e) = e + k ->
  e + k <= emax - prec ->
  binary_round_aux prec emax s (m * 2 ^ k) e loc_Exact
  = S754_finite s (Z.to_pos m) (e + k).
Proof.
  intros Hm Hk Hf He.
  assert (Hmk : 0 < m * 2 ^ k)
    by (apply Z.mul_pos_pos; [lia|apply Z.pow_pos_nonneg; lia]).
  unfold binary_round_aux, shr_fexp.
  rewrite (Zdigits2_log2 _ Hmk), Hf.
  replace (e + k - e) with k by lia.
  change (shr_record_of_loc (m * 2 ^ k) loc_Exact)
    with (exact_record (m * 2 ^ k)).
  rewrite (shr_exact m e k Hm Hk).
  cbn [shr_m exact_record loc_of_shr_record round_nearest_even].
  rewrite (Zdigits2_log2 _ Hm).
  assert (Hl : Z.log2 (m * 2 ^ k) = k + Z.log2 m)
    by (apply Z.log2_mul_pow2; lia).
  replace (Z.log2 m + 1 + (e + k)) with (Z.log2 (m * 2 ^ k) + 1 + e) by lia.
  rewrite Hf. rewrite Z.sub_diag. cbn [shr shr_record_of_loc shr_m].
  destruct m as [|p|p]; try lia.
  replace (e + k <=? emax - prec) with true
    by (symmetry; apply Z.leb_le; lia).
  reflexivity.
Qed.

(** Rounding gives one of the two neighbours of the exact value [M * 2^E]
    on the grid of the exponent [g] of the format, the exact value itself
    when it is on the grid: the result is [k * 2^g]. *)
Lemma round_aux_bracket (s : bool) (M E : Z) :
  0 < M ->
  let g := fexp prec emax (Z.log2 M + 1 + E) in
  E <= g -> g <= emax - prec - 1 ->
  exists k,
    (k = M / 2 ^ (g - E)
     \/ (k = M / 2 ^ (g - E) + 1 /\ M mod 2 ^ (g - E) <> 0))
    /\ ((k = 0 /\ binary_round_aux prec emax s M E loc_Exact = S754_zero s)
        \/ exists m e,
             0 < m < 2 ^ prec /\ g <= e <= g + 1 /\ m * 2 ^ (e - g) = k
             /\ binary_round_aux prec emax s M E loc_Exact
                = S754_finite s (Z.to_pos m) e).
Proof.
  intros HM g Hn Hg.
  set (n := g - E). assert (Hn0 : 0 <= n) by (unfold n; lia).
  pose proof (pow2_pos n Hn0) as Hpn.
  assert (Hgmin : emin prec emax <= g) by (unfold g, fexp; lia).
  destruct (Z.eq_dec (M mod 2 ^ n) 0) as [Hd|Hd].
  - set (q := M / 2 ^ n).
    assert (HMq : M = q * 2 ^ n).
    { unfold q. rewrite (Z.div_mod M (2 ^ n)) at 1 by lia. rewrite Hd. ring. }
    assert (Hq : 0 < q) by nia.
    assert (Hqp : q < 2 ^ prec).
    { apply Z.div_lt_upper_bound; [lia|].
      pose proof (Z.log2_spec M HM) as [_ Hup].
      assert (Hle : Z.log2 M + 1 <= n + prec)
        by (unfold n, g, fexp; lia).
      rewrite <- pow2_split by lia.
      eapply Z.lt_le_trans; [exact Hup|].
      apply Z.pow_le_mono_r; lia. }
    exists q. split; [left; reflexivity|]. right.
    exists q, g. split; [lia|]. split; [lia|].
    split; [rewrite Z.sub_diag; ring|].
    rewrite HMq.
    replace g with (E + n) by (unfold n; lia).
    apply round_aux_exact; try lia.
    rewrite <- HMq. fold g. unfold n. lia.
  - set (q := M / 2 ^ n).
    assert (Hq0 : 0 <= q) by (apply Z.div_pos; lia).
    assert (Hprec0 : 0 < 2 ^ prec) by (apply pow2_pos; lia).
    assert (Hq24 : q < 2 ^ prec).
    { apply Z.div_lt_upper_bound; [lia|].
      pose proof (Z.log2_spec M HM) as [_ Hup].
      assert (Hle : Z.log2 M + 1 <= n + prec)
        by (unfold n, g, fexp; lia).
      rewrite <- pow2_split by lia.
      eapply Z.lt_le_trans; [exact Hup|].
      apply Z.pow_le_mono_r; lia. }
    unfold binary_round_aux, shr_fexp.
    rewrite (Zdigits2_log2 M HM). fold g. fold n.
    change (shr_record_of_loc M loc_Exact) with (exact_record M).
    destruct (shr_m_shr M E n ltac:(lia) Hn0) as [Hm1 He1].
    destruct (shr (exact_record M) E n) as [mrs' e'].
    cbn [fst snd] in Hm1, He1. fold q in Hm1.
    replace (E + n) with g in He1 by (unfold n; lia). subst e'.
    rewrite Hm1.
    set (k := round_nearest_even q (loc_of_shr_record mrs')).
    assert (Hk : k = q \/ k = q + 1) by apply round_nearest_even_cases.
    exists k. split.
    { destruct Hk as [Hk|Hk]; [left; exact Hk|right; split; assumption]. }
    change (shr_record_of_loc k loc_Exact) with (exact_record k).
    assert (Hk24 : 0 <= k <= 2 ^ prec) by lia.
    destruct (Z.eq_dec k 0) as [Hz|Hz].
    + left. split; [exact Hz|]. rewrite Hz.
      rewrite shr_nonpos
        by (cbn [Zdigits2]; unfold fexp; lia).
      reflexivity.
    + right. assert (Hkp : 0 < k) by lia.
      rewrite (Zdigits2_log2 k Hkp).
      destruct (Z.eq_dec k (2 ^ prec)) as [Ht|Ht].
      * exists (2 ^ (prec - 1)), (g + 1).
        split.
        { pose proof (pow2_pos (prec - 1) ltac:(lia)).
          assert (2 ^ (prec - 1) < 2 ^ prec)
            by (apply Z.pow_lt_mono_r; lia).
          lia. }
        split; [lia|].
        split.
        { rewrite Ht. replace (g + 1 - g) with 1 by lia.
          rewrite <- pow2_split by lia. f_equal. lia. }
        rewrite Ht. rewrite Z.log2_pow2 by lia.
        replace (fexp prec emax (prec + 1 + g) - g) with 1
          by (unfold fexp; lia).
        replace (2 ^ prec) with (2 ^ (prec - 1) * 2 ^ 1)
          by (rewrite <- pow2_split by lia; f_equal; lia).
        rewrite shr_exact by (try apply pow2_pos; lia).
        cbn [exact_record shr_m].
        pose proof (pow2_pos (prec - 1) ltac:(lia)) as Hpp.
        destruct (2 ^ (prec - 1)) as [|p|p] eqn:Ep; try lia.
        replace (g + 1 <=? emax - prec) with true
          by (symmetry; apply Z.leb_le; lia).
        reflexivity.
      * assert (Hl : Z.log2 k < prec) by (apply Z.log2_lt_pow2; lia).
        exists k, g. split; [lia|]. split; [lia|].
        split; [rewrite Z.sub_diag; ring|].
        rewrite shr_nonpos by (unfold fexp; lia).
        cbn [exact_record shr_m].
        destruct k as [|p|p]; try lia.
        replace (g <=? emax - prec) with true
          by (symmetry; apply Z.leb_le; lia).
        reflexivity.
Qed.

End Rounding.

(** ** The value of a float as a rational *)

Lemma Q2_pos (z : Z) : (0 < 2 ^ z)%Q.
Proof. apply Qpower_0_lt. reflexivity. Qed.

Lemma Q2_add (a b : Z) : (2 ^ (a + b) == 2 ^ a * 2 ^ b)%Q.
Proof. apply Qpower_plus. discriminate. Qed.

Lemma Q2_inj (n : Z) : 0 <= n -> (inject_Z (2 ^ n) == 2 ^ n)%Q.
Proof. intros H. rewrite Zpower_Qpower by exact H. reflexivity. Qed.

Lemma Q2_opp (z : Z) : (2 ^ (- z) == / 2 ^ z)%Q.
Proof. apply Qpower_opp. Qed.

Lemma Q2_le (a b : Z) : a <= b -> (2 ^ a <= 2 ^ b)%Q.
Proof.
  intros H. replace b with (a + (b - a)) by lia. rewrite Q2_add.
  assert (H1 : (1 <= 2 ^ (b - a))%Q).
  { rewrite <- Q2_inj by lia. 
    assert (1 <= 2 ^ (b - a)) by (pose proof (pow2_pos (b - a)); lia).
    rewrite Zle_Qle in H0. exact H0. }
  pose proof (Q2_pos a). nra.
Qed.

Lemma F2Q_finite_pow (s : bool) (m : positive) (e : Z) :
  (F2Q (S754_finite s m e) == inject_Z (cond_Zopp s (Zpos m)) * 2 ^ e)%Q.
Proof.
  unfold F2Q. destruct (Z.leb_spec 0 e).
  - rewrite <- Q2_inj by lia. rewrite <- inject_Z_mult.
    destruct s; cbn [cond_Zopp]; [|reflexivity].
    rewrite Z.mul_opp_l. reflexivity.
  - rewrite Qmake_Qdiv. unfold Qdiv.
    rewrite Z2Pos_id_pos by (apply pow2_pos; lia).
    rewrite Q2_inj by lia. rewrite Q2_opp.
    rewrite Qinv_involutive. reflexivity.
Qed.

Lemma F2Q_finite_Z (s : bool) (M E : Z) :
  0 < M ->
  (F2Q (S754_finite s (Z.to_pos M) E)
   == inject_Z (cond_Zopp s M) * 2 ^ E)%Q.
Proof.
  intros H. rewrite F2Q_finite_pow, Z2Pos_id_pos by exact H. reflexivity.
Qed.

Lemma inject_cond_Zopp (s : bool) (z : Z) :
  (inject_Z (cond_Zopp s z) == (if s then -1 else 1) * inject_Z z)%Q.
Proof.
  destruct s; cbn [cond_Zopp].
  - rewrite inject_Z_opp. ring.
  - ring.
Qed.

Lemma Qabs_inject (z : Z) : (Qabs (inject_Z z) == inject_Z (Z.abs z))%Q.
Proof. unfold Qabs, inject_Z. reflexivity. Qed.

Lemma inject_pos (z : Z) : 0 < z -> (0 < inject_Z z)%Q.
Proof. intros H. change (inject_Z 0 < inject_Z z)%Q. rewrite <- Zlt_Qlt. exact H. Qed.

Lemma inject_nonneg (z : Z) : 0 <= z -> (0 <= inject_Z z)%Q.
Proof. intros H. change (inject_Z 0 <= inject_Z z)%Q. rewrite <- Zle_Qle. exact H. Qed.

Section RoundingError.
Variables prec emax : Z.
Hypothesis Hprec : 1 < prec.

(** The grid step at a value is at most the value's relative precision,
    or the least positive number of the format. *)
Lemma grid_step_bound (M E : Z) :
  0 < M ->
  (2 ^ fexp prec emax (Z.log2 M + 1 + E)
   <= inject_Z M * 2 ^ E * 2 ^ (1 - prec) + 2 ^ emin prec emax)%Q.
Proof.
  intros HM.
  pose proof (Q2_pos E) as HE. pose proof (Q2_pos (1 - prec)) as HP.
  pose proof (Q2_pos (emin prec emax)) as Hm.
  assert (HMq : (0 < inject_Z M)%Q) by (apply inject_pos; exact HM).
  unfold fexp. destruct (Z.max_spec (Z.log2 M + 1 + E - prec) (emin prec emax))
    as [[_ ->]|[_ ->]].
  - assert (0 <= inject_Z M * 2 ^ E * 2 ^ (1 - prec))%Q
      by (apply Qmult_le_0_compat; [apply Qmult_le_0_compat|]; lra).
    lra.
  - replace (Z.log2 M + 1 + E - prec) with (Z.log2 M + (E + (1 - prec)))
      by lia.
    rewrite !Q2_add.
    assert (HL : (2 ^ Z.log2 M <= inject_Z M)%Q).
    { rewrite <- Q2_inj by apply Z.log2_nonneg. rewrite <- Zle_Qle.
      apply Z.log2_spec. exact HM. }
    assert (0 < 2 ^ E * 2 ^ (1 - prec))%Q by (apply Qmult_lt_0_compat; lra).
    rewrite <- (Qmult_assoc (inject_Z M)).
    assert (2 ^ Z.log2 M * (2 ^ E * 2 ^ (1 - prec))
            <= inject_Z M * (2 ^ E * 2 ^ (1 - prec)))%Q
      by (apply Qmult_le_compat_r; lra).
    lra.
Qed.


(** The error of rounding [M * 2^E]: at most a step of the grid, and none
    when the value is on the grid. *)
Lemma round_aux_error (s : bool) (M E : Z) :
  0 < M ->
  let g := fexp prec emax (Z.log2 M + 1 + E) in
  g <= emax - prec - 1 -> E <= emax - prec ->
  let R := binary_round_aux prec emax s M E loc_Exact in
  let P := (inject_Z M * 2 ^ E)%Q in
  exists a,
    has_magnitude prec emax R s a
    /\ (Qabs (a - P) <= 2 ^ g)%Q
    /\ (g <= E \/ M mod 2 ^ (g - E) = 0 -> (a == P)%Q).
Proof.
  intros HM g Hg HE R P.
  assert (Hgmin : emin prec emax <= g) by (unfold g, fexp; lia).
  destruct (Z_le_gt_dec g E) as [Hc|Hc].
  - unfold R. rewrite round_aux_keep by (try exact HM; fold g; lia).
    exists P.
    assert (HP : (0 < P)%Q).
    { unfold P. apply Qmult_lt_0_compat; [|apply Q2_pos].
      apply inject_pos. exact HM. }
    split.
    + right. exists (Z.to_pos M), E. split; [reflexivity|].
      rewrite Z2Pos_id_pos by exact HM.
      split.
      { apply Z.log2_lt_pow2; [exact HM|]. unfold g, fexp in Hc. lia. }
      split; [lia|reflexivity].
    + split; [|intros _; reflexivity].
      apply Qabs_Qle_condition. pose proof (Q2_pos g). split; lra.
  - destruct (round_aux_bracket prec emax Hprec s M E HM
                ltac:(fold g; lia) ltac:(fold g; lia)) as (k & Hk & Hres).
    fold g in Hk, Hres. fold R in Hres.
    set (n := g - E) in *. assert (Hn : 0 < n) by (unfold n; lia).
    pose proof (pow2_pos n ltac:(lia)) as Hpn.
    pose proof (Z.div_mod M (2 ^ n) ltac:(lia)) as Hdm.
    pose proof (Z.mod_pos_bound M (2 ^ n) Hpn) as Hmb.
    assert (Hk0 : 0 <= k).
    { pose proof (Z.div_pos M (2 ^ n) ltac:(lia) Hpn). lia. }
    assert (Herr : Z.abs (k * 2 ^ n - M) <= 2 ^ n).
    { destruct Hk as [Hk|[Hk Hm]]; subst k; nia. }
    assert (Hex : M mod 2 ^ n = 0 -> k * 2 ^ n = M).
    { intros Hz. destruct Hk as [Hk|[Hk Hm]]; [subst k; nia|contradiction]. }
    assert (Hg2 : (2 ^ g == inject_Z (2 ^ n) * 2 ^ E)%Q).
    { rewrite Q2_inj by lia. rewrite <- Q2_add. unfold n.
      replace (g - E + E) with g by lia. reflexivity. }
    assert (Hdiff : (inject_Z k * 2 ^ g - P
                     == inject_Z (k * 2 ^ n - M) * 2 ^ E)%Q).
    { unfold P. rewrite Hg2. unfold Z.sub.
      rewrite inject_Z_plus, inject_Z_opp, inject_Z_mult. ring. }
    assert (Hval : (Qabs (inject_Z k * 2 ^ g - P) <= 2 ^ g)%Q).
    { rewrite Hdiff, Hg2.
      rewrite Qabs_Qmult, Qabs_inject.
      rewrite (Qabs_pos (2 ^ E)) by (pose proof (Q2_pos E); lra).
      apply Qmult_le_compat_r; [|pose proof (Q2_pos E); lra].
      rewrite <- Zle_Qle. exact Herr. }
    assert (Hexq : g <= E \/ M mod 2 ^ n = 0 -> (inject_Z k * 2 ^ g == P)%Q).
    { intros [Hle|Hz]; [lia|].
      assert (Hd0 : (inject_Z k * 2 ^ g - P == 0)%Q).
      { rewrite Hdiff, (Hex Hz), Z.sub_diag. ring. }
      lra. }
    exists (inject_Z k * 2 ^ g)%Q.
    split; [|split; [exact Hval|exact Hexq]].
    destruct Hres as [[Hz Hr]|(m & e & Hm & He & Hme & Hr)].
    + left. split; [exact Hr|]. rewrite Hz. ring.
    + right. exists (Z.to_pos m), e. split; [exact Hr|].
      rewrite Z2Pos_id_pos by lia.
      split; [lia|]. split; [lia|].
      rewrite <- Hme. rewrite inject_Z_mult.
      rewrite Q2_inj by lia.
      replace e with ((e - g) + g) at 2 by lia. rewrite Q2_add. ring.
Qed.

(** The value of a number of sign [s] and magnitude [a]. *)
Lemma has_magnitude_value (R : spec_float) (s : bool) (a : Q) :
  has_magnitude prec emax R s a ->
  is_finite R = true /\ (F2Q R == (if s then -1 else 1) * a)%Q
  /\ (0 <= a)%Q.
Proof.
  intros [[-> Ha]|(m & e & -> & _ & _ & Ha)].
  - split; [reflexivity|]. split; [cbn [F2Q]; rewrite Ha; ring|lra].
  - split; [reflexivity|]. split.
    + rewrite F2Q_finite_pow, inject_cond_Zopp, Ha. ring.
    + rewrite Ha. apply Qmult_le_0_compat;
        [apply inject_nonneg; lia|pose proof (Q2_pos e); lra].
Qed.

End RoundingError.

Lemma Q2_lt_inv (a b : Z) : (2 ^ a < 2 ^ b)%Q -> a < b.
Proof.
  intros H. destruct (Z_lt_le_dec a b) as [Hl|Hl]; [exact Hl|].
  pose proof (Q2_le b a Hl). lra.
Qed.

(** A number below [2^B] has its leading bit below [B]. *)
Lemma magnitude_exponent (m : positive) (e B : Z) :
  (inject_Z (Zpos m) * 2 ^ e < 2 ^ B)%Q -> Z.log2 (Zpos m) + e < B.
Proof.
  intros H. apply Q2_lt_inv. rewrite Q2_add.
  assert (HL : (2 ^ Z.log2 (Zpos m) <= inject_Z (Zpos m))%Q).
  { rewrite <- Q2_inj by apply Z.log2_nonneg. rewrite <- Zle_Qle.
    apply Z.log2_spec. lia. }
  pose proof (Q2_pos e).
  assert (2 ^ Z.log2 (Zpos m) * 2 ^ e <= inject_Z (Zpos m) * 2 ^ e)%Q
    by (apply Qmult_le_compat_r; lra).
  lra.
Qed.

Lemma Zpos_iter_xO (m p : positive) :
  Zpos (Pos.iter xO m p) = Zpos m * 2 ^ Zpos p.
Proof.
  change (Pos.iter xO m p) with (shift_pos p m).
  rewrite shift_pos_correct, Zpower_pos_nat, Zpower_nat_Z.
  rewrite positive_nat_Z. ring.
Qed.

Section Operations.
Variables prec emax : Z.
Hypothesis Hprec : 1 < prec.


(** In the normal range the grid step is at most the relative precision of
    the format. *)
Lemma grid_step_normal (M E : Z) :
  0 < M -> emin prec emax <= Z.log2 M + 1 + E - prec ->
  (2 ^ fexp prec emax (Z.log2 M + 1 + E)
   <= inject_Z M * 2 ^ E * 2 ^ (1 - prec))%Q.
Proof.
  intros HM Hn. unfold fexp. rewrite Z.max_l by lia.
  replace (Z.log2 M + 1 + E - prec) with (Z.log2 M + (E + (1 - prec)))
    by lia.
  rewrite !Q2_add.
  assert (HL : (2 ^ Z.log2 M <= inject_Z M)%Q).
  { rewrite <- Q2_inj by apply Z.log2_nonneg. rewrite <- Zle_Qle.
    apply Z.log2_spec. exact HM. }
  pose proof (Q2_pos E). pose proof (Q2_pos (1 - prec)).
  assert (0 < 2 ^ E * 2 ^ (1 - prec))%Q by (apply Qmult_lt_0_compat; lra).
  rewrite <- (Qmult_assoc (inject_Z M)).
  apply Qmult_le_compat_r; lra.
Qed.

(** The product of two finite numbers. *)
Lemma mul_error (sx sy : bool) (mx my : positive) (ex ey : Z) :
  let M := Zpos (mx * my) in
  let E := ex + ey in
  let g := fexp prec emax (Z.log2 M + 1 + E) in
  g <= emax - prec - 1 -> E <= emax - prec ->
  let P := (inject_Z (Zpos mx) * 2 ^ ex * (inject_Z (Zpos my) * 2 ^ ey))%Q in
  exists a,
    has_magnitude prec emax (SFmul prec emax (S754_finite sx mx ex) (S754_finite sy my ey))
      (xorb sx sy) a
    /\ (Qabs (a - P) <= 2 ^ g)%Q
    /\ (Qabs (a - P) <= P * 2 ^ (1 - prec) + 2 ^ emin prec emax)%Q.
Proof.
  intros M E g Hg HE P.
  destruct (round_aux_error prec emax Hprec (xorb sx sy) M E
              ltac:(unfold M; lia) Hg HE) as (a & Ha & Herr & _).
  fold g in Herr.
  assert (HP : (P == inject_Z M * 2 ^ E)%Q).
  { unfold P, M, E. rewrite Pos2Z.inj_mul, inject_Z_mult, Q2_add. ring. }
  exists a. split; [exact Ha|].
  rewrite HP. split; [exact Herr|].
  eapply Qle_trans; [exact Herr|].
  apply grid_step_bound. unfold M. lia.
Qed.

(** The rounding of a number to the format. *)
Lemma round_error (s : bool) (m : positive) (e : Z) :
  let g := fexp prec emax (Z.log2 (Zpos m) + 1 + e) in
  g <= emax - prec - 1 ->
  let P := (inject_Z (Zpos m) * 2 ^ e)%Q in
  exists a,
    has_magnitude prec emax (binary_round prec emax s m e) s a
    /\ (Qabs (a - P) <= 2 ^ g)%Q
    /\ (Qabs (a - P) <= P * 2 ^ (1 - prec) + 2 ^ emin prec emax)%Q
    /\ (g <= e -> (a == P)%Q).
Proof.
  intros g Hg P.
  assert (Hgmin : emin prec emax <= g) by (unfold g, fexp; lia).
  unfold binary_round, shl_align.
  change (Zpos (digits2_pos m)) with (Zdigits2 (Zpos m)).
  rewrite Zdigits2_log2 by lia. fold g.
  destruct (g - e) as [|p|p] eqn:Hd.
  - destruct (round_aux_error prec emax Hprec s (Zpos m) e ltac:(lia)
                ltac:(fold g; lia) ltac:(lia)) as (a & Ha & Herr & Hex).
    fold g in Herr, Hex. fold P in Herr, Hex.
    exists a. split; [exact Ha|]. split; [exact Herr|].
    split; [|intros _; apply Hex; left; lia].
    eapply Qle_trans; [exact Herr|]. apply grid_step_bound. lia.
  - destruct (round_aux_error prec emax Hprec s (Zpos m) e ltac:(lia)
                ltac:(fold g; lia) ltac:(lia)) as (a & Ha & Herr & Hex).
    fold g in Herr, Hex. fold P in Herr, Hex.
    exists a. split; [exact Ha|]. split; [exact Herr|].
    split; [|intros Hle; lia].
    eapply Qle_trans; [exact Herr|]. apply grid_step_bound. lia.
  - assert (Hlog : Z.log2 (Zpos (Pos.iter xO m p)) + 1 + g
                   = Z.log2 (Zpos m) + 1 + e).
    { rewrite Zpos_iter_xO, Z.log2_mul_pow2 by lia. lia. }
    destruct (round_aux_error prec emax Hprec s (Zpos (Pos.iter xO m p)) g
                ltac:(lia) ltac:(rewrite Hlog; fold g; lia) ltac:(lia))
      as (a & Ha & Herr & Hex).
    rewrite Hlog in Herr, Hex. fold g in Herr, Hex.
    assert (HP : (inject_Z (Zpos (Pos.iter xO m p)) * 2 ^ g == P)%Q).
    { assert (He : (2 ^ e == 2 ^ Zpos p * 2 ^ g)%Q).
      { rewrite <- Q2_add. replace (Zpos p + g) with e by lia. reflexivity. }
      unfold P. rewrite Zpos_iter_xO, inject_Z_mult.
      rewrite Q2_inj by lia. rewrite He. ring. }
    rewrite HP in Herr, Hex.
    exists a. split; [exact Ha|].
    assert (Hx : (a == P)%Q) by (apply Hex; left; lia).
    pose proof (Q2_pos g). pose proof (Q2_pos (emin prec emax)).
    pose proof (Q2_pos (1 - prec)).
    assert (HP0 : (0 < P)%Q).
    { unfold P. apply Qmult_lt_0_compat; [apply inject_pos; lia|apply Q2_pos]. }
    assert (0 <= P * 2 ^ (1 - prec))%Q
      by (apply Qmult_le_0_compat; lra).
    split; [exact Herr|]. split; [|intros _; exact Hx].
    apply Qabs_Qle_condition. split; lra.
Qed.

End Operations.


Lemma Qtrunc_comp (x y : Q) : (x == y)%Q -> Qtrunc x = Qtrunc y.
Proof.
  intros H. unfold Qtrunc.
  assert (Hb : Qle_bool 0 x = Qle_bool 0 y).
  { destruct (Qle_bool 0 x) eqn:Hx, (Qle_bool 0 y) eqn:Hy; try reflexivity.
    - apply Qle_bool_iff in Hx. rewrite H in Hx. apply Qle_bool_iff in Hx.
      congruence.
    - apply Qle_bool_iff in Hy. rewrite <- H in Hy. apply Qle_bool_iff in Hy.
      congruence. }
  rewrite Hb. destruct (Qle_bool 0 y); [apply Qfloor_comp|apply Qceiling_comp];
    exact H.
Qed.

(** ** The two formats *)

Lemma prec32 : 1 < 24. Proof. lia. Qed.
Lemma prec64 : 1 < 53. Proof. lia. Qed.

Lemma xorb_false_r' (s : bool) : xorb s false = s.
Proof. destruct s; reflexivity. Qed.

(** Widening a binary32 number to binary64 keeps its value. *)
Lemma f32_to_f64_exact (x : float32_t) (s : bool) (a : Q) :
  has_magnitude 24 128 x s a -> has_magnitude 53 1024 (f32_to_f64 x) s a.
Proof.
  intros [[-> Ha]|(m & e & -> & Hm & He & Ha)].
  - left. split; [reflexivity|exact Ha].
  - unfold emin in He. cbn [f32_to_f64].
    assert (Hl : Z.log2 (Zpos m) < 24) by (apply Z.log2_lt_pow2; lia).
    pose proof (Z.log2_nonneg (Zpos m)) as Hl0.
    destruct (round_error 53 1024 prec64 s m e
                ltac:(unfold fexp, emin; lia))
      as (a' & Ha' & _ & _ & Hex).
    assert (Hx : (a' == inject_Z (Zpos m) * 2 ^ e)%Q)
      by (apply Hex; unfold fexp, emin; lia).
    destruct Ha' as [[Hr Hz]|(m' & e' & Hr & Hm' & He' & Hv)].
    + left. split; [exact Hr|]. rewrite Ha, <- Hx. exact Hz.
    + right. exists m', e'. split; [exact Hr|]. split; [exact Hm'|].
      split; [exact He'|]. rewrite Ha, <- Hx. exact Hv.
Qed.

(** Narrowing a binary64 number to binary32. *)
Lemma f64_to_f32_error (y : float64_t) (s : bool) (a : Q) :
  has_magnitude 53 1024 y s a -> (a < 2 ^ 127)%Q ->
  exists a',
    has_magnitude 24 128 (f64_to_f32 y) s a'
    /\ (Qabs (a' - a) <= a * 2 ^ (-23) + 2 ^ (-149))%Q.
Proof.
  intros [[-> Ha]|(m & e & -> & Hm & He & Ha)] Hb.
  - exists 0%Q. split; [left; split; reflexivity|].
    rewrite Ha. apply Qabs_Qle_condition.
    pose proof (Q2_pos (-23)). pose proof (Q2_pos (-149)). split; lra.
  - cbn [f64_to_f32]. rewrite Ha in Hb.
    pose proof (magnitude_exponent m e 127 Hb) as Hl.
    destruct (round_error 24 128 prec32 s m e
                ltac:(unfold fexp, emin; lia))
      as (a' & Ha' & _ & Herr & _).
    exists a'. split; [exact Ha'|]. rewrite Ha. exact Herr.
Qed.

(** The product of a binary64 number and a positive constant. *)
Lemma mul64_error (x : float64_t) (s : bool) (a : Q) (mk : positive)
    (ek A : Z) :
  has_magnitude 53 1024 x s a -> (a < 2 ^ A)%Q ->
  A + Z.log2 (Zpos mk) + ek <= 1021 -> A + ek <= 971 ->
  let K := (inject_Z (Zpos mk) * 2 ^ ek)%Q in
  exists a',
    has_magnitude 53 1024 (B64.mul x (S754_finite false mk ek)) s a'
    /\ (Qabs (a' - a * K) <= a * K * 2 ^ (-52) + 2 ^ (-1074))%Q.
Proof.
  intros [[-> Ha]|(m & e & -> & Hm & He & Ha)] Hb HA1 HA2 K.
  - exists 0%Q. split.
    + left. split; [|reflexivity]. cbn. rewrite xorb_false_r'. reflexivity.
    + rewrite Ha. apply Qabs_Qle_condition.
      pose proof (Q2_pos (-52)). pose proof (Q2_pos (-1074)). split; lra.
  - rewrite Ha in Hb.
    pose proof (magnitude_exponent m e A Hb) as Hl.
    pose proof (Z.log2_nonneg (Zpos m)) as Hl0.
    pose proof (Z.log2_mul_above (Zpos m) (Zpos mk) ltac:(lia) ltac:(lia))
      as Hlm.
    destruct (mul_error 53 1024 prec64 s false m mk e ek
                ltac:(rewrite Pos2Z.inj_mul; unfold fexp, emin; lia)
                ltac:(lia))
      as (a' & Ha' & _ & Herr).
    rewrite xorb_false_r' in Ha'.
    exists a'. split; [exact Ha'|].
    unfold K. rewrite Ha. exact Herr.
Qed.

(** The conversion of an integer to binary32. *)
Lemma of_Z_error (q : Z) :
  Z.abs q < 2 ^ 127 ->
  exists a,
    has_magnitude 24 128 (B32.of_Z q) (q <? 0) a
    /\ (Qabs (a - inject_Z (Z.abs q)) <= inject_Z (Z.abs q) * 2 ^ (-23))%Q.
Proof.
  intros Hq. unfold B32.of_Z, binary_normalize, B32.prec, B32.emax.
  destruct q as [|p|p].
  - exists 0%Q. split; [left; split; reflexivity|].
    apply Qabs_Qle_condition. cbn. split; discriminate.
  - cbn [Z.abs Z.ltb Z.compare] in *.
    assert (Hl : Z.log2 (Zpos p) < 127) by (apply Z.log2_lt_pow2; lia).
    pose proof (Z.log2_nonneg (Zpos p)) as Hl0.
    destruct (round_error 24 128 prec32 false p 0
                ltac:(unfold fexp, emin; lia))
      as (a & Ha & Herr & _ & Hex).
    exists a. split; [exact Ha|].
    setoid_replace (inject_Z (Zpos p)) with (inject_Z (Zpos p) * 2 ^ 0)%Q
      by (change (2 ^ 0)%Q with 1%Q; ring).
    destruct (Z_le_gt_dec (fexp 24 128 (Z.log2 (Zpos p) + 1 + 0)) 0) as [Hc|Hc].
    + rewrite (Hex Hc).
      pose proof (Q2_pos (-23)).
      assert (0 <= inject_Z (Zpos p) * 2 ^ 0 * 2 ^ (-23))%Q.
      { apply Qmult_le_0_compat; [|lra].
        apply Qmult_le_0_compat; [apply inject_nonneg; lia|].
        pose proof (Q2_pos 0). lra. }
      apply Qabs_Qle_condition. split; lra.
    + eapply Qle_trans; [exact Herr|].
      apply (grid_step_normal 24 128 (Zpos p) 0); [lia|].
      unfold fexp, emin in *. lia.
  - cbn [Z.abs Z.ltb Z.compare] in *.
    assert (Hl : Z.log2 (Zpos p) < 127) by (apply Z.log2_lt_pow2; lia).
    pose proof (Z.log2_nonneg (Zpos p)) as Hl0.
    destruct (round_error 24 128 prec32 true p 0
                ltac:(unfold fexp, emin; lia))
      as (a & Ha & Herr & _ & Hex).
    exists a. split; [exact Ha|].
    setoid_replace (inject_Z (Zpos p)) with (inject_Z (Zpos p) * 2 ^ 0)%Q
      by (change (2 ^ 0)%Q with 1%Q; ring).
    destruct (Z_le_gt_dec (fexp 24 128 (Z.log2 (Zpos p) + 1 + 0)) 0) as [Hc|Hc].
    + rewrite (Hex Hc).
      pose proof (Q2_pos (-23)).
      assert (0 <= inject_Z (Zpos p) * 2 ^ 0 * 2 ^ (-23))%Q.
      { apply Qmult_le_0_compat; [|lra].
        apply Qmult_le_0_compat; [apply inject_nonneg; lia|].
        pose proof (Q2_pos 0). lra. }
      apply Qabs_Qle_condition. split; lra.
    + eapply Qle_trans; [exact Herr|].
      apply (grid_step_normal 24 128 (Zpos p) 0); [lia|].
      unfold fexp, emin in *. lia.
Qed.

(** A number of the format has a magnitude. *)
Lemma bounded_magnitude (prec emax : Z) (s : bool) (m : positive) (e : Z) :
  0 < prec ->
  bounded prec emax m e = true ->
  has_magnitude prec emax (S754_finite s m e) s
    (inject_Z (Zpos m) * 2 ^ e)%Q.
Proof.
  intros Hp Hb. unfold bounded, canonical_mantissa in Hb.
  apply andb_prop in Hb. destruct Hb as [H1 H2].
  apply Z.eqb_eq in H1. apply Z.leb_le in H2.
  change (Zpos (digits2_pos m)) with (Zdigits2 (Zpos m)) in H1.
  rewrite Zdigits2_log2 in H1 by lia.
  right. exists m, e. split; [reflexivity|].
  split.
  - apply Z.log2_lt_pow2; [lia|]. unfold fexp in H1. lia.
  - split; [unfold fexp in H1; lia|reflexivity].
Qed.

Lemma valid_magnitude (prec emax : Z) (x : spec_float) :
  0 < prec ->
  valid_binary prec emax x = true -> is_finite x = true ->
  exists s a, has_magnitude prec emax x s a.
Proof.
  intros Hp Hv Hf. destruct x as [s|s| |s m e]; try discriminate.
  - exists s, 0%Q. left. split; reflexivity.
  - exists s, (inject_Z (Zpos m) * 2 ^ e)%Q.
    apply bounded_magnitude; assumption.
Qed.

(** ** The integer part *)

Lemma Qtrunc_inject (z : Z) : Qtrunc (inject_Z z) = z.
Proof.
  unfold Qtrunc. destruct (Qle_bool 0 (inject_Z z));
    [apply Qfloor_Z|apply Qceiling_Z].
Qed.

Lemma Ztrunc_Qtrunc (x : spec_float) :
  is_finite x = true -> Ztrunc x = Qtrunc (F2Q x).
Proof.
  destruct x as [s|s| |s m e]; try discriminate; intros _.
  - reflexivity.
  - rewrite Ztrunc_finite. unfold F2Q, Zfloor_scaled.
    destruct (Z.leb_spec 0 e).
    + rewrite Qtrunc_inject. reflexivity.
    + pose proof (pow2_pos (- e) ltac:(lia)) as Hp.
      unfold Qtrunc. destruct s; cbn [cond_Zopp].
      * assert (Hb : Qle_bool 0 (Z.neg m # Z.to_pos (2 ^ (- e))) = false).
        { apply not_true_is_false. intros Hb. apply Qle_bool_iff in Hb.
          unfold Qle in Hb. cbn in Hb. lia. }
        change (- Zpos m) with (Zneg m). rewrite Hb.
        unfold Qceiling, Qfloor. cbn [Qopp Qnum Qden Z.opp].
        rewrite Z2Pos_id_pos by exact Hp. reflexivity.
      * assert (Hb : Qle_bool 0 (Zpos m # Z.to_pos (2 ^ (- e))) = true).
        { apply Qle_bool_iff. unfold Qle. cbn. lia. }
        rewrite Hb. unfold Qfloor.
        rewrite Z2Pos_id_pos by exact Hp. reflexivity.
Qed.

(** The integer part is not larger than the number. *)
Lemma Ztrunc_magnitude (s : bool) (m : positive) (e B : Z) :
  0 <= B ->
  (inject_Z (Zpos m) * 2 ^ e < 2 ^ B)%Q ->
  - 2 ^ B < Ztrunc (S754_finite s m e) < 2 ^ B.
Proof.
  intros HB H. rewrite Ztrunc_finite.
  assert (Hz : 0 <= Zfloor_scaled (Zpos m) e < 2 ^ B).
  { unfold Zfloor_scaled. destruct (Z.leb_spec 0 e).
    - pose proof (pow2_pos e ltac:(lia)).
      split; [nia|]. rewrite Zlt_Qlt, inject_Z_mult, !Q2_inj by lia.
      exact H.
    - pose proof (pow2_pos (- e) ltac:(lia)) as Hp.
      split; [apply Z.div_pos; lia|].
      apply Z.div_lt_upper_bound; [exact Hp|].
      rewrite Zlt_Qlt, !inject_Z_mult, !Q2_inj by lia.
      assert (He : (2 ^ e * 2 ^ (- e) == 1)%Q).
      { rewrite <- Q2_add. replace (e + - e) with 0 by lia. reflexivity. }
      pose proof (Q2_pos (- e)). pose proof (Q2_pos e).
      assert (inject_Z (Zpos m) * 2 ^ e * 2 ^ (- e) < 2 ^ B * 2 ^ (- e))%Q
        by (apply Qmult_lt_compat_r; lra).
      setoid_replace (inject_Z (Zpos m))
        with (inject_Z (Zpos m) * 2 ^ e * 2 ^ (- e))%Q
        by (rewrite <- Qmult_assoc, He; ring).
      lra. }
  destruct s; cbn [cond_Zopp]; lia.
Qed.

(** [FLOAT_TO_Q8_23]: the integer part of [x * 2^8], on every platform. *)
Lemma FLOAT_TO_Q8_23_trunc (u : float32_t -> Z) (x : float32_t) (s : bool)
    (a : Q) :
  has_magnitude 24 128 x s a -> (a < 2 ^ 22)%Q ->
  FLOAT_TO_Q8_23 u x = Qtrunc (F2Q x * 256).
Proof.
  intros Hx Ha. unfold FLOAT_TO_Q8_23.
  change (B32.of_Z Q8_MULTIPLIER) with (S754_finite false 8388608 (-15)).
  destruct Hx as [[-> Hz]|(m & e & -> & Hm & He & Hv)].
  - cbn. reflexivity.
  - unfold emin in He.
    assert (Hl : Z.log2 (Zpos m) < 24) by (apply Z.log2_lt_pow2; lia).
    pose proof (Z.log2_nonneg (Zpos m)) as Hl0.
    rewrite Hv in Ha.
    pose proof (magnitude_exponent m e 22 Ha) as HB.
    set (M := Zpos (m * 8388608)).
    assert (EM : M = Zpos m * 2 ^ 23) by reflexivity.
    assert (HlM : Z.log2 M = Z.log2 (Zpos m) + 23)
      by (rewrite EM, Z.log2_mul_pow2 by lia; lia).
    destruct (round_aux_error 24 128 prec32 (xorb s false) M (e + -15)
                ltac:(unfold M; lia)
                ltac:(rewrite HlM; unfold fexp, emin; lia) ltac:(lia))
      as (a3 & Ha3 & _ & Hex).
    assert (Hx3 : (a3 == inject_Z M * 2 ^ (e + -15))%Q).
    { apply Hex. rewrite HlM.
      set (g := fexp 24 128 (Z.log2 (Zpos m) + 23 + 1 + (e + -15))).
      destruct (Z_le_gt_dec g (e + -15)) as [Hc|Hc]; [left; exact Hc|right].
      assert (Hn : 0 < g - (e + -15) <= 23) by (unfold g, fexp, emin in *; lia).
      rewrite EM.
      replace (2 ^ 23) with (2 ^ (23 - (g - (e + -15))) * 2 ^ (g - (e + -15)))
        by (rewrite <- pow2_split by lia; f_equal; lia).
      rewrite Z.mul_assoc. apply Z.mod_mul.
      pose proof (pow2_pos (g - (e + -15)) ltac:(lia)). lia. }
    assert (Hval : (a3 == a * 256)%Q).
    { rewrite Hx3, Hv, EM, inject_Z_mult, Q2_add.
      change (inject_Z (2 ^ 23)) with (8388608 # 1)%Q.
      setoid_replace (2 ^ (-15))%Q with (1 # 32768)%Q by reflexivity.
      field. }
    rewrite xorb_false_r' in Ha3.
    change (B32.mul (S754_finite s m e) (S754_finite false 8388608 (-15)))
      with (binary_round_aux 24 128 (xorb s false) M (e + -15) loc_Exact).
    rewrite xorb_false_r'.
    assert (HF : (F2Q (S754_finite s m e) * 256
                  == (if s then -1 else 1) * a3)%Q).
    { rewrite F2Q_finite_pow, inject_cond_Zopp, Hval, Hv. ring. }
    destruct Ha3 as [[Hr Hz]|(m3 & e3 & Hr & Hm3 & He3 & Hv3)].
    + rewrite Hr. cbn [f32_to_s32].
      rewrite (Qtrunc_comp _ 0%Q) by (rewrite HF, Hz; ring).
      reflexivity.
    + rewrite Hr.
      assert (Hb3 : (inject_Z (Zpos m3) * 2 ^ e3 < 2 ^ 30)%Q).
      { rewrite <- Hv3, Hval.
        setoid_replace (2 ^ 30)%Q with (2 ^ 22 * 256)%Q by reflexivity.
        lra. }
      pose proof (Ztrunc_magnitude s m3 e3 30 ltac:(lia) Hb3) as Hr3.
      rewrite f32_to_s32_finite
        by (unfold INT32_MIN, INT32_MAX;
            change (2 ^ 30) with 1073741824 in Hr3; lia).
      rewrite Ztrunc_Qtrunc by reflexivity.
      apply Qtrunc_comp.
      rewrite HF, F2Q_finite_pow, inject_cond_Zopp, Hv3. ring.
Qed.

(** ** The scaling of the arc tangent operand *)

Lemma atan_scaling_float :
  ATAN_TANH_IN_SCALING = S754_finite false 9006495567299215 (-46).
Proof. reflexivity. Qed.

(** Powers of two as fractions, for linear arithmetic. *)
Ltac pow2_fractions :=
  repeat match goal with
         | H : context [(2 ^ Zneg ?p)%Q] |- _ =>
             let v := eval vm_compute in (Qred (2 ^ Zneg p)%Q) in
             setoid_replace (2 ^ Zneg p)%Q with v in H by reflexivity
         | H : context [(2 ^ Zpos ?p)%Q] |- _ =>
             let v := eval vm_compute in (Qred (2 ^ Zpos p)%Q) in
             setoid_replace (2 ^ Zpos p)%Q with v in H by reflexivity
         | |- context [(2 ^ Zneg ?p)%Q] =>
             let v := eval vm_compute in (Qred (2 ^ Zneg p)%Q) in
             setoid_replace (2 ^ Zneg p)%Q with v by reflexivity
         | |- context [(2 ^ Zpos ?p)%Q] =>
             let v := eval vm_compute in (Qred (2 ^ Zpos p)%Q) in
             setoid_replace (2 ^ Zpos p)%Q with v by reflexivity
         end.

Lemma magnitude_positive (prec emax : Z) (s : bool) (m : positive) (e : Z)
    (a : Q) :
  emin prec emax <= e -> (a == inject_Z (Zpos m) * 2 ^ e)%Q ->
  (2 ^ emin prec emax <= a)%Q.
Proof.
  intros He Ha. rewrite Ha.
  pose proof (Q2_le _ _ He). pose proof (Q2_pos e).
  assert (1 <= inject_Z (Zpos m))%Q
    by (change 1%Q with (inject_Z 1); rewrite <- Zle_Qle; lia).
  assert (1 * 2 ^ e <= inject_Z (Zpos m) * 2 ^ e)%Q
    by (apply Qmult_le_compat_r; lra).
  lra.
Qed.

Lemma scaled_numerator (v : float32_t) :
  B32.valid v = true ->
  B32.leb IN_ATAN_MIN v = true -> B32.leb v IN_ATAN_MAX = true ->
  let num := f64_to_f32 (B64.mul (f32_to_f64 v) ATAN_TANH_IN_SCALING) in
  (exists s a, has_magnitude 24 128 num s a /\ (a < 2 ^ 22)%Q)
  /\ (Qabs (F2Q num - F2Q v * (12799 # 100))
      <= Qabs (F2Q v) * (12799 # 100) * (1 # 4194304) + 2 ^ (-149))%Q.
Proof.
  intros Vv Hlo Hhi num.
  assert (Fv : is_finite v = true)
    by (apply (leb_finite IN_ATAN_MIN IN_ATAN_MAX); auto).
  apply leb_Qle in Hlo; [|reflexivity|exact Vv|reflexivity|exact Fv].
  apply leb_Qle in Hhi; [|exact Vv|reflexivity|exact Fv|reflexivity].
  assert (Emin : (F2Q IN_ATAN_MIN == -57)%Q) by reflexivity.
  assert (Emax : (F2Q IN_ATAN_MAX == 57)%Q) by reflexivity.
  rewrite Emin in Hlo. rewrite Emax in Hhi.
  destruct (valid_magnitude 24 128 v ltac:(lia) Vv Fv) as (s & a & Hv).
  destruct (has_magnitude_value 24 128 v s a Hv) as (_ & Fq & Ha0).
  assert (Ha57 : (a <= 57)%Q) by (destruct s; lra).
  destruct Hv as [[Ev Hz]|(m & e & Ev & Hm & He & Hva)].
  - subst v. subst num.
    assert (En : f64_to_f32 (B64.mul (f32_to_f64 (S754_zero s))
                               ATAN_TANH_IN_SCALING) = S754_zero s)
      by (destruct s; reflexivity).
    rewrite En. split.
    + exists s, 0%Q. split; [left; split; reflexivity|reflexivity].
    + cbn [F2Q]. apply Qabs_Qle_condition. cbn. split; discriminate.
  - pose proof (magnitude_positive 24 128 s m e a (proj1 He) Hva) as Hpos.
    assert (Hv : has_magnitude 24 128 v s a).
    { right. exists m, e. repeat split; try assumption; apply He. }
    pose proof (f32_to_f64_exact v s a Hv) as H64.
    assert (Ha6 : (a < 2 ^ 6)%Q) by (pow2_fractions; lra).
    destruct (mul64_error (f32_to_f64 v) s a 9006495567299215 (-46) 6
                H64 Ha6 ltac:(cbn; lia) ltac:(lia))
      as (a1 & H1 & E1).
    cbv zeta in E1. rewrite <- atan_scaling_float in H1.
    setoid_replace (inject_Z 9006495567299215 * 2 ^ (-46))%Q
      with (9006495567299215 # 70368744177664)%Q in E1 by reflexivity.
    apply Qabs_Qle_condition in E1.
    change (2 ^ emin 24 128)%Q with (2 ^ (-149))%Q in Hpos. pow2_fractions.
    destruct (has_magnitude_value 53 1024 _ s a1 H1) as (_ & _ & Ha1).
    assert (Ha1b : (a1 < 2 ^ 127)%Q) by (pow2_fractions; lra).
    destruct (f64_to_f32_error _ s a1 H1 Ha1b) as (an & Hn & En).
    fold num in Hn.
    apply Qabs_Qle_condition in En. pow2_fractions.
    destruct (has_magnitude_value 24 128 num s an Hn) as (_ & Fn & Han).
    split.
    + exists s, an. split; [exact Hn|]. pow2_fractions. lra.
    + rewrite Fn, Fq.
      setoid_replace (Qabs ((if s then -1 else 1) * a)) with a
        by (rewrite Qabs_Qmult, (Qabs_pos a Ha0); destruct s;
            [change (Qabs (-1)) with 1%Q|change (Qabs 1) with 1%Q]; ring).
      setoid_replace ((if s then -1 else 1) * an
                      - (if s then -1 else 1) * a * (12799 # 100))%Q
        with ((if s then -1 else 1) * (an - a * (12799 # 100)))%Q by ring.
      rewrite Qabs_Qmult.
      setoid_replace (Qabs (if s then -1 else 1)) with 1%Q
        by (destruct s; reflexivity).
      rewrite Qmult_1_l. apply Qabs_Qle_condition. split; lra.
Qed.

(** ** From the Q31 result to degrees *)

Lemma Q31_radians_float :
  B64.div PI_LITERAL (B64.of_Z Q31_MULTIPLIER)
  = S754_finite false 7074237752952144 (-82).
Proof. vm_compute. reflexivity. Qed.

Lemma RAD_DEG_float :
  RAD_DEG_MULTIPLIER = S754_finite false 8063664100978968 (-47).
Proof. reflexivity. Qed.

Lemma signed_difference (s : bool) (x y : Q) :
  (Qabs ((if s then -1 else 1) * x - (if s then -1 else 1) * y)
   == Qabs (x - y))%Q.
Proof.
  setoid_replace ((if s then -1 else 1) * x - (if s then -1 else 1) * y)%Q
    with ((if s then -1 else 1) * (x - y))%Q by ring.
  rewrite Qabs_Qmult.
  setoid_replace (Qabs (if s then -1 else 1)) with 1%Q
    by (destruct s; reflexivity).
  ring.
Qed.

Lemma inject_sign (q : Z) :
  (inject_Z q == (if q <? 0 then -1 else 1) * inject_Z (Z.abs q))%Q.
Proof.
  destruct q as [|p|p]; cbn [Z.ltb Z.compare Z.abs].
  - reflexivity.
  - ring.
  - change (inject_Z (Zneg p)) with (- inject_Z (Zpos p))%Q. ring.
Qed.

(** The printed accelerator result: the Q31 number [q], that is [q / 2^31]
    half turns, in degrees. *)
Lemma cordic_degrees (q : Z) :
  INT32_MIN <= q <= INT32_MAX ->
  let d := FLOAT_RAD_TO_DEG (Q31_TO_DEG_FLOAT q) in
  is_finite d = true
  /\ (Qabs (F2Q d - inject_Z q * (180 # 2147483648))
      <= inject_Z (Z.abs q) * (180 # 2147483648) * (1 # 4194304))%Q.
Proof.
  intros Hq d. unfold INT32_MIN, INT32_MAX in Hq.
  destruct (Z.eq_dec q 0) as [Hz|Hz].
  - subst q. split; [reflexivity|]. vm_compute. discriminate.
  - destruct (of_Z_error q ltac:(change (2 ^ 127) with
        170141183460469231731687303715884105728; lia)) as (a0 & H0 & E0).
    set (s := q <? 0) in *.
    set (Q := inject_Z (Z.abs q)) in *.
    assert (HQ1 : (1 <= Q)%Q).
    { unfold Q. change 1%Q with (inject_Z 1). rewrite <- Zle_Qle. lia. }
    assert (HQ2 : (Q <= 2147483648)%Q).
    { unfold Q. change 2147483648%Q with (inject_Z 2147483648).
      rewrite <- Zle_Qle. lia. }
    apply Qabs_Qle_condition in E0. pow2_fractions.
    pose proof (f32_to_f64_exact _ s a0 H0) as H64.
    assert (Hb0 : (a0 < 2 ^ 32)%Q) by (pow2_fractions; lra).
    destruct (mul64_error _ s a0 7074237752952144 (-82) 32 H64 Hb0
                ltac:(cbn; lia) ltac:(lia)) as (a1 & H1 & E1).
    cbv zeta in E1. rewrite <- Q31_radians_float in H1.
    setoid_replace (inject_Z 7074237752952144 * 2 ^ (-82))%Q
      with (Qred (inject_Z 7074237752952144 * 2 ^ (-82)))%Q in E1
      by (symmetry; apply Qred_correct).
    let v := eval vm_compute in
      (Qred (inject_Z 7074237752952144 * 2 ^ (-82)))%Q in
    change (Qred (inject_Z 7074237752952144 * 2 ^ (-82)))%Q with v in E1.
    apply Qabs_Qle_condition in E1. pow2_fractions.
    assert (Hb1 : (a1 < 2 ^ 2)%Q) by (pow2_fractions; lra).
    destruct (mul64_error _ s a1 8063664100978968 (-47) 2 H1 Hb1
                ltac:(cbn; lia) ltac:(lia)) as (a2 & H2 & E2).
    cbv zeta in E2. rewrite <- RAD_DEG_float in H2.
    setoid_replace (inject_Z 8063664100978968 * 2 ^ (-47))%Q
      with (Qred (inject_Z 8063664100978968 * 2 ^ (-47)))%Q in E2
      by (symmetry; apply Qred_correct).
    let v := eval vm_compute in
      (Qred (inject_Z 8063664100978968 * 2 ^ (-47)))%Q in
    change (Qred (inject_Z 8063664100978968 * 2 ^ (-47)))%Q with v in E2.
    apply Qabs_Qle_condition in E2. pow2_fractions.
    change (B64.mul (B64.mul (f32_to_f64 (B32.of_Z q))
                       (B64.div PI_LITERAL (B64.of_Z Q31_MULTIPLIER)))
              RAD_DEG_MULTIPLIER) with d in H2.
    destruct (has_magnitude_value 53 1024 d s a2 H2) as (Fd & Vd & Ha2).
    split; [exact Fd|].
    rewrite Vd, (inject_sign q). fold s. fold Q.
    setoid_replace ((if s then -1 else 1) * Q * (180 # 2147483648))%Q
      with ((if s then -1 else 1) * (Q * (180 # 2147483648)))%Q by ring.
    rewrite signed_difference.
    apply Qabs_Qle_condition. split; lra.
Qed.

(** The printed reference result: the radians [r] of the math library in
    degrees. *)
Lemma math_degrees (r : float64_t) :
  B64.valid r = true -> is_finite r = true ->
  (Qabs (F2Q r) <= 4)%Q ->
  let d := FLOAT_RAD_TO_DEG r in
  is_finite d = true
  /\ (Qabs (F2Q d - F2Q r * (180000000000 # 3141592654))
      <= Qabs (F2Q r) * (180000000000 # 3141592654)
         * (1 # 1125899906842624) + 2 ^ (-1074))%Q.
Proof.
  intros Vr Fr Hr d.
  destruct (valid_magnitude 53 1024 r ltac:(lia) Vr Fr) as (s & a & Hm).
  destruct (has_magnitude_value 53 1024 r s a Hm) as (_ & Vq & Ha0).
  assert (Ha : (Qabs (F2Q r) == a)%Q).
  { rewrite Vq, Qabs_Qmult, (Qabs_pos a Ha0).
    destruct s; [change (Qabs (-1)) with 1%Q|change (Qabs 1) with 1%Q];
      ring. }
  rewrite Ha in Hr |- *.
  assert (Hb : (a < 2 ^ 3)%Q) by (pow2_fractions; lra).
  destruct (mul64_error r s a 8063664100978968 (-47) 3 Hm Hb
              ltac:(cbn; lia) ltac:(lia)) as (a2 & H2 & E2).
  cbv zeta in E2. rewrite <- RAD_DEG_float in H2.
  setoid_replace (inject_Z 8063664100978968 * 2 ^ (-47))%Q
    with (Qred (inject_Z 8063664100978968 * 2 ^ (-47)))%Q in E2
    by (symmetry; apply Qred_correct).
  let v := eval vm_compute in
    (Qred (inject_Z 8063664100978968 * 2 ^ (-47)))%Q in
  change (Qred (inject_Z 8063664100978968 * 2 ^ (-47)))%Q with v in E2.
  apply Qabs_Qle_condition in E2. pow2_fractions.
  change (B64.mul r RAD_DEG_MULTIPLIER) with d in H2.
  destruct (has_magnitude_value 53 1024 d s a2 H2) as (Fd & Vd & Ha2).
  split; [exact Fd|].
  rewrite Vd, Vq.
  setoid_replace ((if s then -1 else 1) * a * (180000000000 # 3141592654))%Q
    with ((if s then -1 else 1) * (a * (180000000000 # 3141592654)))%Q
    by ring.
  rewrite signed_difference.
  apply Qabs_Qle_condition. split; lra.
Qed.

(** The denominator: 127.99 in binary32, and its conversion. *)
Lemma scaled_denominator (u : float32_t -> Z) :
  let den := f64_to_f32 ATAN_TANH_IN_SCALING in
  den = f64_to_f32 (B64.mul (f32_to_f64 (B32.of_Z 1)) ATAN_TANH_IN_SCALING)
  /\ (Qabs (F2Q den - (12799 # 100)) <= (12799 # 100) * (1 # 4194304))%Q
  /\ FLOAT_TO_Q8_23 u den = 32765
  /\ Qtrunc (F2Q den * 256) = 32765.
Proof.
  cbv zeta. split; [reflexivity|]. split; [vm_compute; discriminate|].
  split; reflexivity.
Qed.

(** ** Rounding always gives a number of the format *)

Section Validity.
Variables prec emax : Z.
Hypothesis Hprec : 1 < prec.

Lemma finite_or_infinity_valid (s : bool) (m e : Z) :
  0 < m -> fexp prec emax (Z.log2 m + 1 + e) = e ->
  valid_binary prec emax
    (if e <=? emax - prec then S754_finite s (Z.to_pos m) e
     else S754_infinity s) = true.
Proof.
  intros Hm Hc. destruct (e <=? emax - prec) eqn:He; [|reflexivity].
  destruct m as [|p|p]; try lia.
  cbn [valid_binary Z.to_pos]. unfold bounded, canonical_mantissa.
  rewrite He, andb_true_r. apply Z.eqb_eq.
  change (Zpos (digits2_pos p)) with (Zdigits2 (Zpos p)).
  rewrite Zdigits2_log2 by lia. exact Hc.
Qed.

Lemma round_aux_valid (s : bool) (M E : Z) :
  0 < M -> E <= fexp prec emax (Z.log2 M + 1 + E) ->
  valid_binary prec emax (binary_round_aux prec emax s M E loc_Exact) = true.
Proof.
  intros HM Hn. set (g := fexp prec emax (Z.log2 M + 1 + E)) in *.
  set (n := g - E). assert (Hn0 : 0 <= n) by (unfold n; lia).
  pose proof (pow2_pos n Hn0) as Hpn.
  assert (Hgmin : emin prec emax <= g) by (unfold g, fexp, emin; lia).
  set (q := M / 2 ^ n).
  assert (Hq0 : 0 <= q) by (apply Z.div_pos; lia).
  assert (Hprec0 : 0 < 2 ^ prec) by (apply pow2_pos; lia).
  assert (Hq24 : q < 2 ^ prec).
  { apply Z.div_lt_upper_bound; [lia|].
    pose proof (Z.log2_spec M HM) as [_ Hup].
    assert (Hle : Z.log2 M + 1 <= n + prec) by (unfold n, g, fexp; lia).
    rewrite <- pow2_split by lia.
    eapply Z.lt_le_trans; [exact Hup|].
    apply Z.pow_le_mono_r; lia. }
  assert (Hqlow : emin prec emax < g -> 2 ^ (prec - 1) <= q).
  { intros Hg. assert (Hnn : n = Z.log2 M + 1 - prec)
      by (unfold n, g, fexp in *; lia).
    apply Z.div_le_lower_bound; [lia|].
    rewrite Z.mul_comm, <- pow2_split by lia.
    replace (prec - 1 + n) with (Z.log2 M) by lia.
    apply Z.log2_spec; lia. }
  unfold binary_round_aux, shr_fexp.
  rewrite (Zdigits2_log2 M HM). fold g. fold n.
  change (shr_record_of_loc M loc_Exact) with (exact_record M).
  destruct (shr_m_shr M E n ltac:(lia) Hn0) as [Hm1 He1].
  destruct (shr (exact_record M) E n) as [mrs' e'].
  cbn [fst snd] in Hm1, He1. fold q in Hm1.
  replace (E + n) with g in He1 by (unfold n; lia). subst e'.
  rewrite Hm1.
  set (k := round_nearest_even q (loc_of_shr_record mrs')).
  assert (Hk : k = q \/ k = q + 1) by apply round_nearest_even_cases.
  change (shr_record_of_loc k loc_Exact) with (exact_record k).
  assert (Hk24 : 0 <= k <= 2 ^ prec) by lia.
  destruct (Z.eq_dec k 0) as [Hz|Hz].
  - rewrite Hz. rewrite shr_nonpos by (cbn [Zdigits2]; unfold fexp; lia).
    reflexivity.
  - assert (Hkp : 0 < k) by lia.
    rewrite (Zdigits2_log2 k Hkp).
    destruct (Z.eq_dec k (2 ^ prec)) as [Ht|Ht].
    + rewrite Ht. rewrite Z.log2_pow2 by lia.
      replace (fexp prec emax (prec + 1 + g) - g) with 1
        by (unfold g, fexp; lia).
      replace (2 ^ prec) with (2 ^ (prec - 1) * 2 ^ 1)
        by (rewrite <- pow2_split by lia; f_equal; lia).
      rewrite shr_exact by (try apply pow2_pos; lia).
      cbn [exact_record shr_m].
      pose proof (pow2_pos (prec - 1) ltac:(lia)) as Hpp.
      pose proof (finite_or_infinity_valid s (2 ^ (prec - 1)) (g + 1) Hpp) as Hv.
      rewrite Z.log2_pow2 in Hv by lia.
      specialize (Hv ltac:(unfold g, fexp; lia)).
      destruct (2 ^ (prec - 1)) as [|p|p] eqn:Ep; try lia.
      exact Hv.
    + assert (Hl : Z.log2 k < prec) by (apply Z.log2_lt_pow2; lia).
      rewrite shr_nonpos by (unfold fexp; lia).
      cbn [exact_record shr_m].
      pose proof (finite_or_infinity_valid s k g Hkp) as Hv.
      assert (Hc : fexp prec emax (Z.log2 k + 1 + g) = g).
      { destruct (Z.eq_dec g (emin prec emax)) as [Hg|Hg].
        - unfold fexp. fold (emin prec emax). lia.
        - assert (Hgg : emin prec emax < g) by lia.
          specialize (Hqlow Hgg).
          assert (prec - 1 <= Z.log2 k)
            by (apply Z.log2_le_pow2; lia).
          unfold fexp. fold (emin prec emax). lia. }
      specialize (Hv Hc).
      destruct k as [|p|p]; try lia. exact Hv.
Qed.

Lemma binary_round_valid (s : bool) (m : positive) (e : Z) :
  valid_binary prec emax (binary_round prec emax s m e) = true.
Proof.
  unfold binary_round, shl_align.
  set (g := fexp prec emax (Zpos (digits2_pos m) + e)).
  assert (Hg : g = fexp prec emax (Z.log2 (Zpos m) + 1 + e)).
  { unfold g. change (Zpos (digits2_pos m)) with (Zdigits2 (Zpos m)).
    rewrite Zdigits2_log2 by lia. reflexivity. }
  destruct (g - e) as [|d|d] eqn:Hd.
  - apply round_aux_valid; lia.
  - apply round_aux_valid; lia.
  - rewrite Zpos_iter_xO. apply round_aux_valid.
    + pose proof (pow2_pos (Zpos d) ltac:(lia)). lia.
    + rewrite Z.log2_mul_pow2 by lia.
      replace (Z.pos d + Z.log2 (Z.pos m) + 1 + g)
        with (Z.log2 (Zpos m) + 1 + e) by lia.
      lia.
Qed.

End Validity.

Lemma f64_to_f32_valid (x : float64_t) : B32.valid (f64_to_f32 x) = true.
Proof.
  destruct x as [s|s| |s m e]; try reflexivity.
  apply binary_round_valid. unfold B32.prec. lia.
Qed.

(** ** C8: the arc tangent handler *)

(** The run of [arc_tangent] on an accepted operand, step by step. *)
Lemma arc_tangent_run (E : Externals) (w : world) (tok rest : string) :
  scan_token (w_stdin w) = Some (tok, rest) ->
  let v := f64_to_f32 (atof E (c_str tok)) in
  B32.leb IN_ATAN_MIN v = true -> B32.leb v IN_ATAN_MAX = true ->
  let num := f64_to_f32 (B64.mul (f32_to_f64 v) ATAN_TANH_IN_SCALING) in
  let den := f64_to_f32 ATAN_TANH_IN_SCALING in
  let nq := FLOAT_TO_Q8_23 (undefined_cast E) num in
  let dq := FLOAT_TO_Q8_23 (undefined_cast E) den in
  let q := Cy_CORDIC_ArcTan E dq nq in
  new_events (arc_tangent E) w
  = [ EvPrint msg_arc_tangent_selected;
      EvPrint msg_arc_tangent_value;
      EvScanf 1;
      EvCordic HwArcTan [dq; nq];
      EvPrintf fmt_arc_tangent_cordic
        [FLOAT_RAD_TO_DEG (Q31_TO_DEG_FLOAT q)];
      EvPrintf fmt_arc_tangent_math
        [FLOAT_RAD_TO_DEG (atan2 E (f32_to_f64 num) (f32_to_f64 den))] ]
  /\ numerator (w_globals (exec (arc_tangent E) w)) = num
  /\ denominator (w_globals (exec (arc_tangent E) w)) = den
  /\ numerator_8q23 (w_globals (exec (arc_tangent E) w)) = nq
  /\ denominator_8q23 (w_globals (exec (arc_tangent E) w)) = dq.
Proof.
  intros Hs v Hlo Hhi num den nq dq q.
  pose proof (in_range_not_outside _ _ _ Hlo Hhi) as Hr.
  subst q dq nq den num.
  destruct_world w. unfold arc_tangent.
  repeat exec_step. fold v in Hr |- *.
  rewrite (check_range_success _ _ _ _ Hr).
  repeat exec_step. run. trace_list.
  repeat split.
Qed.

(** C8.  For an operand [v] read from the console with -57 <= v <= 57, the
    arc tangent handler leaves in [numerator] the binary32 number nearest to
    [v * 127.99] (within the rounding of the two conversions, a relative
    2^-22 and an absolute 2^-149) and in [denominator] the one nearest to
    [1 * 127.99]; each is converted to 8Q23, the number times 2^8 truncated
    toward zero, which is 32765 for the denominator, on every platform; the
    accelerator is called with the two, denominator first.  Its result [q],
    a Q31 fraction of a half turn, is printed in degrees: the printed number
    is [q * 180 / 2^31] within a relative 2^-22.  The reference is [atan2]
    of the same scaled numerator and denominator, printed in degrees too:
    its radians times [180 / 3.141592654], within a relative 2^-50 and an
    absolute 2^-1074. *)
Theorem arc_tangent_scaling (E : Externals) (w : world) (tok rest : string) :
  scan_token (w_stdin w) = Some (tok, rest) ->
  let v := f64_to_f32 (atof E (c_str tok)) in
  B32.leb IN_ATAN_MIN v = true -> B32.leb v IN_ATAN_MAX = true ->
  let g := w_globals (exec (arc_tangent E) w) in
  let q := Cy_CORDIC_ArcTan E (denominator_8q23 g) (numerator_8q23 g) in
  let r := atan2 E (f32_to_f64 (numerator g)) (f32_to_f64 (denominator g)) in
  let printed_cordic := FLOAT_RAD_TO_DEG (Q31_TO_DEG_FLOAT q) in
  let printed_math := FLOAT_RAD_TO_DEG r in
  (is_finite (numerator g) = true
   /\ (Qabs (F2Q (numerator g) - F2Q v * (12799 # 100))
       <= Qabs (F2Q v) * (12799 # 100) * (1 # 4194304) + 2 ^ (-149))%Q)
  /\ (is_finite (denominator g) = true
      /\ (Qabs (F2Q (denominator g) - 1 * (12799 # 100))
          <= 1 * (12799 # 100) * (1 # 4194304))%Q)
  /\ numerator_8q23 g = Qtrunc (F2Q (numerator g) * 256)
  /\ denominator_8q23 g = Qtrunc (F2Q (denominator g) * 256)
  /\ denominator_8q23 g = 32765
  /\ new_events (arc_tangent E) w
     = [ EvPrint msg_arc_tangent_selected;
         EvPrint msg_arc_tangent_value;
         EvScanf 1;
         EvCordic HwArcTan [denominator_8q23 g; numerator_8q23 g];
         EvPrintf fmt_arc_tangent_cordic [printed_cordic];
         EvPrintf fmt_arc_tangent_math [printed_math] ]
  /\ (INT32_MIN <= q <= INT32_MAX ->
      is_finite printed_cordic = true
      /\ (Qabs (F2Q printed_cordic - inject_Z q * (180 # 2147483648))
          <= inject_Z (Z.abs q) * (180 # 2147483648) * (1 # 4194304))%Q)
  /\ (B64.valid r = true -> is_finite r = true -> (Qabs (F2Q r) <= 4)%Q ->
      is_finite printed_math = true
      /\ (Qabs (F2Q printed_math - F2Q r * (180000000000 # 3141592654))
          <= Qabs (F2Q r) * (180000000000 # 3141592654)
             * (1 # 1125899906842624) + 2 ^ (-1074))%Q).
Proof.
  intros Hs v Hlo Hhi g q r printed_cordic printed_math.
  destruct (arc_tangent_run E w tok rest Hs Hlo Hhi)
    as (Ht & Hn & Hd & Hnq & Hdq).
  fold v in Ht, Hn, Hnq. fold g in Hn, Hd, Hnq, Hdq.
  destruct (scaled_numerator v (f64_to_f32_valid _) Hlo Hhi)
    as ((s & a & Hm & Ha) & Hnum).
  cbv zeta in Hm, Hnum. rewrite <- Hn in Hm, Hnum.
  destruct (scaled_denominator (undefined_cast E)) as (_ & Hden & Hd1 & Hd2).
  cbv zeta in Hden, Hd1, Hd2. rewrite <- Hd in Hden, Hd1, Hd2.
  destruct (has_magnitude_value 24 128 _ s a Hm) as (Fn & _ & _).
  assert (Enq : numerator_8q23 g = Qtrunc (F2Q (numerator g) * 256)).
  { rewrite Hnq. fold v. rewrite <- Hn.
    exact (FLOAT_TO_Q8_23_trunc _ _ s a Hm Ha). }
  assert (Edq : denominator_8q23 g = 32765).
  { rewrite Hdq. rewrite <- Hd. exact Hd1. }
  split; [split; [exact Fn|exact Hnum]|].
  split.
  { split; [rewrite Hd; reflexivity|].
    setoid_replace (1 * (12799 # 100))%Q with (12799 # 100)%Q by ring.
    exact Hden. }
  split; [exact Enq|].
  split; [rewrite Edq, Hd2; reflexivity|].
  split; [exact Edq|].
  split.
  { rewrite Ht. subst printed_cordic printed_math q r.
    rewrite Hnq, Hdq, Hn, Hd. reflexivity. }
  split.
  - intros Hq. exact (cordic_degrees q Hq).
  - intros Vr Fr Hr. exact (math_degrees r Vr Fr Hr).
Qed.

Lemma arc_tangent_scaling_witness :
  scan_token (w_stdin (initial_world "57")) = Some ("57", "")%string
  /\ B32.leb IN_ATAN_MIN (f64_to_f32 (atof stub_externals (c_str "57"))) = true
  /\ B32.leb (f64_to_f32 (atof stub_externals (c_str "57"))) IN_ATAN_MAX = true
  /\ denominator_8q23
       (w_globals (exec (arc_tangent stub_externals) (initial_world "57")))
     = 32765.
Proof.
  split; [reflexivity|]. split; [reflexivity|]. split; [reflexivity|].
  exact (proj1 (proj2 (proj2 (proj2 (proj2
    (arc_tangent_scaling stub_externals (initial_world "57") "57" ""
       eq_refl eq_refl eq_refl)))))).
Defined.

(** ** C4: the square root handler *)

Lemma eqb_zero_inv (v : float32_t) :
  B32.eqb (B32.of_Z 0) v = true -> exists s, v = S754_zero s.
Proof.
  destruct v as [s|s| |s m e]; try (destruct s; discriminate).
  - intros _. exists s. reflexivity.
  - discriminate.
Qed.

(** What [square_root] does once a token is read, by the value [v] it is
    converted to: 0 gets the message of its own and nothing else; a value
    below 0 or above 1 gets the diagnostic of [check_range]; any other
    value, the bound 1 and NaN included, goes to the accelerator and to
    [sqrt]. *)
Lemma square_root_cases (E : Externals) (w : world) (tok rest : string) :
  scan_token (w_stdin w) = Some (tok, rest) ->
  let v := f64_to_f32 (atof E (c_str tok)) in
  new_events (square_root E) w
  = [EvPrint msg_square_root_selected; EvPrint msg_square_root_value;
     EvScanf 1]
    ++ (if B32.eqb (B32.of_Z 0) v then [EvPrint msg_number_is_zero]
        else if (B32.ltb v (B32.of_Z 0) || B32.ltb (B32.of_Z 1) v)%bool
        then [EvPrint msg_not_in_range]
        else
          [EvCordic HwSqrt [FLOAT_TO_Q31 (undefined_cast E) v];
           EvPrintf fmt_square_root_cordic
             [f32_to_f64
                (Q31_TO_FLOAT
                   (s32_to_u32
                      (Cy_CORDIC_Sqrt E
                         (FLOAT_TO_Q31 (undefined_cast E) v))))];
           EvPrintf fmt_square_root_math [sqrt E (f32_to_f64 v)]]).
Proof.
  intros Hs v. destruct_world w. unfold square_root.
  repeat exec_step. fold v.
  destruct (B32.eqb (B32.of_Z 0) v) eqn:Hz.
  - destruct (eqb_zero_inv v Hz) as [s Hv]. rewrite Hv.
    rewrite check_range_success by (destruct s; reflexivity).
    run. change (B32.eqb (B32.of_Z 0) (S754_zero s)) with true.
    run. trace_list. reflexivity.
  - destruct (B32.ltb v (B32.of_Z 0) || B32.ltb (B32.of_Z 1) v)%bool eqn:Hr.
    + rewrite (check_range_bad_param _ _ _ _ Hr). repeat exec_step.
      run. trace_list. reflexivity.
    + rewrite (check_range_success _ _ _ _ Hr). repeat exec_step.
      run. trace_list. reflexivity.
Qed.

(** C4 (the code departs from the claim at the bound 1).  An operand read
    as 1.0 passes [check_range (0, 1)] and is not 0, so [square_root]
    accepts it although its prompt asks for a value below 1: it calls the
    accelerator and prints both results.  The product 1.0 * 2^31 does not
    fit [int32_t]: the operand passed is what the platform's conversion
    gives for it, 2^31 - 1 where the conversion saturates. *)
Theorem square_root_accepts_one (E : Externals) (w : world)
    (tok rest : string) :
  scan_token (w_stdin w) = Some (tok, rest) ->
  f64_to_f32 (atof E (c_str tok)) = B32.of_Z 1 ->
  let product := B32.mul (B32.of_Z 1) (B32.of_Z Q31_MULTIPLIER) in
  let operand := undefined_cast E product in
  new_events (square_root E) w
  = [ EvPrint msg_square_root_selected; EvPrint msg_square_root_value;
      EvScanf 1;
      EvCordic HwSqrt [operand];
      EvPrintf fmt_square_root_cordic
        [f32_to_f64
           (Q31_TO_FLOAT (s32_to_u32 (Cy_CORDIC_Sqrt E operand)))];
      EvPrintf fmt_square_root_math [sqrt E (f32_to_f64 (B32.of_Z 1))] ]
  /\ Ztrunc product = INT32_MAX + 1
  /\ saturating_cast product = INT32_MAX.
Proof.
  intros Hs Hv product operand.
  split; [|split; reflexivity].
  rewrite (square_root_cases E w tok rest Hs). cbv zeta. rewrite Hv.
  reflexivity.
Qed.

Lemma square_root_accepts_one_witness :
  scan_token (w_stdin (initial_world "1")) = Some ("1", "")%string
  /\ f64_to_f32 (atof stub_externals (c_str "1")) = B32.of_Z 1
  /\ In (EvCordic HwSqrt [INT32_MAX])
        (new_events (square_root stub_externals) (initial_world "1")).
Proof.
  split; [reflexivity|]. split; [reflexivity|].
  rewrite (proj1 (square_root_accepts_one stub_externals (initial_world "1")
                    "1" "" eq_refl eq_refl)).
  cbn [In]. auto.
Defined.

(** ** C6: handlers that fail *)

(** One step of the exploration of every path of a handler. *)
Ltac explore_step :=
  run;
  match goal with
  | |- context [scan_token ?s] =>
      destruct (scan_token s) as [[? ?]|] eqn:?
  | |- context [0 <? 1] => change (0 <? 1) with true
  | |- context [0 <? -1] => change (0 <? -1) with false
  | |- context [check_range ?a ?b ?c ?w] =>
      let Hc := fresh "Hc" in
      destruct (check_range_cases a b c w) as [Hc|Hc]; rewrite Hc; clear Hc
  | |- context [B32.eqb (B32.of_Z 0) ?v] =>
      destruct (B32.eqb (B32.of_Z 0) v) eqn:?
  end.

Ltac outcome_leaf :=
  run; eexists; split; [trace_list; reflexivity|];
  split; [not_in_list|];
  first
    [ left; split; [intros ? ?; not_in_list|];
      split; [intros ? ?; not_in_list|];
      repeat split; reflexivity
    | right; split; not_in_list ].

(** Every run of a handler extends the trace, without the message of the
    menu for a wrong option; and either it stops early, without accelerator
    call or printed result and with the result variables untouched, or no
    read and no range check failed. *)
Lemma handler_outcome (E : Externals) (f : cordic_primitive) (w : world) :
  exists l,
    w_trace (exec (handler E f) w) = w_trace w ++ l
    /\ ~ In (EvPrint msg_wrong_option) l
    /\ (aborted (w_globals w) (w_globals (exec (handler E f) w)) l
        \/ no_failure l).
Proof.
  destruct_world w.
  destruct f; cbn [handler];
    unfold park_transform, sine, cosine, tangent, arc_tangent,
      hyperbolic_sine, hyperbolic_cosine, hyperbolic_tangent,
      hyperbolic_arc_tangent, square_root;
    repeat explore_step; outcome_leaf.
Qed.

Ltac completes_leaf :=
  run; trace_list;
  let H1 := fresh "H" in let H2 := fresh "H" in
  intros H1 H2;
  first
    [ left; eexists; cbn [In]; solve [auto 12]
    | right; split; [reflexivity|]; cbn [In]; solve [auto 12]
    | exfalso; apply H1; cbn [In]; solve [auto 12]
    | exfalso; apply H2; cbn [In]; solve [auto 12] ].

(** When no console read and no range check of a handler failed, the
    handler called the accelerator, or it is [square_root] stopping at the
    number 0 with its own message. *)
Lemma handler_without_failure (E : Externals) (f : cordic_primitive)
    (w : world) :
  ~ In (EvScanf (-1)) (new_events (handler E f) w) ->
  ~ In (EvPrint msg_not_in_range) (new_events (handler E f) w) ->
  (exists operands, In (EvCordic f operands) (new_events (handler E f) w))
  \/ (f = HwSqrt
      /\ In (EvPrint msg_number_is_zero) (new_events (handler E f) w)).
Proof.
  destruct_world w.
  destruct f; cbn [handler];
    unfold park_transform, sine, cosine, tangent, arc_tangent,
      hyperbolic_sine, hyperbolic_cosine, hyperbolic_tangent,
      hyperbolic_arc_tangent, square_root;
    repeat explore_step; completes_leaf.
Qed.

(** C6, counterexample.  The sine handler refuses the operand 100 with the
    diagnostic of [check_range], and afterwards [angle_deg], [read_string]
    and [read_status] differ from their values before the call; when the
    console read fails, [read_status] differs.  And an operand that is not
    a number does not stop the handler: [atof] converts the token [abc] to
    0.0, the range check passes, and the accelerator is called with the
    operand 0 and both results are printed. *)
Lemma failed_handler_modifies_globals :
  let w := initial_world "100" in
  let w' := exec (sine stub_externals) w in
  In (EvPrint msg_not_in_range) (new_events (sine stub_externals) w)
  /\ angle_deg (w_globals w') <> angle_deg (w_globals w)
  /\ read_string (w_globals w') <> read_string (w_globals w)
  /\ read_status (w_globals w') <> read_status (w_globals w)
  /\ In (EvScanf (-1)) (new_events (sine stub_externals) (initial_world ""))
  /\ read_status (w_globals (exec (sine stub_externals) (initial_world "")))
     <> read_status (w_globals (initial_world ""))
  /\ atof stub_externals (c_str "abc") = S754_zero false
  /\ new_events (sine stub_externals) (initial_world "abc")
     = [ EvPrint msg_sine_selected; EvPrint msg_sin_cos_angle; EvScanf 1;
         EvCordic HwSin [0];
         EvPrintf fmt_sine_cordic [S754_zero false];
         EvPrintf fmt_sine_math [S754_zero false] ]
  /\ new_events (sine (with_cast indefinite_cast stub_externals))
       (initial_world "abc")
     = new_events (sine stub_externals) (initial_world "abc").
Proof.
  cbv zeta. split; [vm_compute; auto 10|].
  split; [vm_compute; discriminate|].
  split; [vm_compute; discriminate|].
  split; [vm_compute; discriminate|].
  split; [vm_compute; auto 10|].
  split; [vm_compute; discriminate|].
  split; [vm_compute; reflexivity|]. split; [vm_compute; reflexivity|].
  vm_compute. reflexivity.
Qed.

(** C6 (as amended).  When a console read or a range check of a handler
    fails, the handler makes no accelerator call and prints no result, and
    the selector, the intermediate and the result variables keep their
    values ([read_string], [read_status] and the operand variables
    [angle_deg], [ialpha], [ibeta], [numerator] may have been
    overwritten).  These are the only failures a handler detects: when
    every read gave a token and every range check passed, whatever the
    tokens, the handler calls the accelerator, but for [square_root], which
    stops at the number 0 with a message of its own. *)
Theorem failed_handler_frame (E : Externals) (f : cordic_primitive)
    (w : world) :
  let l := new_events (handler E f) w in
  (In (EvScanf (-1)) l \/ In (EvPrint msg_not_in_range) l ->
   (forall p operands, ~ In (EvCordic p operands) l)
   /\ (forall fmt args, ~ In (EvPrintf fmt args) l)
   /\ results_unchanged (w_globals w) (w_globals (exec (handler E f) w)))
  /\ (~ In (EvScanf (-1)) l -> ~ In (EvPrint msg_not_in_range) l ->
      (exists operands, In (EvCordic f operands) l)
      \/ (f = HwSqrt /\ In (EvPrint msg_number_is_zero) l)).
Proof.
  cbv zeta. split.
  - destruct (handler_outcome E f w) as (l & Ht & _ & Ho).
    rewrite (new_events_trace _ _ _ Ht). intros Hf.
    destruct Ho as [A | [B1 B2]]; [exact A|].
    destruct Hf as [Hf|Hf]; contradiction.
  - exact (handler_without_failure E f w).
Qed.

Lemma failed_handler_frame_witness :
  In (EvPrint msg_not_in_range)
     (new_events (handler stub_externals HwSin) (initial_world "100"))
  /\ results_unchanged (w_globals (initial_world "100"))
       (w_globals (exec (handler stub_externals HwSin) (initial_world "100"))).
Proof.
  assert (H : In (EvPrint msg_not_in_range)
                (new_events (handler stub_externals HwSin)
                   (initial_world "100"))) by (vm_compute; auto 10).
  split; [exact H|].
  exact (proj2 (proj2 (proj1 (failed_handler_frame stub_externals HwSin
                                (initial_world "100")) (or_intror H)))).
Defined.

(** ** The menu round *)

Lemma skip_space_head (s : string) :
  skip_space s = EmptyString
  \/ exists c r, skip_space s = String c r /\ is_space c = false.
Proof.
  induction s as [|c r IH]; simpl.
  - left. reflexivity.
  - destruct (is_space c) eqn:Hc; [exact IH|].
    right. exists c, r. split; [reflexivity|exact Hc].
Qed.

Lemma take_token_cons (k : nat) (c : ascii) (r : string) :
  is_space c = false ->
  take_token (S k) (String c r)
  = let '(t, rest) := take_token k r in (String c t, rest).
Proof. intros H. cbn [take_token]. rewrite H. reflexivity. Qed.

(** A token read by [%120s] is not empty and starts with a character that
    is not white space. *)
Lemma scan_token_head (s tok rest : string) :
  scan_token s = Some (tok, rest) ->
  exists c t, tok = String c t /\ is_space c = false.
Proof.
  unfold scan_token.
  destruct (skip_space_head s) as [H | (c & r & H & Hc)]; rewrite H.
  - discriminate.
  - rewrite (take_token_cons 119 c r Hc).
    destruct (take_token 119 r) as [t rest'].
    intros H0. inversion H0; subst. exists c, t.
    split; [reflexivity|exact Hc].
Qed.

Lemma digits_value_non_digit (acc : Z) (c : ascii) (r : string) :
  is_digit c = false -> digits_value acc (String c r) = acc.
Proof. intros H. simpl. rewrite H. reflexivity. Qed.

Lemma c_str_no_digit (s : string) :
  match s with String d _ => is_digit d = false | EmptyString => True end ->
  digits_value 0 (c_str s) = 0.
Proof.
  destruct s as [|d r]; simpl; [reflexivity|]. intros Hd.
  destruct (Ascii.eqb d NUL); [reflexivity|].
  apply digits_value_non_digit, Hd.
Qed.

Lemma atoi_non_numeric (c : ascii) (t : string) :
  is_space c = false -> non_numeric (String c t) = true ->
  atoi (c_str (String c t)) = 0.
Proof.
  intros Hsp Hn. unfold atoi. cbn [c_str].
  destruct (Ascii.eqb c NUL) eqn:Hnul; [reflexivity|].
  cbn [skip_space]. rewrite Hsp.
  unfold non_numeric, is_sign in Hn.
  destruct (Ascii.eqb c "-") eqn:Hm; cbn [orb] in Hn.
  - rewrite c_str_no_digit; [reflexivity|].
    destruct t as [|d r]; [exact I|].
    now destruct (is_digit d).
  - destruct (Ascii.eqb c "+") eqn:Hp.
    + rewrite c_str_no_digit; [reflexivity|].
      destruct t as [|d r]; [exact I|].
      now destruct (is_digit d).
    + rewrite digits_value_non_digit; [reflexivity|].
      now destruct (is_digit c).
Qed.

Lemma enum_cast_small (r : enum_repr) (i : Z) :
  0 <= i <= 9 -> enum_cast r i = i.
Proof.
  intros H. destruct r; simpl; [reflexivity|].
  apply Z.mod_small. lia.
Qed.

Lemma dispatch_default (E : Externals) (f : Z) :
  f < 0 \/ 9 < f -> dispatch E f = printf msg_wrong_option.
Proof.
  intros H. unfold dispatch, Ifx_CORDIC_PARK_TRANS, Ifx_CORDIC_SINE,
    Ifx_CORDIC_COSINE, Ifx_CORDIC_TAN, Ifx_CORDIC_ARC_TAN,
    Ifx_CORDIC_HYP_SINE, Ifx_CORDIC_HYP_COSINE, Ifx_CORDIC_HYP_TAN,
    Ifx_CORDIC_HYP_ARC_TAN, Ifx_CORDIC_SQRT.
  repeat match goal with
         | |- context [f =? ?k] => destruct (Z.eqb_spec f k); [lia|]
         end.
  reflexivity.
Qed.

Lemma dispatch_cases (E : Externals) (f : Z) :
  dispatch E f = printf msg_wrong_option
  \/ exists p, dispatch E f = handler E p.
Proof.
  unfold dispatch.
  repeat match goal with
         | |- context [f =? ?k] => destruct (f =? k)
         end;
    try (left; reflexivity);
    right;
    [ exists HwParkTransform | exists HwSin | exists HwCos | exists HwTan
    | exists HwArcTan | exists HwSinh | exists HwCosh | exists HwTanh
    | exists HwArcTanh | exists HwSqrt ]; reflexivity.
Qed.

(** A round, once a token is read: the selector is assigned, the [switch]
    runs and the round ends with its two line breaks. *)
Lemma menu_round_selected (E : Externals) (w : world) (tok rest : string) :
  scan_token (w_stdin w) = Some (tok, rest) ->
  menu_round E w
  = let f := enum_cast (selector_repr E) (atoi (c_str tok)) in
    (dispatch E f ;; printf msg_end_of_round) (selected w tok rest f).
Proof.
  intros Hs. unfold menu_round, selected. destruct_world w.
  repeat exec_step. run. trace_list. reflexivity.
Qed.

Lemma menu_round_eof (E : Externals) (w : world) :
  scan_token (w_stdin w) = None ->
  w_trace (exec (menu_round E) w)
  = w_trace w ++ map EvPrint menu_lines
      ++ [EvScanf (-1); EvPrint msg_end_of_round].
Proof.
  intros Hs. unfold menu_round. destruct_world w.
  repeat exec_step. run. trace_list. reflexivity.
Qed.

(** Every round starts by printing the menu. *)
Lemma menu_round_prints_menu (E : Externals) (w : world) :
  exists l,
    w_trace (exec (menu_round E) w) = w_trace w ++ map EvPrint menu_lines ++ l.
Proof.
  destruct (scan_token (w_stdin w)) as [[tok rest]|] eqn:Hs.
  - unfold exec. rewrite (menu_round_selected E w tok rest Hs). cbv zeta.
    set (f := enum_cast (selector_repr E) (atoi (c_str tok))).
    destruct (dispatch_cases E f) as [Hd | (p & Hd)]; rewrite Hd.
    + eexists. unfold selected. run. trace_list. reflexivity.
    + destruct (handler_outcome E p (selected w tok rest f))
        as (l & Hl & _).
      unfold exec in Hl. unfold bind.
      destruct (handler E p (selected w tok rest f)) as [u [g' i' tr']].
      unfold selected in Hl. cbn [snd w_trace] in Hl. run. rewrite Hl.
      eexists. trace_list. reflexivity.
  - rewrite (menu_round_eof E w Hs). eexists. reflexivity.
Qed.

(** ** C5: a selector outside the list *)

(** C5, counterexample.  The token 42 gets the message for a wrong option,
    yet the round assigns [cordic_function], [read_string] and
    [read_status]; and the token abc, which names none of the ten
    operations, does not get that message. *)
Lemma wrong_selector_modifies_globals :
  let w := initial_world "42" in
  let w' := exec (menu_round stub_externals) w in
  In (EvPrint msg_wrong_option) (new_events (menu_round stub_externals) w)
  /\ cordic_function (w_globals w) = 0
  /\ cordic_function (w_globals w') = 42
  /\ read_string (w_globals w') <> read_string (w_globals w)
  /\ read_status (w_globals w') <> read_status (w_globals w)
  /\ ~ In (EvPrint msg_wrong_option)
         (new_events (menu_round stub_externals) (initial_world "abc")).
Proof.
  cbv zeta. split; [vm_compute; auto 20|].
  repeat split; try (vm_compute; discriminate).
  vm_compute. intros H.
  repeat match type of H with
         | _ \/ _ => destruct H as [H|H]
         end; try contradiction; discriminate H.
Qed.

(** C5 (as amended).  When the token read by a round converts to a
    selector value outside 0..9, the round prints the menu, the message for
    a wrong option and the line breaks that end it, reads nothing more and
    calls no handler; of the globals it assigns [read_string],
    [read_status] and [cordic_function] and no other; and the round that
    follows prints the menu again. *)
Theorem wrong_selector_round (E : Externals) (w : world)
    (tok rest : string) :
  scan_token (w_stdin w) = Some (tok, rest) ->
  let f := enum_cast (selector_repr E) (atoi (c_str tok)) in
  f < 0 \/ 9 < f ->
  let round :=
    map EvPrint menu_lines
    ++ [EvScanf 1; EvPrint msg_wrong_option; EvPrint msg_end_of_round] in
  exec (menu_round E) w
  = {| w_globals :=
         set_cordic_function f
           (set_read_status 1
              (set_read_string (store_token tok (read_string (w_globals w)))
                 (w_globals w)));
       w_stdin := rest;
       w_trace := w_trace w ++ round |}
  /\ new_events (menu_round E) w = round
  /\ exists l,
       new_events (rounds E 2) w = round ++ map EvPrint menu_lines ++ l.
Proof.
  intros Hs f Hf round.
  assert (H1 : menu_round E w
               = (tt, {| w_globals :=
                           set_cordic_function f
                             (set_read_status 1
                                (set_read_string
                                   (store_token tok (read_string (w_globals w)))
                                   (w_globals w)));
                         w_stdin := rest;
                         w_trace := w_trace w ++ round |})).
  { rewrite (menu_round_selected E w tok rest Hs). cbv zeta. fold f.
    rewrite (dispatch_default E f Hf). unfold selected, round.
    run. trace_list. reflexivity. }
  split; [unfold exec; rewrite H1; reflexivity|].
  split.
  - apply new_events_trace. unfold exec. rewrite H1. reflexivity.
  - match type of H1 with _ = (tt, ?x) => set (w1 := x) in * end.
    destruct (menu_round_prints_menu E w1) as (l & Hl).
    exists (l ++ []). apply new_events_trace.
    unfold exec, rounds, bind, ret. rewrite H1.
    unfold exec in Hl. destruct (menu_round E w1) as [u w2].
    cbn [snd] in *. rewrite Hl. unfold w1. cbn [w_trace].
    rewrite app_nil_r. repeat rewrite <- app_assoc. reflexivity.
Qed.

Lemma wrong_selector_round_witness :
  scan_token (w_stdin (initial_world "42 1")) = Some ("42", " 1")%string
  /\ 9 < enum_cast (selector_repr stub_externals) (atoi (c_str "42"))
  /\ new_events (menu_round stub_externals) (initial_world "42 1")
     = map EvPrint menu_lines
       ++ [EvScanf 1; EvPrint msg_wrong_option; EvPrint msg_end_of_round].
Proof.
  split; [reflexivity|]. split; [reflexivity|].
  exact (proj1 (proj2
    (wrong_selector_round stub_externals (initial_world "42 1") "42" " 1"
       eq_refl (or_intror eq_refl)))).
Defined.

(** ** C10: a token that is not a number *)

(** C10.  A token without leading digits (after an optional sign its first
    character is not a digit, as in abc) is converted by [atoi] to 0, the
    selector of the Park transform: the round calls [park_transform] and
    the message for a wrong option is not printed. *)
Theorem non_numeric_token_selects_park (E : Externals) (w : world)
    (tok rest : string) :
  scan_token (w_stdin w) = Some (tok, rest) ->
  non_numeric tok = true ->
  atoi (c_str tok) = 0
  /\ cordic_function (w_globals (selected w tok rest Ifx_CORDIC_PARK_TRANS))
     = Ifx_CORDIC_PARK_TRANS
  /\ menu_round E w
     = (park_transform E ;; printf msg_end_of_round)
         (selected w tok rest Ifx_CORDIC_PARK_TRANS)
  /\ ~ In (EvPrint msg_wrong_option) (new_events (menu_round E) w).
Proof.
  intros Hs Hn.
  destruct (scan_token_head _ _ _ Hs) as (c & t & -> & Hc).
  pose proof (atoi_non_numeric c t Hc Hn) as Ha.
  assert (Hm : menu_round E w
               = (park_transform E ;; printf msg_end_of_round)
                   (selected w (String c t) rest Ifx_CORDIC_PARK_TRANS)).
  { rewrite (menu_round_selected E w _ rest Hs). cbv zeta. rewrite Ha.
    rewrite enum_cast_small by (unfold Ifx_CORDIC_PARK_TRANS; lia).
    reflexivity. }
  split; [exact Ha|]. split; [reflexivity|]. split; [exact Hm|].
  set (w1 := selected w (String c t) rest Ifx_CORDIC_PARK_TRANS) in *.
  destruct (handler_outcome E HwParkTransform w1) as (l & Hl & Hw & _).
  cbn [handler] in Hl.
  assert (Ht : w_trace (exec (menu_round E) w)
               = w_trace w
                 ++ (map EvPrint menu_lines ++ [EvScanf 1]) ++ l
                 ++ [EvPrint msg_end_of_round]).
  { unfold exec in *. rewrite Hm. unfold bind.
    destruct (park_transform E w1) as [u [g' i' tr']].
    cbn [snd w_trace] in Hl. run. rewrite Hl. unfold w1, selected.
    cbn [w_trace]. repeat rewrite <- app_assoc. reflexivity. }
  rewrite (new_events_trace _ _ _ Ht).
  intros Hin. apply in_app_or in Hin. destruct Hin as [Hin|Hin].
  - unfold menu_lines in Hin. cbn [map app] in Hin.
    revert Hin. not_in_list.
  - apply in_app_or in Hin. destruct Hin as [Hin|Hin]; [contradiction|].
    revert Hin. not_in_list.
Qed.

Lemma non_numeric_token_selects_park_witness :
  scan_token (w_stdin (initial_world "abc")) = Some ("abc", "")%string
  /\ non_numeric "abc" = true
  /\ atoi (c_str "abc") = 0.
Proof.
  split; [reflexivity|]. split; [reflexivity|].
  exact (proj1
    (non_numeric_token_selects_park stub_externals (initial_world "abc")
       "abc" "" eq_refl eq_refl)).
Defined.

(** ** C7: the Park transform handler *)

Lemma Zrange_forallb (P : Z -> bool) (lo : Z) (n : nat) :
  forallb P (Zrange lo n) = true ->
  forall z, lo <= z < lo + Z.of_nat n -> P z = true.
Proof.
  intros H z Hz. rewrite forallb_forall in H. apply H.
  unfold Zrange. apply in_map_iff. exists (Z.to_nat (z - lo)).
  split; [lia|]. apply in_seq. lia.
Qed.



Lemma Q31_TO_FLOAT_near_one (raw : Z) :
  Z.abs (raw - 2 ^ 31) <= 1024 ->
  close_to (f32_to_f64 (Q31_TO_FLOAT raw)) 1 (1 # 1000) = true.
Proof.
  intros H.
  apply (Zrange_forallb
           (fun r => close_to (f32_to_f64 (Q31_TO_FLOAT r)) 1 (1 # 1000))
           (2 ^ 31 - 1024) 2049).
  - vm_compute. reflexivity.
  - change (2 ^ 31) with 2147483648 in *. lia.
Qed.

Lemma Q31_TO_FLOAT_near_zero (raw : Z) :
  Z.abs raw <= 1024 ->
  close_to (f32_to_f64 (Q31_TO_FLOAT raw)) 0 (1 # 1000) = true.
Proof.
  intros H.
  apply (Zrange_forallb
           (fun r => close_to (f32_to_f64 (Q31_TO_FLOAT r)) 0 (1 # 1000))
           (- 1024) 2049).
  - vm_compute. reflexivity.
  - lia.
Qed.





(** * Further properties of the program *)

Ltac destruct_state w :=
  destruct w as [[buf st cf ad al be ar nu de rd rq r1 r2 aq nq dq] input tr];
  cbn [w_stdin w_trace w_globals] in *.

Ltac unfold_handlers :=
  cbn [handler];
  unfold park_transform, sine, cosine, tangent, arc_tangent,
    hyperbolic_sine, hyperbolic_cosine, hyperbolic_tangent,
    hyperbolic_arc_tangent, square_root.

Ltac in_list_cases H :=
  cbn [In] in H;
  repeat match type of H with
         | _ \/ _ => destruct H as [H|H]
         end.

(** ** The accelerator call of a handler *)

Ltac discipline_leaf :=
  run; trace_list;
  split;
  [ let p := fresh "p" in let ops := fresh "ops" in let H := fresh "H" in
    intros p ops H; in_list_cases H;
    try contradiction; try discriminate H;
    injection H as <- _; reflexivity
  | split;
    [ first
        [ left; split; reflexivity
        | right;
          match goal with
          | |- exists pre, _ /\ exists ops a1 a2, ?l = _ =>
              exists (before_last3 l); cbn [before_last3 removelast];
              split; [split; reflexivity|];
              eexists; eexists; eexists; reflexivity
          end ]
    | cbv [count_events filter is_console_read List.length operand_count];
      lia ] ].

(** X1.  In every run of a handler, on every console input: the only
    accelerator primitive called is the handler's own; it is called at most
    once, and when it is called the call is followed by exactly two printed
    results, first the one that the text names as the accelerator's
    ([using CORDIC]), then the one of the math library, with no call and
    no printed result before it; and the handler reads the console at
    least once and at most once per operand. *)
Theorem handler_call_discipline (E : Externals) (f : cordic_primitive)
    (w : world) :
  let l := new_events (handler E f) w in
  (forall p operands, In (EvCordic p operands) l -> p = f)
  /\ ((count_events is_cordic_call l = 0%nat
       /\ count_events is_result_print l = 0%nat)
      \/ exists pre,
           (count_events is_cordic_call pre = 0%nat
            /\ count_events is_result_print pre = 0%nat)
           /\ exists operands a1 a2,
                l = pre ++ [EvCordic f operands;
                            EvPrintf (cordic_format f) a1;
                            EvPrintf (math_format f) a2])
  /\ (1 <= count_events is_console_read l <= operand_count f)%nat.
Proof.
  cbv zeta. destruct_world w.
  destruct f; unfold_handlers; repeat explore_step; discipline_leaf.
Qed.

Ltac completion_leaf :=
  run; trace_list;
  split;
  [ let H := fresh "H" in
    intros [? H];
    first
      [ solve [in_list_cases H; try contradiction; discriminate H]
      | split; [not_in_list | split; not_in_list] ]
  | let H1 := fresh "H" in let H2 := fresh "H" in let H3 := fresh "H" in
    intros (H1 & H2 & H3);
    first
      [ solve [eexists; cbn [In]; auto 12]
      | exfalso; apply H1; cbn [In]; solve [auto 12]
      | exfalso; apply H2; cbn [In]; solve [auto 12]
      | exfalso; apply H3; cbn [In]; solve [auto 12] ] ].

(** X2.  A handler calls the accelerator exactly when no console read failed
    and neither the diagnostic of [check_range] nor the message for the
    number 0 was printed. *)
Theorem handler_completes_iff (E : Externals) (f : cordic_primitive)
    (w : world) :
  let l := new_events (handler E f) w in
  (exists operands, In (EvCordic f operands) l)
  <-> (~ In (EvScanf (-1)) l
       /\ ~ In (EvPrint msg_not_in_range) l
       /\ ~ In (EvPrint msg_number_is_zero) l).
Proof.
  cbv zeta. destruct_world w.
  destruct f; unfold_handlers; repeat explore_step; completion_leaf.
Qed.

(** ** The read buffer *)

Lemma length_app_string (a b : string) :
  String.length (a ++ b) = (String.length a + String.length b)%nat.
Proof. induction a; simpl; congruence. Qed.

Lemma length_drop (n : nat) (s : string) :
  String.length (drop n s) = (String.length s - n)%nat.
Proof.
  revert s. induction n as [|n IH]; intros s; simpl.
  - lia.
  - destruct s; simpl; [reflexivity|apply IH].
Qed.

Lemma length_c_str (s : string) :
  (String.length (c_str s) <= String.length s)%nat.
Proof.
  induction s as [|c r IH]; simpl; [lia|].
  destruct (Ascii.eqb c NUL); simpl; lia.
Qed.

Lemma length_take_token (n : nat) (s : string) :
  (String.length (fst (take_token n s)) <= n)%nat.
Proof.
  revert s. induction n as [|n IH]; intros s; simpl; [lia|].
  destruct s as [|c r]; simpl; [lia|].
  destruct (is_space c); simpl; [lia|].
  specialize (IH r). destruct (take_token n r); simpl in *. lia.
Qed.

(** A token read by [%120s] has at most 120 characters. *)
Lemma scan_token_length (s tok rest : string) :
  scan_token s = Some (tok, rest) -> (String.length tok <= 120)%nat.
Proof.
  unfold scan_token. destruct (skip_space s) as [|c r]; [discriminate|].
  pose proof (length_take_token 120 (String c r)) as L.
  destruct (take_token 120 (String c r)) as [t r'].
  intros H. inversion H; subst. exact L.
Qed.

Lemma store_token_terminated (tok buf : string) :
  terminated_buffer buf -> (String.length tok <= 120)%nat ->
  terminated_buffer (store_token tok buf).
Proof.
  intros [Hl _] Ht. split.
  - unfold store_token. rewrite length_app_string. cbn [String.length].
    rewrite length_drop. lia.
  - rewrite c_str_store_token. pose proof (length_c_str tok). lia.
Qed.

Ltac buffer_leaf :=
  run;
  repeat match goal with
         | H : scan_token _ = Some _ |- _ => apply scan_token_length in H
         end;
  repeat (apply store_token_terminated; [|assumption]);
  assumption.

(** A handler leaves the read buffer terminated. *)
Lemma handler_keeps_buffer (E : Externals) (f : cordic_primitive)
    (w : world) :
  terminated_buffer (read_string (w_globals w)) ->
  terminated_buffer (read_string (w_globals (exec (handler E f) w))).
Proof.
  destruct_state w. cbn [read_string]. intros Hb.
  destruct f; unfold_handlers; repeat explore_step; buffer_leaf.
Qed.

Lemma menu_round_keeps_buffer (E : Externals) (w : world) :
  terminated_buffer (read_string (w_globals w)) ->
  terminated_buffer (read_string (w_globals (exec (menu_round E) w))).
Proof.
  intros Hb.
  destruct (scan_token (w_stdin w)) as [[tok rest]|] eqn:Hs.
  - unfold exec. rewrite (menu_round_selected E w tok rest Hs). cbv zeta.
    set (f := enum_cast (selector_repr E) (atoi (c_str tok))).
    assert (Hsel : terminated_buffer
                     (read_string (w_globals (selected w tok rest f)))).
    { unfold selected. destruct_state w. cbn [read_string] in Hb. run.
      apply store_token_terminated; [exact Hb|].
      exact (scan_token_length _ _ _ Hs). }
    destruct (dispatch_cases E f) as [Hd | (p & Hd)]; rewrite Hd.
    + destruct (selected w tok rest f) as [g i t]. destruct g.
      run. exact Hsel.
    + pose proof (handler_keeps_buffer E p _ Hsel) as H.
      unfold exec in H. unfold bind.
      destruct (handler E p (selected w tok rest f)) as [u [g i t]].
      destruct g. run. exact H.
  - unfold menu_round. destruct_state w. cbn [read_string] in Hb.
    repeat exec_step. run. exact Hb.
Qed.

Lemma rounds_keep_buffer (E : Externals) (n : nat) (w : world) :
  terminated_buffer (read_string (w_globals w)) ->
  terminated_buffer (read_string (w_globals (exec (rounds E n) w))).
Proof.
  revert w. induction n as [|n IH]; intros w Hb.
  - exact Hb.
  - pose proof (menu_round_keeps_buffer E w Hb) as H1.
    unfold exec in *. cbn [rounds]. unfold bind at 1.
    destruct (menu_round E w) as [u w1]. cbn [snd] in H1.
    apply IH. exact H1.
Qed.

(** X3.  The read buffer of 128 bytes is never overrun: if it holds a
    terminated string of at most 120 characters when the program starts,
    it still has 128 bytes and holds such a string after any number of
    rounds, whatever the console input and the operations selected. *)
Theorem read_string_never_overrun (E : Externals) (n : nat) (w : world) :
  terminated_buffer (read_string (w_globals w)) ->
  terminated_buffer
    (read_string (w_globals (exec (run_cordic_functions E n) w))).
Proof.
  intros Hb. unfold run_cordic_functions, exec, bind.
  destruct (printf msg_clear_screen w) as [u w1] eqn:Hp.
  assert (H1 : terminated_buffer (read_string (w_globals w1))).
  { unfold printf, emit in Hp. inversion Hp; subst. exact Hb. }
  exact (rounds_keep_buffer E n w1 H1).
Qed.

Lemma read_string_never_overrun_witness :
  terminated_buffer (read_string (w_globals (initial_world "1 45 9 0.25")))
  /\ terminated_buffer
       (read_string
          (w_globals
             (exec (run_cordic_functions stub_externals 3)
                (initial_world "1 45 9 0.25")))).
Proof.
  assert (H : terminated_buffer
                (read_string (w_globals (initial_world "1 45 9 0.25"))))
    by (split; [reflexivity|vm_compute; lia]).
  split; [exact H|].
  exact (read_string_never_overrun stub_externals 3 _ H).
Defined.

(** ** The rounds of the menu *)

Lemma exec_bind {A B} (c : M A) (k : A -> M B) (w : world) :
  exec (bind c k) w = exec (k (fst (c w))) (exec c w).
Proof. unfold exec, bind. destruct (c w). reflexivity. Qed.

Lemma count_events_app (p : event -> bool) (l1 l2 : list event) :
  count_events p (l1 ++ l2) = (count_events p l1 + count_events p l2)%nat.
Proof. unfold count_events. rewrite filter_app, length_app. reflexivity. Qed.

Lemma count_events_none (p : event -> bool) (l : list event) :
  (forall e, In e l -> p e = false) -> count_events p l = 0%nat.
Proof.
  unfold count_events. induction l as [|a l IH]; intros H; simpl.
  - reflexivity.
  - rewrite (H a (or_introl eq_refl)). apply IH.
    intros e He. apply H. right. exact He.
Qed.

Ltac no_menu_event e H :=
  in_list_cases H; try contradiction; subst e;
  split; try reflexivity; vm_compute; reflexivity.

Ltac no_menu_leaf :=
  run; eexists; split; [trace_list; reflexivity|];
  let e := fresh "e" in let H := fresh "H" in
  intros e H; no_menu_event e H.

(** No handler prints a line of the menu or clears the screen. *)
Lemma handler_prints_no_menu (E : Externals) (f : cordic_primitive)
    (w : world) :
  exists l,
    w_trace (exec (handler E f) w) = w_trace w ++ l
    /\ forall e, In e l ->
         is_menu_line e = false /\ is_clear_screen e = false.
Proof.
  destruct_state w.
  destruct f; unfold_handlers; repeat explore_step; no_menu_leaf.
Qed.

(** A round prints the menu, and then no line of the menu again; it does
    not clear the screen. *)
Lemma menu_round_events (E : Externals) (w : world) :
  exists l,
    w_trace (exec (menu_round E) w)
    = w_trace w ++ map EvPrint menu_lines ++ l
    /\ forall e, In e l ->
         is_menu_line e = false /\ is_clear_screen e = false.
Proof.
  destruct (scan_token (w_stdin w)) as [[tok rest]|] eqn:Hs.
  - unfold exec. rewrite (menu_round_selected E w tok rest Hs). cbv zeta.
    set (f := enum_cast (selector_repr E) (atoi (c_str tok))).
    destruct (dispatch_cases E f) as [Hd | (p & Hd)]; rewrite Hd.
    + eexists. split.
      * unfold selected. run. trace_list. reflexivity.
      * intros e H. no_menu_event e H.
    + destruct (handler_prints_no_menu E p (selected w tok rest f))
        as (l & Hl & Hn).
      unfold exec in Hl. unfold bind.
      destruct (handler E p (selected w tok rest f)) as [u [g' i' tr']].
      unfold selected in Hl. cbn [snd w_trace] in Hl. run. rewrite Hl.
      exists ([EvScanf 1] ++ l ++ [EvPrint msg_end_of_round]). split.
      * repeat rewrite <- app_assoc. reflexivity.
      * intros e H. apply in_app_or in H. destruct H as [H|H].
        { no_menu_event e H. }
        apply in_app_or in H. destruct H as [H|H]; [exact (Hn e H)|].
        no_menu_event e H.
  - rewrite (menu_round_eof E w Hs). eexists. split; [reflexivity|].
    intros e H. no_menu_event e H.
Qed.

Lemma rounds_succ (E : Externals) (n : nat) (w : world) :
  exec (rounds E (S n)) w = exec (rounds E n) (exec (menu_round E) w).
Proof. cbn [rounds]. apply exec_bind. Qed.

(** Rounds compose: [n + m] rounds are [n] rounds followed by [m]. *)
Lemma rounds_add (E : Externals) (n m : nat) (w : world) :
  exec (rounds E (n + m)) w = exec (rounds E m) (exec (rounds E n) w).
Proof.
  revert w. induction n as [|n IH]; intros w.
  - reflexivity.
  - cbn [Nat.add]. rewrite !rounds_succ. apply IH.
Qed.

Lemma rounds_extend (E : Externals) (n : nat) (w : world) :
  exists l,
    w_trace (exec (rounds E n) w) = w_trace w ++ l
    /\ count_events is_menu_line l = (13 * n)%nat
    /\ count_events is_clear_screen l = 0%nat.
Proof.
  revert w. induction n as [|n IH]; intros w.
  - exists []. split; [symmetry; apply app_nil_r|split; reflexivity].
  - rewrite rounds_succ.
    destruct (menu_round_events E w) as (l1 & H1 & N1).
    destruct (IH (exec (menu_round E) w)) as (l2 & H2 & C2 & S2).
    exists ((map EvPrint menu_lines ++ l1) ++ l2). split.
    + rewrite H2, H1. repeat rewrite <- app_assoc. reflexivity.
    + rewrite !count_events_app, C2, S2.
      rewrite (count_events_none is_menu_line l1)
        by (intros e He; exact (proj1 (N1 e He))).
      rewrite (count_events_none is_clear_screen l1)
        by (intros e He; exact (proj2 (N1 e He))).
      change (count_events is_menu_line (map EvPrint menu_lines)) with 13%nat.
      change (count_events is_clear_screen (map EvPrint menu_lines))
        with 0%nat.
      split; lia.
Qed.

(** X4.  The program clears the screen exactly once, as its first output;
    and up to the end of its [n]-th round it has printed exactly [13 * n]
    lines of the menu: the menu once per round, and no handler prints a
    line of it. *)
Theorem menu_printed_every_round (E : Externals) (n : nat) (w : world) :
  exists l,
    new_events (run_cordic_functions E n) w = EvPrint msg_clear_screen :: l
    /\ count_events is_clear_screen l = 0%nat
    /\ count_events is_clear_screen (new_events (run_cordic_functions E n) w)
       = 1%nat
    /\ count_events is_menu_line l = (13 * n)%nat
    /\ count_events is_menu_line (new_events (run_cordic_functions E n) w)
       = (13 * n)%nat.
Proof.
  unfold run_cordic_functions.
  destruct (rounds_extend E n (print_event w (EvPrint msg_clear_screen)))
    as (l & Hl & Hc & Hs).
  assert (Ht : w_trace (exec (printf msg_clear_screen ;; rounds E n)%cprog w)
               = w_trace w ++ EvPrint msg_clear_screen :: l).
  { rewrite exec_bind.
    change (exec (printf msg_clear_screen) w)
      with (print_event w (EvPrint msg_clear_screen)).
    rewrite Hl. cbn [print_event w_trace]. rewrite <- app_assoc. reflexivity. }
  exists l. rewrite (new_events_trace _ _ _ Ht).
  split; [reflexivity|]. split; [exact Hs|].
  change (EvPrint msg_clear_screen :: l)
    with ([EvPrint msg_clear_screen] ++ l).
  rewrite !count_events_app, Hc, Hs. repeat split.
Qed.

Lemma menu_round_idle (E : Externals) (w : world) :
  scan_token (w_stdin w) = None ->
  exec (menu_round E) w
  = {| w_globals := set_read_status (-1) (w_globals w);
       w_stdin := EmptyString;
       w_trace := w_trace w ++ idle_round |}.
Proof.
  intros Hs. unfold menu_round, idle_round. destruct_state w.
  repeat exec_step. run. trace_list. reflexivity.
Qed.

Lemma rounds_idle (E : Externals) (n : nat) (w : world) :
  scan_token (w_stdin w) = None ->
  exec (rounds E (S n)) w
  = {| w_globals := set_read_status (-1) (w_globals w);
       w_stdin := EmptyString;
       w_trace := w_trace w ++ List.concat (List.repeat idle_round (S n)) |}.
Proof.
  revert w. induction n as [|n IH]; intros w Hs.
  - rewrite rounds_succ, (menu_round_idle E w Hs). cbn [rounds ret exec snd].
    cbn [List.repeat List.concat]. rewrite app_nil_r. reflexivity.
  - rewrite rounds_succ, (menu_round_idle E w Hs).
    rewrite IH by reflexivity. cbn [w_globals w_stdin w_trace].
    rewrite <- app_assoc. destruct_state w. reflexivity.
Qed.

(** X5.  Once the console input is exhausted the program keeps printing the
    menu: every round is the menu, the failed read and the end of the round;
    no accelerator primitive is called, and of the globals only
    [read_status] changes, to the -1 of [scanf]. *)
Theorem exhausted_input_rounds (E : Externals) (n : nat) (w : world) :
  scan_token (w_stdin w) = None ->
  new_events (run_cordic_functions E (S n)) w
  = EvPrint msg_clear_screen :: List.concat (List.repeat idle_round (S n))
  /\ w_globals (exec (run_cordic_functions E (S n)) w)
     = set_read_status (-1) (w_globals w)
  /\ forall p operands,
       ~ In (EvCordic p operands) (new_events (run_cordic_functions E (S n)) w).
Proof.
  intros Hs.
  assert (He : exec (run_cordic_functions E (S n)) w
               = {| w_globals := set_read_status (-1) (w_globals w);
                    w_stdin := EmptyString;
                    w_trace := w_trace w
                               ++ EvPrint msg_clear_screen
                                  :: List.concat (List.repeat idle_round (S n)) |}).
  { unfold run_cordic_functions. rewrite exec_bind.
    change (exec (printf msg_clear_screen) w)
      with (print_event w (EvPrint msg_clear_screen)).
    rewrite rounds_idle by exact Hs.
    cbn [print_event w_globals w_stdin w_trace].
    rewrite <- app_assoc. reflexivity. }
  assert (Hn : new_events (run_cordic_functions E (S n)) w
               = EvPrint msg_clear_screen :: List.concat (List.repeat idle_round (S n))).
  { apply new_events_trace. rewrite He. reflexivity. }
  split; [exact Hn|]. split; [rewrite He; reflexivity|].
  intros p ops. rewrite Hn. intros [H|H]; [discriminate H|].
  apply in_concat in H. destruct H as (r & Hr & Hin).
  apply repeat_spec in Hr. subst r.
  unfold idle_round in Hin. apply in_app_or in Hin. destruct Hin as [H|H].
  - apply in_map_iff in H. destruct H as (s & H & _). discriminate H.
  - in_list_cases H; try contradiction; discriminate H.
Qed.

Lemma exhausted_input_rounds_witness :
  scan_token (w_stdin (initial_world "  ")) = None
  /\ read_status
       (w_globals (exec (run_cordic_functions stub_externals 2)
                     (initial_world "  "))) = -1.
Proof.
  split; [reflexivity|].
  rewrite (proj1 (proj2
    (exhausted_input_rounds stub_externals 1 (initial_world "  ") eq_refl))).
  reflexivity.
Defined.

(** ** The menu and the switch *)

Lemma dispatch_selector (E : Externals) (p : cordic_primitive) :
  dispatch E (selector p) = handler E p.
Proof. destruct p; reflexivity. Qed.

Lemma handler_first_text (E : Externals) (p : cordic_primitive) (w : world) :
  exists l, new_events (handler E p) w = EvPrint (selected_text p) :: l.
Proof.
  destruct_state w.
  destruct p; unfold_handlers; repeat explore_step; run; trace_list;
    eexists; reflexivity.
Qed.

(** X6.  The menu and the [switch] agree: when the token read selects the
    operation [p], the line of the menu with the number of [p] names [p],
    the round runs the handler of [p] and then ends, and the first text
    after the read is [Selected option - ] with the same name. *)
Theorem selector_runs_listed_operation (E : Externals) (w : world)
    (tok rest : string) (p : cordic_primitive) :
  scan_token (w_stdin w) = Some (tok, rest) ->
  enum_cast (selector_repr E) (atoi (c_str tok)) = selector p ->
  nth (Z.to_nat (selector p) + 2) menu_lines EmptyString = menu_entry p
  /\ menu_round E w
     = (handler E p ;; printf msg_end_of_round)%cprog
         (selected w tok rest (selector p))
  /\ exists l,
       new_events (menu_round E) w
       = map EvPrint menu_lines
         ++ [EvScanf 1; EvPrint (selected_text p)] ++ l
         ++ [EvPrint msg_end_of_round].
Proof.
  intros Hs Hf.
  split; [destruct p; reflexivity|].
  assert (Hm : menu_round E w
               = (handler E p ;; printf msg_end_of_round)%cprog
                   (selected w tok rest (selector p))).
  { rewrite (menu_round_selected E w tok rest Hs). cbv zeta. rewrite Hf.
    rewrite dispatch_selector. reflexivity. }
  split; [exact Hm|].
  destruct (handler_first_text E p (selected w tok rest (selector p)))
    as (l & Hl).
  destruct (handler_outcome E p (selected w tok rest (selector p)))
    as (l' & Ht & _).
  rewrite (new_events_trace _ _ _ Ht) in Hl. subst l'.
  exists l. apply new_events_trace.
  unfold exec in *. rewrite Hm. unfold bind.
  destruct (handler E p (selected w tok rest (selector p)))
    as [u [g' i' tr']].
  unfold selected in Ht. cbn [snd w_trace] in Ht. run. rewrite Ht.
  repeat rewrite <- app_assoc. reflexivity.
Qed.

Lemma selector_runs_listed_operation_witness :
  scan_token (w_stdin (initial_world "7 10")) = Some ("7", " 10")%string
  /\ enum_cast (selector_repr stub_externals) (atoi (c_str "7"))
     = selector HwTanh
  /\ nth (Z.to_nat (selector HwTanh) + 2) menu_lines EmptyString
     = menu_entry HwTanh.
Proof.
  split; [reflexivity|]. split; [reflexivity|].
  exact (proj1
    (selector_runs_listed_operation stub_externals (initial_world "7 10")
       "7" " 10" HwTanh eq_refl eq_refl)).
Defined.


(** ** Fixed point to float on integers of 24 significant bits *)

(** Dividing a normal binary32 number by the power of two [2^(e2+23)] is
    exact when the quotient is normal. *)
Lemma div_pow2_exact (s : bool) (M E e2 : Z) :
  0 < M -> Z.log2 M = 23 -> -125 <= E - e2 - 23 <= 104 ->
  B32.div (S754_finite s (Z.to_pos M) E) (S754_finite false 8388608 e2)
  = S754_finite s (Z.to_pos M) (E - e2 - 23).
Proof.
  intros HM Hl HE.
  unfold B32.div, SFdiv, B32.prec, B32.emax.
  replace (xorb s false) with s by (destruct s; reflexivity).
  unfold SFdiv_core_binary.
  rewrite (Z2Pos_id_pos M HM), (Zdigits2_log2 M HM), Hl.
  change (Zdigits2 8388608) with 24.
  replace (Z.min (fexp 24 128 (23 + 1 + E - (24 + e2))) (E - e2))
    with (E - e2 - 24) by (unfold fexp, emin; lia).
  replace (E - e2 - (E - e2 - 24)) with 24 by lia.
  rewrite Z.shiftl_mul_pow2 by lia.
  rewrite div_eucl_div_mod.
  replace (M * 2 ^ 24) with (M * 2 * 8388608)
    by (change (2 ^ 24) with 16777216; lia).
  rewrite Z.div_mul, Z.mod_mul by lia.
  change (new_location 8388608 0) with loc_Exact.
  change (M * 2) with (M * 2 ^ 1).
  rewrite binary_round_aux_exact; try lia.
  - f_equal. lia.
  - rewrite Z.log2_mul_pow2 by lia. rewrite Hl. unfold fexp, emin. lia.
Qed.

Lemma F2Q_normalized (s : bool) (q j k : Z) :
  0 < q < 2 ^ 24 -> 0 <= j <= 7 -> 11 <= k <= 31 ->
  (F2Q (S754_finite s (Z.to_pos (q * 2 ^ (23 - Z.log2 q)))
          (j + Z.log2 q - 23 - k))
   == Qmake (cond_Zopp s (q * 2 ^ j)) (Z.to_pos (2 ^ k)))%Q.
Proof.
  intros Hq Hj Hk.
  assert (Hlq : 0 <= Z.log2 q <= 23).
  { split; [apply Z.log2_nonneg|].
    assert (Z.log2 q < 24) by (apply Z.log2_lt_pow2; lia). lia. }
  assert (HM : 0 < q * 2 ^ (23 - Z.log2 q))
    by (apply Z.mul_pos_pos; [lia|apply pow2_pos; lia]).
  rewrite F2Q_scaled by lia.
  unfold Qeq. cbn [Qnum Qden].
  rewrite !Z2Pos_id_pos by (apply pow2_pos; lia).
  replace (q * 2 ^ (23 - Z.log2 q) * 2 ^ (j + Z.log2 q - 23 - k + 180))
    with (q * 2 ^ j * 2 ^ (180 - k)).
  - replace (2 ^ 180) with (2 ^ (180 - k) * 2 ^ k)
      by (rewrite <- pow2_split by lia; f_equal; lia).
    destruct s; cbn [cond_Zopp]; ring.
  - rewrite <- !Z.mul_assoc, <- !pow2_split by lia. f_equal. f_equal. lia.
Qed.

(** X7.  The conversions from fixed point are exact on integers of at most
    24 significant bits: for [n = +-q * 2^j] with [q < 2^24] and [j <= 7],
    [Q31_TO_FLOAT n], [Q1_30_TO_FLOAT n] and [Q20_11_TO_FLOAT n] denote
    [n / 2^31], [n / 2^30] and [n / 2^11]. *)
Theorem fixed_to_float_exact (s : bool) (q j : Z) :
  0 < q < 2 ^ 24 -> 0 <= j <= 7 ->
  let n := cond_Zopp s (q * 2 ^ j) in
  (F2Q (Q31_TO_FLOAT n) == Qmake n (2 ^ 31))%Q
  /\ (F2Q (Q1_30_TO_FLOAT n) == Qmake n (2 ^ 30))%Q
  /\ (F2Q (Q20_11_TO_FLOAT n) == Qmake n (2 ^ 11))%Q.
Proof.
  intros Hq Hj n.
  assert (Hlq : 0 <= Z.log2 q <= 23).
  { split; [apply Z.log2_nonneg|].
    assert (Z.log2 q < 24) by (apply Z.log2_lt_pow2; lia). lia. }
  assert (HM : 0 < q * 2 ^ (23 - Z.log2 q))
    by (apply Z.mul_pos_pos; [lia|apply pow2_pos; lia]).
  assert (HlM : Z.log2 (q * 2 ^ (23 - Z.log2 q)) = 23)
    by (rewrite Z.log2_mul_pow2 by lia; lia).
  unfold Q31_TO_FLOAT, Q1_30_TO_FLOAT, Q20_11_TO_FLOAT, n.
  rewrite of_Z_exact by lia.
  change (B32.of_Z Q31_MULTIPLIER) with (S754_finite false 8388608 8).
  change (B32.of_Z Q30_MULTIPLIER) with (S754_finite false 8388608 7).
  change (B32.of_Z Q11_MULTIPLIER) with (S754_finite false 8388608 (-12)).
  rewrite !div_pow2_exact by (try exact HM; try exact HlM; lia).
  replace (j + Z.log2 q - 23 - 8 - 23) with (j + Z.log2 q - 23 - 31) by lia.
  replace (j + Z.log2 q - 23 - 7 - 23) with (j + Z.log2 q - 23 - 30) by lia.
  replace (j + Z.log2 q - 23 - -12 - 23) with (j + Z.log2 q - 23 - 11) by lia.
  rewrite !F2Q_normalized by lia.
  repeat split; reflexivity.
Qed.

Lemma bounded_normal (M E : Z) :
  0 < M -> Z.log2 M = 23 -> -149 <= E <= 104 ->
  bounded 24 128 (Z.to_pos M) E = true.
Proof.
  intros HM Hl HE. unfold bounded, canonical_mantissa.
  change (Zpos (digits2_pos (Z.to_pos M))) with (Zdigits2 (Zpos (Z.to_pos M))).
  rewrite (Z2Pos_id_pos M HM), (Zdigits2_log2 M HM), Hl.
  apply andb_true_intro. split.
  - apply Z.eqb_eq. unfold fexp, emin. lia.
  - apply Z.leb_le. lia.
Qed.

Lemma fixed_to_float_exact_witness :
  0 < 3 < 2 ^ 24 /\ 0 <= 2 <= 7
  /\ (F2Q (Q31_TO_FLOAT 12) == Qmake 12 (2 ^ 31))%Q.
Proof.
  assert (H1 : 0 < 3 < 2 ^ 24) by (split; reflexivity).
  assert (H2 : 0 <= 2 <= 7) by (split; discriminate).
  split; [exact H1|]. split; [exact H2|].
  exact (proj1 (fixed_to_float_exact false 3 2 H1 H2)).
Defined.

(** X8.  Q31 to float and back: an [int32_t] of at most 24 significant bits
    is recovered by [FLOAT_TO_Q31 (Q31_TO_FLOAT n)], on every platform. *)
Theorem Q31_fixed_round_trip (u : float32_t -> Z) (s : bool) (q j : Z) :
  0 < q < 2 ^ 24 -> 0 <= j <= 7 ->
  let n := cond_Zopp s (q * 2 ^ j) in
  INT32_MIN <= n <= INT32_MAX ->
  FLOAT_TO_Q31 u (Q31_TO_FLOAT n) = n.
Proof.
  intros Hq Hj n Hn.
  assert (Hlq : 0 <= Z.log2 q <= 23).
  { split; [apply Z.log2_nonneg|].
    assert (Z.log2 q < 24) by (apply Z.log2_lt_pow2; lia). lia. }
  set (lq := Z.log2 q) in *.
  assert (HM : 0 < q * 2 ^ (23 - lq))
    by (apply Z.mul_pos_pos; [lia|apply pow2_pos; lia]).
  assert (HlM : Z.log2 (q * 2 ^ (23 - lq)) = 23)
    by (rewrite Z.log2_mul_pow2 by lia; fold lq; lia).
  pose proof (pow2_pos j ltac:(lia)) as Hpj.
  assert (HT : 0 < q * 2 ^ j) by (apply Z.mul_pos_pos; lia).
  assert (Hle : q * 2 ^ j <= 2 ^ 31 /\ (s = false -> q * 2 ^ j < 2 ^ 31)).
  { unfold n, INT32_MIN, INT32_MAX in Hn. change (2 ^ 31) with 2147483648.
    destruct s; cbn [cond_Zopp] in Hn; split; try lia; discriminate. }
  assert (HlT : j + lq <= 31).
  { assert (Z.log2 (q * 2 ^ j) <= Z.log2 (2 ^ 31))
      by (apply Z.log2_le_mono; lia).
    rewrite Z.log2_mul_pow2, Z.log2_pow2 in H by lia. fold lq in H. lia. }
  assert (HQ : Q31_TO_FLOAT n
               = S754_finite s (Z.to_pos (q * 2 ^ (23 - lq)))
                   (j + lq - 23 - 31)).
  { unfold Q31_TO_FLOAT, n. rewrite of_Z_exact by lia. fold lq.
    rewrite of_Z_Q31_MULTIPLIER.
    apply div_two31_exact; [exact HM|exact HlM|lia]. }
  rewrite HQ.
  set (M := q * 2 ^ (23 - lq)) in *. set (E := j + lq - 23 - 31).
  assert (Hb : bounded 24 128 (Z.to_pos M) E = true)
    by (apply bounded_normal; unfold E; lia).
  assert (Hm : Zpos (Z.to_pos M) <= 2 ^ (- E)
               /\ (s = false -> Zpos (Z.to_pos M) < 2 ^ (- E))).
  { rewrite (Z2Pos_id_pos M HM). unfold E.
    replace (- (j + lq - 23 - 31)) with ((23 - lq) + (31 - (j + lq)) + lq)
      by lia.
    rewrite !pow2_split by lia. unfold M.
    assert (E31 : 2 ^ 31 = 2 ^ j * 2 ^ (31 - (j + lq)) * 2 ^ lq).
    { rewrite <- !pow2_split by lia. f_equal. lia. }
    destruct Hle as [Hle1 Hle2]. rewrite E31 in Hle1, Hle2.
    pose proof (pow2_pos (23 - lq) ltac:(lia)).
    pose proof (pow2_pos (31 - (j + lq)) ltac:(lia)).
    pose proof (pow2_pos lq ltac:(lia)).
    set (A := 2 ^ (23 - lq)) in *. set (B := 2 ^ (31 - (j + lq))) in *.
    set (C := 2 ^ lq) in *. set (J := 2 ^ j) in *.
    clearbody A B C J.
    assert (Hq1 : q <= B * C) by nia.
    split; [nia|]. intros Hs. specialize (Hle2 Hs).
    assert (Hq2 : q < B * C) by nia. nia. }
  destruct Hm as [Hm1 Hm2].
  destruct (FLOAT_TO_Q31_unit_range u s (Z.to_pos M) E Hb
              ltac:(unfold E; lia) Hm1 Hm2) as (HF & _).
  rewrite HF. rewrite (Z2Pos_id_pos M HM). unfold n. f_equal.
  unfold E, M.
  replace (j + lq - 23 - 31 + 31) with (j - (23 - lq)) by lia.
  rewrite Zfloor_scaled_shift by lia.
  unfold Zfloor_scaled. destruct (Z.leb_spec 0 j); [reflexivity|lia].
Qed.

Lemma Q31_fixed_round_trip_witness :
  0 < 5 < 2 ^ 24 /\ 0 <= 7 <= 7 /\ INT32_MIN <= -640 <= INT32_MAX
  /\ FLOAT_TO_Q31 indefinite_cast (Q31_TO_FLOAT (-640)) = -640.
Proof.
  assert (H1 : 0 < 5 < 2 ^ 24) by (split; reflexivity).
  assert (H2 : 0 <= 7 <= 7) by (split; discriminate).
  assert (H3 : INT32_MIN <= -640 <= INT32_MAX) by (split; discriminate).
  split; [exact H1|]. split; [exact H2|]. split; [exact H3|].
  exact (Q31_fixed_round_trip indefinite_cast true 5 7 H1 H2 H3).
Defined.

(** Two finite numbers that compare equal in both directions are the same
    float. *)
Lemma leb_antisym_finite (s1 s2 : bool) (m1 m2 : positive) (e1 e2 : Z) :
  B32.leb (S754_finite s1 m1 e1) (S754_finite s2 m2 e2) = true ->
  B32.leb (S754_finite s2 m2 e2) (S754_finite s1 m1 e1) = true ->
  S754_finite s1 m1 e1 = S754_finite s2 m2 e2.
Proof.
  unfold B32.leb, SFleb. intros H1 H2.
  destruct (SFcompare (S754_finite s1 m1 e1) (S754_finite s2 m2 e2))
    as [c|] eqn:Hc; [|discriminate].
  rewrite (SFcompare_antisym _ _ _ Hc) in H2.
  assert (c = Eq) by (destruct c; simpl in *; congruence). subst c.
  cbn [SFcompare] in Hc.
  destruct s1, s2; try discriminate;
    destruct (Z.compare_spec e1 e2) as [He|He|He]; try discriminate;
    subst e2; injection Hc as Hc;
    [ apply (f_equal CompOpp) in Hc; rewrite CompOpp_involutive in Hc;
      cbn [CompOpp] in Hc | ];
    change (Pos.compare_cont Eq m1 m2) with (Pos.compare m1 m2) in Hc;
    apply Pos.compare_eq in Hc; subst m2; reflexivity.
Qed.

(** X9.  On the range [-1, 1] that [check_range] accepts for the currents of
    the Park transform and for the square root, the product [x * 2^31] of
    [FLOAT_TO_Q31] leaves the range of [int32_t] for [x = 1] only, where it
    is [INT32_MAX + 1] and the conversion is left to the platform; everywhere
    else of the range the conversion is the integer part of the product, on
    every platform. *)
Theorem FLOAT_TO_Q31_overflows_only_at_one (u : float32_t -> Z)
    (x : float32_t) :
  B32.valid x = true ->
  B32.leb (B32.of_Z (-1)) x = true -> B32.leb x (B32.of_Z 1) = true ->
  let product := B32.mul x (B32.of_Z Q31_MULTIPLIER) in
  (INT32_MIN <= Ztrunc product <= INT32_MAX <-> x <> B32.of_Z 1)
  /\ (x = B32.of_Z 1 ->
      Ztrunc product = INT32_MAX + 1 /\ FLOAT_TO_Q31 u x = u product)
  /\ (x <> B32.of_Z 1 -> FLOAT_TO_Q31 u x = Ztrunc product).
Proof.
  intros Hv Hlo Hhi product.
  destruct x as [s0|s0| |s m e].
  - subst product.
    split; [split; [intros _; discriminate|intros _; vm_compute; split; discriminate]|].
    split; [discriminate|]. intros _. destruct s0; reflexivity.
  - destruct s0; discriminate.
  - discriminate.
  - destruct (B32.leb (B32.of_Z 1) (S754_finite s m e)) eqn:H1.
    + assert (Hx : S754_finite s m e = B32.of_Z 1).
      { apply leb_antisym_finite; assumption. }
      subst product. rewrite Hx.
      split; [split; [intros H; vm_compute in H; destruct H as [_ H];
                      exfalso; apply H; reflexivity
                     |intros H; exfalso; apply H; reflexivity]|].
      split; [intros _; split; reflexivity|].
      intros H; exfalso; apply H; reflexivity.
    + assert (Hne : S754_finite s m e <> B32.of_Z 1).
      { intros Hx. rewrite Hx in H1. discriminate H1. }
      assert (Em : (F2Q (B32.of_Z (-1)) == -1)%Q) by reflexivity.
      assert (Ep : (F2Q (B32.of_Z 1) == 1)%Q) by reflexivity.
      assert (Qlo : (-1 <= F2Q (S754_finite s m e))%Q).
      { rewrite <- Em.
        apply (leb_Qle (B32.of_Z (-1)) (S754_finite s m e));
          try reflexivity; assumption. }
      assert (Qhi : (F2Q (S754_finite s m e) < 1)%Q).
      { apply Qnot_le_lt. intros Hq. rewrite <- Ep in Hq.
        apply (leb_Qle (B32.of_Z 1) (S754_finite s m e)) in Hq;
          try reflexivity; try assumption.
        rewrite Hq in H1. discriminate H1. }
      unfold B32.valid, valid_binary, B32.prec, B32.emax in Hv.
      destruct (unit_range_inv s m e Hv Qlo Qhi) as (He & Hm & Hs).
      destruct (FLOAT_TO_Q31_unit_range u s m e Hv He Hm Hs)
        as (HQ & _ & Hc).
      cbv zeta in HQ, Hc. subst product.
      rewrite (Ztrunc_mul_two31 s m e Hv ltac:(lia)).
      split; [split; [intros _; exact Hne|intros _; exact Hc]|].
      split; [intros Hx; contradiction|]. intros _. exact HQ.
Qed.

Lemma FLOAT_TO_Q31_overflows_only_at_one_witness :
  B32.valid (B32.of_Z 1) = true
  /\ B32.leb (B32.of_Z (-1)) (B32.of_Z 1) = true
  /\ B32.leb (B32.of_Z 1) (B32.of_Z 1) = true
  /\ Ztrunc (B32.mul (B32.of_Z 1) (B32.of_Z Q31_MULTIPLIER)) = INT32_MAX + 1.
Proof.
  split; [reflexivity|]. split; [reflexivity|]. split; [reflexivity|].
  exact (proj1 (proj1 (proj2
           (FLOAT_TO_Q31_overflows_only_at_one saturating_cast (B32.of_Z 1)
              eq_refl eq_refl eq_refl)) eq_refl)).
Defined.

(** ** The angle passed to the accelerator *)

(** Rounding to binary32 gives one of the two neighbours of the exact
    value on the grid of the result's exponent, and the lower one when the
    exact value is on the grid. *)
Lemma binary_round_aux_bracket (s : bool) (M E : Z) :
  0 < M ->
  let g := fexp 24 128 (Z.log2 M + 1 + E) in
  E <= g -> g <= 103 ->
  exists k,
    (k = M / 2 ^ (g - E)
     \/ (k = M / 2 ^ (g - E) + 1 /\ M mod 2 ^ (g - E) <> 0))
    /\ ((k = 0 /\ binary_round_aux 24 128 s M E loc_Exact = S754_zero s)
        \/ exists m e,
             0 < m /\ g <= e /\ m * 2 ^ (e - g) = k
             /\ binary_round_aux 24 128 s M E loc_Exact
                = S754_finite s (Z.to_pos m) e).
Proof.
  intros HM g Hn Hg.
  set (n := g - E). assert (Hn0 : 0 <= n) by (unfold n; lia).
  pose proof (pow2_pos n Hn0) as Hpn.
  assert (Hgmin : -149 <= g) by (unfold g, fexp, emin; lia).
  destruct (Z.eq_dec (M mod 2 ^ n) 0) as [Hd|Hd].
  - (* the exact value is on the grid *)
    set (q := M / 2 ^ n).
    assert (HMq : M = q * 2 ^ n).
    { unfold q. rewrite (Z.div_mod M (2 ^ n)) at 1 by lia. rewrite Hd. ring. }
    assert (Hq : 0 < q) by nia.
    exists q. split; [left; reflexivity|]. right.
    exists q, g. split; [exact Hq|]. split; [lia|].
    split; [rewrite Z.sub_diag; ring|].
    rewrite HMq.
    replace g with (E + n) by (unfold n; lia).
    apply binary_round_aux_exact; try lia.
    rewrite <- HMq. fold g. unfold n. lia.
  - (* the exact value is between two points of the grid *)
    set (q := M / 2 ^ n).
    assert (Hq0 : 0 <= q) by (apply Z.div_pos; lia).
    assert (Hq24 : q < 2 ^ 24).
    { apply Z.div_lt_upper_bound; [lia|].
      pose proof (Z.log2_spec M HM) as [_ Hup].
      assert (Hle : Z.log2 M + 1 <= n + 24)
        by (unfold n, g, fexp, emin; lia).
      rewrite <- pow2_split by lia.
      eapply Z.lt_le_trans; [exact Hup|].
      apply Z.pow_le_mono_r; lia. }
    unfold binary_round_aux, shr_fexp.
    rewrite (Zdigits2_log2 M HM). fold g. fold n.
    change (shr_record_of_loc M loc_Exact) with (exact_record M).
    destruct (shr_m_shr M E n ltac:(lia) Hn0) as [Hm1 He1].
    destruct (shr (exact_record M) E n) as [mrs' e'].
    cbn [fst snd] in Hm1, He1. fold q in Hm1.
    replace (E + n) with g in He1 by (unfold n; lia). subst e'.
    rewrite Hm1.
    set (k := round_nearest_even q (loc_of_shr_record mrs')).
    assert (Hk : k = q \/ k = q + 1) by apply round_nearest_even_cases.
    exists k. split.
    { destruct Hk as [Hk|Hk]; [left; exact Hk|right; split; assumption]. }
    change (shr_record_of_loc k loc_Exact) with (exact_record k).
    assert (Hk24 : 0 <= k <= 2 ^ 24) by lia.
    destruct (Z.eq_dec k 0) as [Hz|Hz].
    + left. split; [exact Hz|]. rewrite Hz.
      rewrite shr_nonpos
        by (cbn [Zdigits2]; unfold fexp, emin; lia).
      reflexivity.
    + right. assert (Hkp : 0 < k) by lia.
      rewrite (Zdigits2_log2 k Hkp).
      destruct (Z.eq_dec k (2 ^ 24)) as [Ht|Ht].
      * exists (2 ^ 23), (g + 1).
        split; [reflexivity|]. split; [lia|].
        split; [rewrite Ht; replace (g + 1 - g) with 1 by lia; reflexivity|].
        rewrite Ht. change (Z.log2 (2 ^ 24)) with 24.
        replace (fexp 24 128 (24 + 1 + g) - g) with 1
          by (unfold fexp, emin; lia).
        change (2 ^ 24) with (2 ^ 23 * 2 ^ 1).
        rewrite shr_exact by lia.
        cbn [exact_record shr_m].
        replace (g + 1 <=? 128 - 24) with true
          by (symmetry; apply Z.leb_le; lia).
        reflexivity.
      * assert (Hl : Z.log2 k < 24) by (apply Z.log2_lt_pow2; lia).
        exists k, g. split; [exact Hkp|]. split; [lia|].
        split; [rewrite Z.sub_diag; ring|].
        rewrite shr_nonpos by (unfold fexp, emin; lia).
        cbn [exact_record shr_m].
        destruct k as [|p|p]; try lia.
        replace (g <=? 128 - 24) with true
          by (symmetry; apply Z.leb_le; lia).
        reflexivity.
Qed.

Lemma leb_Fscaled (x y : float32_t) :
  B32.valid x = true -> B32.valid y = true ->
  is_finite x = true -> is_finite y = true ->
  B32.leb x y = true <-> Fscaled x <= Fscaled y.
Proof.
  intros Vx Vy Fx Fy. unfold B32.leb, SFleb.
  rewrite (SFcompare_Fscaled x y Vx Vy Fx Fy).
  destruct (Z.compare_spec (Fscaled x) (Fscaled y)); split; intros;
    try reflexivity; try lia; discriminate.
Qed.

Lemma Zfloor_scaled_bound (k g : Z) :
  0 <= k -> -149 <= g <= 6 -> k <= 16777215 * 2 ^ (6 - g) ->
  0 <= Zfloor_scaled k g <= DEG_Q31_MAX.
Proof.
  intros Hk Hg Hb. unfold Zfloor_scaled, DEG_Q31_MAX.
  destruct (Z.leb_spec 0 g).
  - pose proof (pow2_pos g ltac:(lia)) as Hp.
    assert (E6 : 2 ^ (6 - g) * 2 ^ g = 64)
      by (rewrite <- pow2_split by lia; replace (6 - g + g) with 6 by lia;
          reflexivity).
    set (P := 2 ^ g) in *. set (Q := 2 ^ (6 - g)) in *. clearbody P Q.
    split; nia.
  - pose proof (pow2_pos (- g) ltac:(lia)) as Hp.
    assert (E6 : 2 ^ (6 - g) = 64 * 2 ^ (- g)).
    { replace (6 - g) with (6 + - g) by lia. rewrite pow2_split by lia.
      reflexivity. }
    rewrite E6 in Hb. set (P := 2 ^ (- g)) in *. clearbody P.
    split; [apply Z.div_pos; lia|].
    apply Z.div_le_upper_bound; [lia|]. nia.
Qed.

Lemma deg_multiplier_float :
  B32.of_Z (Q31_MULTIPLIER / 180) = S754_finite false 11930464 0.
Proof. vm_compute. reflexivity. Qed.

Lemma Fscaled_90 : Fscaled (B32.of_Z 90) = 90 * 2 ^ 149.
Proof. vm_compute. reflexivity. Qed.

Lemma Fscaled_m90 : Fscaled (B32.of_Z (-90)) = - (90 * 2 ^ 149).
Proof. vm_compute. reflexivity. Qed.

Lemma deg_to_q31_bounded (u : float32_t -> Z) (x : float32_t) :
  B32.valid x = true ->
  B32.leb (B32.of_Z (-90)) x = true ->
  B32.leb x (B32.of_Z 90) = true ->
  FLOAT_DEG_TO_RAD_Q31 u x
    = Ztrunc (B32.mul x (B32.of_Z (Q31_MULTIPLIER / 180)))
  /\ - DEG_Q31_MAX <= FLOAT_DEG_TO_RAD_Q31 u x <= DEG_Q31_MAX
  /\ FLOAT_DEG_TO_RAD_Q31 u (B32.of_Z 90) = DEG_Q31_MAX
  /\ FLOAT_DEG_TO_RAD_Q31 u (B32.of_Z (-90)) = - DEG_Q31_MAX.
Proof.
  intros Vx Hlo Hhi.
  assert (Fx : is_finite x = true)
    by (apply (leb_finite (B32.of_Z (-90)) (B32.of_Z 90)); auto).
  apply leb_Fscaled in Hlo; [|reflexivity|exact Vx|reflexivity|exact Fx].
  apply leb_Fscaled in Hhi; [|exact Vx|reflexivity|exact Fx|reflexivity].
  rewrite Fscaled_m90 in Hlo. rewrite Fscaled_90 in Hhi.
  assert (Hends : FLOAT_DEG_TO_RAD_Q31 u (B32.of_Z 90) = DEG_Q31_MAX
                  /\ FLOAT_DEG_TO_RAD_Q31 u (B32.of_Z (-90)) = - DEG_Q31_MAX)
    by (split; reflexivity).
  assert (Hmain :
            exists z,
              Ztrunc (B32.mul x (B32.of_Z (Q31_MULTIPLIER / 180))) = z
              /\ f32_to_s32 u (B32.mul x (B32.of_Z (Q31_MULTIPLIER / 180)))
                 = z
              /\ - DEG_Q31_MAX <= z <= DEG_Q31_MAX).
  { rewrite deg_multiplier_float.
    destruct x as [s|s| |s m e]; try discriminate.
    - exists 0. destruct s; repeat split; unfold DEG_Q31_MAX; lia.
    - unfold B32.valid, valid_binary, B32.prec, B32.emax in Vx.
      destruct (bounded_inv m e Vx) as [He104 Hd].
      assert (He : -149 <= e) by lia.
      assert (Habs : Zpos m * 2 ^ (e + 149) <= 90 * 2 ^ 149).
      { unfold Fscaled in Hlo, Hhi. destruct s; cbn [cond_Zopp] in *; lia. }
      unfold B32.mul, SFmul, B32.prec, B32.emax.
      set (M := Zpos (m * 11930464)).
      assert (EM : M = Zpos m * 11930464) by reflexivity.
      assert (HM : 0 < M) by (unfold M; lia).
      pose proof (pow2_pos (e + 149) ltac:(lia)) as HP.
      assert (Hlog : Z.log2 M + 1 + (e + 0) <= 30).
      { assert (HMP : M * 2 ^ (e + 149) < 2 ^ 179).
        { assert (H179 : 2 ^ 179 = 2 ^ 30 * 2 ^ 149) by reflexivity.
          assert (H149 : 0 < 2 ^ 149) by reflexivity.
          rewrite H179, EM. set (P := 2 ^ (e + 149)) in *.
          set (P149 := 2 ^ 149) in *. clearbody P P149. nia. }
        assert (Hl : Z.log2 (M * 2 ^ (e + 149)) < 179).
        { apply Z.log2_lt_pow2; [nia|exact HMP]. }
        rewrite Z.log2_mul_pow2 in Hl by lia. lia. }
      assert (Hlog23 : 23 <= Z.log2 M).
      { apply Z.log2_le_pow2; [lia|]. rewrite EM.
        change (2 ^ 23) with 8388608. lia. }
      pose proof (binary_round_aux_bracket (xorb s false) M (e + 0) HM) as B.
      cbv zeta in B.
      set (g := fexp 24 128 (Z.log2 M + 1 + (e + 0))) in *.
      assert (Hg1 : e + 0 <= g) by (unfold g, fexp, emin; lia).
      assert (Hg2 : g <= 6) by (unfold g, fexp, emin; lia).
      assert (Hg3 : -149 <= g) by (unfold g, fexp, emin; lia).
      destruct (B Hg1 ltac:(lia)) as [k [Hk Hres]].
      set (N := 2 ^ (g - (e + 0))) in *.
      assert (HN : 0 < N) by (apply pow2_pos; lia).
      set (b := 16777215 * 2 ^ (6 - g)).
      assert (Hb0 : 0 < 2 ^ (6 - g)) by (apply pow2_pos; lia).
      assert (HMb : M <= b * N).
      { assert (E1 : 90 * 11930464 * 2 ^ 149
                     = 16777215 * (2 ^ (6 - g) * (N * 2 ^ (e + 149)))).
        { unfold N. rewrite <- !pow2_split by lia.
          replace (6 - g + (g - (e + 0) + (e + 149))) with 155 by lia.
          reflexivity. }
        assert (H149 : 0 < 2 ^ 149) by reflexivity.
        unfold b. rewrite EM.
        set (P := 2 ^ (e + 149)) in *. set (P149 := 2 ^ 149) in *.
        set (Q := 2 ^ (6 - g)) in *. clearbody P P149 Q N.
        assert (Zpos m * 11930464 * P <= 16777215 * Q * N * P) by nia.
        nia. }
      assert (Hk0 : 0 <= k).
      { pose proof (Z.div_pos M N ltac:(lia) HN). lia. }
      assert (Hkb : k <= b).
      { destruct Hk as [Hk|[Hk Hm]].
        - subst k. apply Z.div_le_upper_bound; [exact HN|]. lia.
        - assert (M <> b * N).
          { intros Eq. apply Hm. rewrite Eq. apply Z.mod_mul. lia. }
          assert (M / N < b).
          { apply Z.div_lt_upper_bound; [exact HN|]. lia. }
          lia. }
      destruct Hres as [[Hz Hr]|[m' [e' [Hm' [He' [Hke Hr]]]]]].
      + rewrite Hr. exists 0. repeat split; unfold DEG_Q31_MAX; try lia.
      + rewrite Hr.
        assert (HZ : 0 <= Zfloor_scaled (Zpos (Z.to_pos m')) e' <= DEG_Q31_MAX).
        { rewrite Z2Pos_id_pos by exact Hm'.
          rewrite <- (Zfloor_scaled_shift m' e' (e' - g)) by lia.
          replace (e' - (e' - g)) with g by lia. rewrite Hke.
          apply Zfloor_scaled_bound; [exact Hk0|lia|exact Hkb]. }
        exists (cond_Zopp (xorb s false) (Zfloor_scaled (Zpos (Z.to_pos m')) e')).
        split; [reflexivity|].
        unfold DEG_Q31_MAX in *.
        split.
        * apply f32_to_s32_finite. rewrite Ztrunc_finite.
          unfold INT32_MIN, INT32_MAX.
          destruct (xorb s false); cbn [cond_Zopp]; lia.
        * destruct (xorb s false); cbn [cond_Zopp]; lia. }
  destruct Hmain as [z [H1 [H2 H3]]].
  unfold FLOAT_DEG_TO_RAD_Q31 at 1 2 3. rewrite H1, H2.
  split; [reflexivity|]. split; [exact H3|exact Hends].
Qed.

Lemma leb_not_nan (x y : float32_t) :
  B32.leb x y = true -> is_nan x = false /\ is_nan y = false.
Proof.
  destruct x as [a|a| |a ma ea], y as [b|b| |b mb eb]; intros H;
    try (split; reflexivity); try discriminate H;
    destruct a; discriminate H.
Qed.

Lemma leb_trans (a b c : float32_t) :
  B32.valid a = true -> B32.valid b = true -> B32.valid c = true ->
  B32.leb a b = true -> B32.leb b c = true -> B32.leb a c = true.
Proof.
  intros Va Vb Vc Hab Hbc.
  destruct (is_finite a) eqn:Fa, (is_finite b) eqn:Fb, (is_finite c) eqn:Fc.
  - apply leb_Fscaled in Hab; auto. apply leb_Fscaled in Hbc; auto.
    apply leb_Fscaled; auto. lia.
  - destruct c as [sc|sc| |sc mc ec]; try discriminate;
      destruct b as [sb|sb| |sb mb eb]; try discriminate;
      destruct a as [sa|sa| |sa ma ea]; try discriminate;
      destruct sc; try discriminate Hbc; try reflexivity;
      destruct sb; discriminate Hbc.
  - destruct b as [sb|sb| |sb mb eb]; try discriminate;
      destruct a as [sa|sa| |sa ma ea]; try discriminate;
      destruct c as [sc|sc| |sc mc ec]; try discriminate;
      destruct sb; try discriminate Hab; try discriminate Hbc;
      destruct sa; try discriminate Hab; destruct sc; discriminate Hbc.
  - destruct b as [sb|sb| |sb mb eb]; try discriminate;
      destruct a as [sa|sa| |sa ma ea]; try discriminate;
      destruct c as [sc|sc| |sc mc ec]; try discriminate;
      destruct sb, sc; try discriminate Hab; try discriminate Hbc;
      try reflexivity; destruct sa; discriminate Hab.
  - destruct a as [sa|sa| |sa ma ea]; try discriminate;
      destruct b as [sb|sb| |sb mb eb]; try discriminate;
      destruct c as [sc|sc| |sc mc ec]; try discriminate;
      destruct sa; try discriminate Hab; try reflexivity;
      destruct sb; discriminate Hab.
  - destruct a as [sa|sa| |sa ma ea]; try discriminate;
      destruct b as [sb|sb| |sb mb eb]; try discriminate;
      destruct c as [sc|sc| |sc mc ec]; try discriminate;
      destruct sa, sc; try discriminate Hab; try discriminate Hbc;
      try reflexivity; destruct sb; try discriminate Hab; discriminate Hbc.
  - destruct a as [sa|sa| |sa ma ea]; try discriminate;
      destruct b as [sb|sb| |sb mb eb]; try discriminate;
      destruct c as [sc|sc| |sc mc ec]; try discriminate;
      destruct sa, sb; try discriminate Hab; try reflexivity;
      destruct sc; discriminate Hbc.
  - destruct a as [sa|sa| |sa ma ea]; try discriminate;
      destruct b as [sb|sb| |sb mb eb]; try discriminate;
      destruct c as [sc|sc| |sc mc ec]; try discriminate;
      destruct sa, sb, sc; try discriminate Hab; try discriminate Hbc;
      reflexivity.
Qed.

Lemma check_range_accepts (lo hi x : float32_t) (w : world) :
  fst (check_range lo hi x w) = CY_CORDIC_SUCCESS ->
  B32.ltb x lo = false /\ B32.ltb hi x = false.
Proof.
  unfold check_range.
  destruct (B32.ltb x lo || B32.ltb hi x)%bool eqn:H.
  - intros H0. discriminate H0.
  - intros _. apply orb_false_elim in H. exact H.
Qed.

(** An accepted angle that is a number: its conversion is defined. *)
Lemma accepted_angle_bound (u : float32_t -> Z) (lo hi x : float32_t) :
  B32.valid lo = true -> B32.valid hi = true -> B32.valid x = true ->
  is_nan x = false ->
  B32.leb (B32.of_Z (-90)) lo = true ->
  B32.leb hi (B32.of_Z 90) = true ->
  (B32.ltb x lo || B32.ltb hi x)%bool = false ->
  FLOAT_DEG_TO_RAD_Q31 u x
    = Ztrunc (B32.mul x (B32.of_Z (Q31_MULTIPLIER / 180)))
  /\ - DEG_Q31_MAX <= FLOAT_DEG_TO_RAD_Q31 u x <= DEG_Q31_MAX.
Proof.
  intros Vlo Vhi Vx Nx Hlo Hhi Hok.
  apply orb_false_elim in Hok. destruct Hok as [H1 H2].
  destruct (leb_not_nan _ _ Hlo) as [_ Nlo].
  destruct (leb_not_nan _ _ Hhi) as [Nhi _].
  assert (L1 : B32.leb lo x = true)
    by (rewrite (leb_iff_not_gt lo x Nlo Nx), H1; reflexivity).
  assert (L2 : B32.leb x hi = true)
    by (rewrite (leb_iff_not_gt x hi Nx Nhi), H2; reflexivity).
  assert (V90 : B32.valid (B32.of_Z 90) = true) by reflexivity.
  assert (Vm90 : B32.valid (B32.of_Z (-90)) = true) by reflexivity.
  pose proof (leb_trans _ _ _ Vm90 Vlo Vx Hlo L1) as A.
  pose proof (leb_trans _ _ _ Vx Vhi V90 L2 Hhi) as B.
  destruct (deg_to_q31_bounded u x Vx A B) as (R1 & R2 & _).
  split; assumption.
Qed.

(** X10.  Whatever limits within [-90, 90] a handler gives [check_range],
    the Q31 conversion of an accepted angle that is a number is defined and
    the same on every platform: it is the integer part of the binary32
    product [x * (Q31_MULTIPLIER / 180)], and it lies within
    [DEG_Q31_MAX], the image of 90 degrees.  (A NaN is accepted too, and
    its conversion is left to the platform.) *)
Theorem accepted_angle_within_quarter_turn (u : float32_t -> Z)
    (lo hi x : float32_t) (w : world) :
  B32.valid lo = true -> B32.valid hi = true -> B32.valid x = true ->
  B32.leb (B32.of_Z (-90)) lo = true ->
  B32.leb hi (B32.of_Z 90) = true ->
  fst (check_range lo hi x w) = CY_CORDIC_SUCCESS ->
  (is_nan x = false ->
   FLOAT_DEG_TO_RAD_Q31 u x
     = Ztrunc (B32.mul x (B32.of_Z (Q31_MULTIPLIER / 180)))
   /\ - DEG_Q31_MAX <= FLOAT_DEG_TO_RAD_Q31 u x <= DEG_Q31_MAX)
  /\ (is_nan x = true -> FLOAT_DEG_TO_RAD_Q31 u x = u S754_nan).
Proof.
  intros Vlo Vhi Vx Hlo Hhi Hok.
  destruct (check_range_accepts lo hi x w Hok) as [H1 H2].
  split.
  - intros Nx. apply (accepted_angle_bound u lo hi x); auto.
    rewrite H1, H2. reflexivity.
  - intros Nx. apply is_nan_eq in Nx. subst x. reflexivity.
Qed.

Lemma accepted_angle_within_quarter_turn_witness :
  B32.valid IN_TAN_MIN = true /\ B32.valid IN_TAN_MAX = true
  /\ B32.valid (B32.of_Z 45) = true
  /\ fst (check_range IN_TAN_MIN IN_TAN_MAX (B32.of_Z 45) (initial_world ""))
     = CY_CORDIC_SUCCESS
  /\ FLOAT_DEG_TO_RAD_Q31 indefinite_cast (B32.of_Z 45) = 536870880.
Proof.
  split; [reflexivity|]. split; [reflexivity|]. split; [reflexivity|].
  split; [reflexivity|].
  rewrite (proj1 (proj1 (accepted_angle_within_quarter_turn indefinite_cast
                           IN_TAN_MIN IN_TAN_MAX
                           (B32.of_Z 45) (initial_world "")
                           eq_refl eq_refl eq_refl eq_refl eq_refl eq_refl)
                    eq_refl)).
  vm_compute. reflexivity.
Defined.

Ltac range_step :=
  run;
  match goal with
  | |- context [scan_token ?s] =>
      destruct (scan_token s) as [[? ?]|] eqn:?
  | |- context [0 <? 1] => change (0 <? 1) with true
  | |- context [0 <? -1] => change (0 <? -1) with false
  | |- context [check_range ?a ?b ?c ?w] =>
      let Hc := fresh "Hc" in
      destruct (B32.ltb c a || B32.ltb b c)%bool eqn:Hc;
      [ rewrite (check_range_bad_param a b c w Hc)
      | rewrite (check_range_success a b c w Hc) ]
  end.

Ltac angle_leaf :=
  run; trace_list;
  let Hv := fresh "Hv" in let Hn := fresh "Hn" in
  let ops := fresh "ops" in let H := fresh "H" in
  intros Hv Hn ops H; in_list_cases H;
  first
    [ contradiction
    | discriminate H
    | injection H as <-;
      eexists; eexists; split; [reflexivity|];
      match goal with
      | Hc : (B32.ltb ?x ?lo || B32.ltb ?hi ?x)%bool = false
        |- _ <= FLOAT_DEG_TO_RAD_Q31 ?u ?x <= _ =>
          exact (proj2 (accepted_angle_bound u lo hi x eq_refl eq_refl Hv
                          Hn eq_refl eq_refl Hc))
      end ].

(** X11.  The seven handlers that take an angle (the Park transform, the
    circular and the hyperbolic sine, cosine and tangent) pass the
    accelerator an angle of at most a quarter turn in Q31, on every
    platform: the first operand of every call is within [DEG_Q31_MAX], when
    the angle read is a binary32 number and not NaN. *)
Theorem angle_operand_within_quarter_turn (E : Externals)
    (f : cordic_primitive) (w : world) :
  takes_angle f = true ->
  B32.valid (angle_deg (w_globals (exec (handler E f) w))) = true ->
  is_nan (angle_deg (w_globals (exec (handler E f) w))) = false ->
  forall operands,
    In (EvCordic f operands) (new_events (handler E f) w) ->
    exists q rest,
      operands = q :: rest /\ - DEG_Q31_MAX <= q <= DEG_Q31_MAX.
Proof.
  intros Hf. destruct_world w.
  destruct f; try discriminate Hf; clear Hf; unfold_handlers;
    repeat range_step; angle_leaf.
Qed.

Lemma angle_operand_within_quarter_turn_witness :
  takes_angle HwSin = true
  /\ B32.valid
       (angle_deg
          (w_globals (exec (handler stub_externals HwSin)
                        (initial_world "45")))) = true
  /\ is_nan
       (angle_deg
          (w_globals (exec (handler stub_externals HwSin)
                        (initial_world "45")))) = false
  /\ In (EvCordic HwSin [536870880])
       (new_events (handler stub_externals HwSin) (initial_world "45"))
  /\ exists q rest,
       [536870880] = q :: rest /\ - DEG_Q31_MAX <= q <= DEG_Q31_MAX.
Proof.
  assert (Hv : B32.valid
                 (angle_deg
                    (w_globals (exec (handler stub_externals HwSin)
                                  (initial_world "45")))) = true)
    by (vm_compute; reflexivity).
  assert (Hin : In (EvCordic HwSin [536870880])
                  (new_events (handler stub_externals HwSin)
                     (initial_world "45")))
    by (vm_compute; auto).
  assert (Hn : is_nan
                 (angle_deg
                    (w_globals (exec (handler stub_externals HwSin)
                                  (initial_world "45")))) = false)
    by (vm_compute; reflexivity).
  split; [reflexivity|]. split; [exact Hv|]. split; [exact Hn|].
  split; [exact Hin|].
  exact (angle_operand_within_quarter_turn stub_externals HwSin
           (initial_world "45") eq_refl Hv Hn [536870880] Hin).
Defined.

(** ** [main]: the initialisation *)

Ltac boot_run :=
  cbv beta iota zeta delta
    [main bbind bret init_step handle_error CY_ASSERT_0 on_console
     boot_start b_calls b_world cybsp_init Cy_SCB_UART_Init
     mtb_hal_uart_setup cy_retarget_io_init assert_halts init_sequence
     all_succeeded CY_RSLT_SUCCESS negb fst snd app].

Ltac boot_test r :=
  destruct (Z.eqb_spec r 0).

(** X12.  [main] reaches [run_cordic_functions] exactly when the four
    initialisations succeeded or a failed assertion does not stop the
    program; it has then made the seven initialisation calls in the order
    of the source, and the console shows what [run_cordic_functions]
    prints.  When it stops in an assertion, nothing was printed or read,
    interrupts were not enabled, and the calls made are a prefix of the
    sequence.  The accelerator is enabled exactly when the board
    initialisation succeeded or assertions do not stop the program. *)
Theorem main_initialisation (P : Platform) (E : Externals) (n : nat)
    (w : world) :
  let r := main P E n (boot_start w) in
  (fst r = Some tt <-> (assert_halts P = false \/ all_succeeded P))
  /\ (fst r = Some tt ->
      b_calls (snd r) = init_sequence
      /\ b_world (snd r) = exec (run_cordic_functions E n) w)
  /\ (fst r = None ->
      b_world (snd r) = w
      /\ ~ In CallEnableIrq (b_calls (snd r))
      /\ exists rest, init_sequence = b_calls (snd r) ++ rest)
  /\ (In CallCordicEnable (b_calls (snd r))
      <-> (assert_halts P = false \/ cybsp_init P = CY_RSLT_SUCCESS)).
Proof.
  destruct P as [r1 r2 r3 r4 h]. boot_run. unfold exec.
  boot_test r1; boot_test r2; boot_test r3; boot_test r4; destruct h;
    boot_run; destruct (run_cordic_functions E n w) as [[] w'];
    boot_run;
    (split; [split; [intros H; try discriminate H; auto 10
                     |intros [H|H]; try discriminate H; try reflexivity;
                      exfalso; lia]|]);
    (split; [intros H; try discriminate H; split; reflexivity|]);
    (split; [intros H;
             first
               [ discriminate H
               | split; [reflexivity|];
                 split; [cbn [In]; intros G;
                         repeat (destruct G as [G|G]; try discriminate G);
                         exact G
                        |eexists; cbn [app]; reflexivity] ]|]);
    (split; [intros H; auto;
                     cbn [In] in H;
                     repeat (destruct H as [H|H]; try discriminate H);
                     contradiction
            |intros [H|H]; try discriminate H; cbn [In]; auto;
             exfalso; lia]).
Qed.
